(** * USB Manager: the presentation-layer transformations and the audit core

    A shallow embedding of the TypeScript of the SvelteKit front end
    (device detail page, dashboard, device vault, activity feed, event log)
    and, for the parts of the audit core whose Rust sources are not part of
    the front-end tree, a model written from the design document.

    Conventions.
    - A JavaScript string is a [string]: a sequence of code units below
      256, the Basic Latin and Latin-1 Supplement blocks of UTF-16. On these
      strings [toLowerCase] acts code unit by code unit: it moves the
      letters A-Z and the letters from U+00C0 to U+00DE, the multiplication
      sign U+00D7 apart, by 32, and leaves every other unit alone.
    - A JavaScript number that holds a byte count, an id or an index is a [Z].
    - An optional field ([name?: string]) is an [option].
    - [localeCompare] depends on the host's collation tables; it is taken as
      a [Collator]: a comparison with the laws ECMA-262 demands of it
      (a consistent comparator that defines a total ordering). *)

From stdpp Require Import base list strings sorting gmap.
From Stdlib Require Import ZArith Lia Ascii DecimalString.

Local Open Scope Z_scope.

(** ** JavaScript built-ins used by the pages *)

Module Js.

(** [s.split(sep)] for a separator of one code unit: the pieces between
    the separators, of which there is always at least one. *)
Fixpoint split (sep : ascii) (s : string) : list string :=
  match s with
  | EmptyString => [EmptyString]
  | String c s' =>
      if Ascii.eqb c sep then EmptyString :: split sep s'
      else match split sep s' with
           | [] => [String c EmptyString]
           | p :: ps => String c p :: ps
           end
  end.

(** [s.startsWith(c)] for a prefix of one code unit. *)
Definition startsWith (c : ascii) (s : string) : bool :=
  match s with
  | EmptyString => false
  | String c' _ => Ascii.eqb c' c
  end.

(** The code units below 256 that have a lower-case letter of their own:
    A-Z, and U+00C0 to U+00DE without the multiplication sign U+00D7. *)
Definition is_upper (c : ascii) : bool :=
  let n := nat_of_ascii c in
  ((65 <=? n) && (n <=? 90)
   || (192 <=? n) && (n <=? 222) && negb (n =? 215))%nat.

Definition lower_unit (c : ascii) : ascii :=
  if is_upper c then ascii_of_nat (nat_of_ascii c + 32) else c.

(** [s.toLowerCase()]: among the code units below 256 the lower-case
    letter of a letter is 32 units above it, and no rule of the Unicode
    case conversion looks at the neighbours of a unit. *)
Fixpoint toLowerCase (s : string) : string :=
  match s with
  | EmptyString => EmptyString
  | String c s' => String (lower_unit c) (toLowerCase s')
  end.

(** [lower_case_of s e]: [e] is [s] in lower case. The two strings have
    the same length; where [s] has an upper-case letter, [e] has the code
    unit 32 above it, its lower-case letter, and everywhere else [e] has
    the code unit of [s]. *)
Inductive lower_case_of : string → string → Prop :=
| lower_case_empty : lower_case_of EmptyString EmptyString
| lower_case_other c s e :
    is_upper c = false → lower_case_of s e →
    lower_case_of (String c s) (String c e)
| lower_case_letter c d s e :
    is_upper c = true → nat_of_ascii d = (nat_of_ascii c + 32)%nat →
    lower_case_of s e →
    lower_case_of (String c s) (String d e).

(** A string without upper-case letters. *)
Fixpoint no_upper (s : string) : bool :=
  match s with
  | EmptyString => true
  | String c s' => negb (is_upper c) && no_upper s'
  end.

(** [s.includes(c)] for a substring of one code unit. *)
Fixpoint includes (c : ascii) (s : string) : bool :=
  match s with
  | EmptyString => false
  | String c' s' => Ascii.eqb c' c || includes c s'
  end.

(** A string is falsy exactly when it is empty. *)
Definition truthy (s : string) : bool :=
  match s with EmptyString => false | _ => true end.

(** [a || b] on optional strings: the left operand unless it is
    [undefined] or empty. *)
Definition or_else (a b : option string) : option string :=
  match a with
  | Some s => if truthy s then Some s else b
  | None => b
  end.

(** [arr.find(p)]: the first element that satisfies [p]. *)
Fixpoint find {A} (p : A → bool) (l : list A) : option A :=
  match l with
  | [] => None
  | x :: l' => if p x then Some x else find p l'
  end.

(** [arr.slice(start, end)]: a negative index counts from the end, and
    both are clamped to the length. *)
Definition relative_index (len i : Z) : Z :=
  if i <? 0 then Z.max (len + i) 0 else Z.min i len.

Definition slice {A} (start stop : Z) (l : list A) : list A :=
  let len := Z.of_nat (length l) in
  let k := relative_index len start in
  let final := relative_index len stop in
  take (Z.to_nat (final - k)) (drop (Z.to_nat k) l).

(** [arr.sort(cmp)]: a stable sort (ECMAScript 2019), ascending for a
    comparator that returns a negative, zero or positive number. For a
    consistent comparator the result is fixed by stability; it is computed
    here by insertion from the right, which places an element in front of
    the later elements it compares equal to. *)
Fixpoint sort_insert {A} (cmp : A → A → Z) (x : A) (l : list A) : list A :=
  match l with
  | [] => [x]
  | y :: l' => if cmp x y <=? 0 then x :: l else y :: sort_insert cmp x l'
  end.

Fixpoint sort {A} (cmp : A → A → Z) (l : list A) : list A :=
  match l with
  | [] => []
  | x :: l' => sort_insert cmp x (sort cmp l')
  end.

(** [String.prototype.localeCompare], with the laws of ECMA-262
    (22.1.3.12): a consistent comparator defining a total ordering. *)
Record Collator := {
  localeCompare : string → string → Z;
  localeCompare_refl : ∀ a, localeCompare a a = 0;
  localeCompare_flip : ∀ a b, localeCompare a b < 0 ↔ 0 < localeCompare b a;
  localeCompare_trans : ∀ a b c,
    localeCompare a b <= 0 → localeCompare b c <= 0 → localeCompare a c <= 0
}.

(** Comparison of code units, the order of the [<] operator on strings. *)
Fixpoint compare_units (a b : string) : Z :=
  match a, b with
  | EmptyString, EmptyString => 0
  | EmptyString, String _ _ => -1
  | String _ _, EmptyString => 1
  | String x a', String y b' =>
      let d := Z.of_nat (nat_of_ascii x) - Z.of_nat (nat_of_ascii y) in
      if d =? 0 then compare_units a' b' else d
  end.

Lemma compare_units_refl a : compare_units a a = 0.
Proof.
  induction a as [|x a IH]; simpl; [done|].
  by rewrite Z.sub_diag.
Qed.

Lemma compare_units_flip a b : compare_units a b < 0 ↔ 0 < compare_units b a.
Proof.
  revert b. induction a as [|x a IH]; intros [|y b]; simpl; try lia.
  destruct (Z.eqb_spec (Z.of_nat (nat_of_ascii x) - Z.of_nat (nat_of_ascii y)) 0) as [E|E];
    destruct (Z.eqb_spec (Z.of_nat (nat_of_ascii y) - Z.of_nat (nat_of_ascii x)) 0) as [E'|E'];
    try lia.
  apply IH.
Qed.

Lemma compare_units_trans a b c :
  compare_units a b <= 0 → compare_units b c <= 0 → compare_units a c <= 0.
Proof.
  revert b c. induction a as [|x a IH]; intros [|y b] [|z c]; simpl; try lia.
  destruct (Z.eqb_spec (Z.of_nat (nat_of_ascii x) - Z.of_nat (nat_of_ascii y)) 0) as [E1|E1];
    destruct (Z.eqb_spec (Z.of_nat (nat_of_ascii y) - Z.of_nat (nat_of_ascii z)) 0) as [E2|E2];
    destruct (Z.eqb_spec (Z.of_nat (nat_of_ascii x) - Z.of_nat (nat_of_ascii z)) 0) as [E3|E3];
    try lia.
  apply IH.
Qed.

Lemma compare_units_strict a b : compare_units a b = 0 → a = b.
Proof.
  revert b. induction a as [|x a IH]; intros [|y b]; simpl; try done.
  destruct (Z.eqb_spec (Z.of_nat (nat_of_ascii x) - Z.of_nat (nat_of_ascii y)) 0) as [E|E];
    [|lia].
  intros H. f_equal; [|by apply IH].
  rewrite <-(ascii_nat_embedding x), <-(ascii_nat_embedding y). f_equal. lia.
Qed.

(** The collation that orders strings by their code units. *)
Definition unitCollator : Collator :=
  {| localeCompare := compare_units;
     localeCompare_refl := compare_units_refl;
     localeCompare_flip := compare_units_flip;
     localeCompare_trans := compare_units_trans |}.

End Js.

(** ** The file explorer of the device detail page
       ([routes/devices/[serial]/+page.svelte], lines 117-187) *)

Module FileTree.

(** One row of [DeviceFilesResponse.snapshots]. *)
Record Snapshot := {
  snapshot_path : string;
  snapshot_is_folder : bool;
  snapshot_size : Z
}.

(** [interface FileNode]. The induction principle that goes through the
    lists of children is [FileTreeFacts.FileNode_ind]. *)
Local Unset Elimination Schemes.
Inductive FileNode := mkFileNode {
  name : string;
  path : string;
  is_folder : bool;
  size : Z;
  extension : option string;
  children : list FileNode;
  expanded : bool
}.
Local Set Elimination Schemes.

Definition with_children (node : FileNode) (cs : list FileNode) : FileNode :=
  {| name := name node; path := path node; is_folder := is_folder node;
     size := size node; extension := extension node; children := cs;
     expanded := expanded node |}.

Definition getFileExtension (filename : string) : option string :=
  let parts := Js.split "." filename in
  if (1 <? length parts)%nat && negb (Js.startsWith "." filename)
  then Some (Js.toLowerCase (List.last parts EmptyString))
  else None.

(** The object literal [newNode] of [buildFileTree]. *)
Definition newNode (snapshot : Snapshot) (part currentPath : string)
    (isLast : bool) : FileNode :=
  {| name := part;
     path := currentPath;
     is_folder := if isLast then snapshot_is_folder snapshot else true;
     size := if isLast then snapshot_size snapshot else 0;
     extension := if negb isLast || snapshot_is_folder snapshot then None
                  else getFileExtension part;
     children := [];
     expanded := false |}.

Definition named (part : string) (child : FileNode) : bool :=
  String.eqb (name child) part.

(** The first child called [part] is replaced by its image under [f]:
    the effect on [current.children] of continuing the walk inside
    [existingNode], which is a reference to that child. *)
Fixpoint update_first (part : string) (f : FileNode → FileNode)
    (cs : list FileNode) : list FileNode :=
  match cs with
  | [] => []
  | c :: cs' => if named part c then f c :: cs' else c :: update_first part f cs'
  end.

(** The inner [for] loop of [buildFileTree] from index [i] on, where
    [parts] holds [parts[i..]], [currentPath] the path built so far and
    [current] the node reached. *)
Fixpoint insertParts (snapshot : Snapshot) (parts : list string)
    (currentPath : string) (current : FileNode) : FileNode :=
  match parts with
  | [] => current
  | part :: rest =>
      let currentPath := (currentPath +:+ "/" +:+ part)%string in
      let isLast := match rest with [] => true | _ => false end in
      match Js.find (named part) (children current) with
      | None =>
          with_children current
            (children current ++
             [insertParts snapshot rest currentPath
                (newNode snapshot part currentPath isLast)])
      | Some _ =>
          with_children current
            (update_first part (insertParts snapshot rest currentPath)
               (children current))
      end
  end.

(** [snapshot.path.split('/').filter(p => p.length > 0)] *)
Definition pathParts (snapshot : Snapshot) : list string :=
  List.filter (λ p, (0 <? String.length p)%nat)
              (Js.split "/" (snapshot_path snapshot)).

Definition rootNode : FileNode :=
  {| name := "Root"; path := "/"; is_folder := true; size := 0;
     extension := None; children := []; expanded := true |}.

Definition insertSnapshot (root : FileNode) (snapshot : Snapshot) : FileNode :=
  insertParts snapshot (pathParts snapshot) "" root.

(** The tree after the outer [for] loop, before it is sorted. *)
Definition insertAll (snapshots : list Snapshot) : FileNode :=
  fold_left insertSnapshot snapshots rootNode.

Fixpoint height (node : FileNode) : nat :=
  match node with
  | mkFileNode _ _ _ _ _ cs _ =>
      S (foldr (λ c h, Nat.max (height c) h) 0%nat cs)
  end.

Section Sorting.
Context (collator : Js.Collator).

(** The comparator handed to [node.children.sort]. *)
Definition compareNodes (a b : FileNode) : Z :=
  if is_folder a && negb (is_folder b) then -1
  else if negb (is_folder a) && is_folder b then 1
  else Js.localeCompare collator (name a) (name b).

(** [sortFileNodes], which sorts the children and then descends into
    each child that has children; [fuel] bounds the depth of the descent. *)
Fixpoint sortFileNodes_upto (fuel : nat) (node : FileNode) : FileNode :=
  match fuel with
  | O => node
  | S fuel' =>
      with_children node
        (map (λ child,
                if (0 <? length (children child))%nat
                then sortFileNodes_upto fuel' child else child)
             (Js.sort compareNodes (children node)))
  end.

Definition sortFileNodes (node : FileNode) : FileNode :=
  sortFileNodes_upto (height node) node.

Definition buildFileTree (snapshots : list Snapshot) : FileNode :=
  sortFileNodes (insertAll snapshots).

(** A list of nodes in ascending order of their names. *)
Definition name_ascending (l : list FileNode) : Prop :=
  StronglySorted
    (λ a b, Js.localeCompare collator (name a) (name b) <= 0) l.

(** A list of children that consists of its folders, in ascending order
    of their names, followed by its files, in ascending order of their
    names. *)
Definition folders_first (cs : list FileNode) : Prop :=
  ∃ folders files,
    cs = folders ++ files
    ∧ Forall (λ c, is_folder c = true) folders
    ∧ Forall (λ c, is_folder c = false) files
    ∧ name_ascending folders
    ∧ name_ascending files.
End Sorting.

(** The flag and the size that a row states for the node of its own path,
    and the ones that [buildFileTree] gives to a node that it creates on
    the way to a longer path. *)
Definition stated (snapshot : Snapshot) : bool * Z :=
  (snapshot_is_folder snapshot, snapshot_size snapshot).

Definition implied : bool * Z := (true, 0).

(** [agrees_with x y]: when the path of [x] leads to the path of [y], what
    [x] states for its node is what [y] gives to that node: the statement
    of [y] when the two paths are the same, a folder of size 0 when the
    path of [y] is longer. A row with an empty path creates no node. *)
Definition agrees_with (x y : Snapshot) : bool :=
  if bool_decide (pathParts x `prefix_of` pathParts y)
  then bool_decide (pathParts x = [])
       || bool_decide (stated x = if bool_decide (pathParts x = pathParts y)
                                  then stated y else implied)
  else true.

(** A list of rows in which every two rows agree. *)
Definition consistent (snapshots : list Snapshot) : bool :=
  forallb (λ x, forallb (agrees_with x) snapshots) snapshots.

(** Every node of a tree, the root included. *)
Fixpoint nodes (node : FileNode) : list FileNode :=
  match node with
  | mkFileNode _ _ _ _ _ cs _ => node :: flat_map nodes cs
  end.

(** The extension of a node is derived from its name, for files only: a
    defined extension belongs to a file and is the text after the last dot
    of the name in lower case, so that it holds no upper-case letter; a
    name without a dot, a name that begins with a dot and a folder have
    none. *)
Definition extension_derived (node : FileNode) : Prop :=
  (∀ e, extension node = Some e →
     is_folder node = false
     ∧ ∃ stem suffix,
         name node = (stem +:+ "." +:+ suffix)%string
         ∧ Js.includes "." suffix = false
         ∧ Js.lower_case_of suffix e
         ∧ Js.no_upper e = true)
  ∧ (Js.includes "." (name node) = false
     ∨ Js.startsWith "." (name node) = true
     ∨ is_folder node = true →
     extension node = None).

(** *** Notions used to state and to prove the properties of the tree *)

(** A node without its children: what [buildFileTree] decides when it
    creates the node. *)
Definition label (node : FileNode) : FileNode := with_children node [].

(** [every P t]: [P] holds of every node of [t]. *)
Definition every (P : FileNode → Prop) (t : FileNode) : Prop :=
  Forall P (nodes t).

(** A property of a node that does not look at its children. *)
Definition ignores_children (Q : FileNode → Prop) : Prop :=
  ∀ n cs, Q n → Q (with_children n cs).

Definition extension_of_name (node : FileNode) : Prop :=
  extension node
    = if is_folder node then None else getFileExtension (name node).

Definition keeps_name (f : FileNode → FileNode) : Prop :=
  ∀ c, name (f c) = name c.

(** The node reached from [t] through the children called [ps]. *)
Fixpoint descend (t : FileNode) (ps : list string) : option FileNode :=
  match ps with
  | [] => Some t
  | p :: ps' => Js.find (named p) (children t) ≫= λ c, descend c ps'
  end.

Definition label_at (t : FileNode) (ps : list string) : option FileNode :=
  label <$> descend t ps.

(** The node that a row creates at the path [ps] below the node at which
    its walk over [parts] starts, when no such node exists. *)
Fixpoint contribution (snapshot : Snapshot) (parts : list string)
    (currentPath : string) (ps : list string) : option FileNode :=
  match ps, parts with
  | p :: ps', part :: rest =>
      if String.eqb p part then
        let currentPath := (currentPath +:+ "/" +:+ part)%string in
        let isLast := match rest with [] => true | _ => false end in
        match ps' with
        | [] => Some (newNode snapshot part currentPath isLast)
        | _ => contribution snapshot rest currentPath ps'
        end
      else None
  | _, _ => None
  end.

Definition or_created (existing created : option FileNode) : option FileNode :=
  match existing with
  | Some a => Some a
  | None => created
  end.

Fixpoint first_some {A B} (f : A → option B) (l : list A) : option B :=
  match l with
  | [] => None
  | x :: l' => match f x with Some b => Some b | None => first_some f l' end
  end.

(** The node that a list of rows creates at [ps]: the one of the first row
    that reaches [ps]. *)
Definition first_contribution (snapshots : list Snapshot) (ps : list string)
    : option FileNode :=
  first_some (λ s, contribution s (pathParts s) "" ps) snapshots.

Definition unique_names (t : FileNode) : Prop :=
  every (λ n, NoDup (name <$> children n)) t.

(** [localeCompare] tells the names of the children of every node of
    the tree apart: it is 0 on two of them only when they are equal. *)
Definition siblings_strict (collator : Js.Collator) (t : FileNode) : Prop :=
  ∀ ps n a b,
    descend t ps = Some n → a ∈ children n → b ∈ children n →
    Js.localeCompare collator (name a) (name b) = 0 → name a = name b.

(** The same of the rows: [localeCompare] tells apart the names that two
    rows have at the same place, after the same names. *)
Definition sibling_names_strict (collator : Js.Collator)
    (snapshots : list Snapshot) : Prop :=
  ∀ x y ps a b,
    x ∈ snapshots → y ∈ snapshots →
    (ps ++ [a]) `prefix_of` pathParts x →
    (ps ++ [b]) `prefix_of` pathParts y →
    Js.localeCompare collator a b = 0 → a = b.

(** A tree in which every list of children is in the order of the
    comparator of [sortFileNodes]. *)
Definition sorted (collator : Js.Collator) (t : FileNode) : Prop :=
  every (λ n, StronglySorted (λ a b, compareNodes collator a b <= 0)
                             (children n)) t.

End FileTree.

(** ** Loading the files of a session
       ([routes/devices/[serial]/+page.svelte], lines 217-241) *)

Module DevicePage.
Import FileTree.

(** A value of the argument object of a Tauri [invoke]. *)
Inductive JsValue :=
| JsString (s : string)
| JsNumber (n : Z).

(** A call [invoke(command, arguments)]. *)
Record Invocation := {
  command : string;
  arguments : list (string * JsValue)
}.

(** [interface DeviceFilesResponse] *)
Record DeviceFilesResponse := {
  success : bool;
  device_id : string;
  activity_id : Z;
  snapshots : list Snapshot;
  total_files : Z;
  total_folders : Z
}.

(** [interface TimelineEvent]; every event of the timeline has type
    CONNECT. *)
Record TimelineEvent := {
  id : Z;
  timestamp : string;
  duration : option string;
  file_count : option Z;
  folder_count : option Z
}.

(** The page state that [loadFilesForActivity] reads and writes. *)
Record State := {
  serial : string;
  selectedActivityId : Z;
  fileTree : option FileNode;
  isLoadingFiles : bool
}.

(** The request that [loadFilesForActivity(activityId)] sends. *)
Definition loadFilesForActivity_invocation (st : State) (activityId : Z)
    : Invocation :=
  {| command := "get_device_files";
     arguments := [("deviceId"%string, JsString (serial st))] |}.

Section Backend.
Context (collator : Js.Collator).
(** The backend's answer to a request; [None] is a rejected promise. *)
Context (invoke : Invocation → option DeviceFilesResponse).

(** The state once the promise of [loadFilesForActivity] has settled. *)
Definition loadFilesForActivity (st : State) (activityId : Z) : State :=
  let tree :=
    match invoke (loadFilesForActivity_invocation st activityId) with
    | Some result =>
        if success result && (0 <? length (snapshots result))%nat
        then Some (buildFileTree collator (snapshots result))
        else None
    | None => None
    end in
  {| serial := serial st; selectedActivityId := selectedActivityId st;
     fileTree := tree; isLoadingFiles := false |}.

Definition handleTimelineSelect (st : State) (event : TimelineEvent) : State :=
  loadFilesForActivity
    {| serial := serial st; selectedActivityId := id event;
       fileTree := fileTree st; isLoadingFiles := isLoadingFiles st |}
    (id event).
End Backend.

End DevicePage.

(** ** The feed of the dashboard page and the ActivityFeed component (the
       second and the last script of [routes/devices/[serial]/+page.svelte]
       as the tree holds it, lines 421-483 and 1483-1505) *)

Module Dashboard.

Inductive EventType := CONNECT | DISCONNECT.

(** [eventType] of a feed event. *)
Inductive FeedEventType := FeedConnect | FeedDisconnect | FeedScan | FeedError.

Definition feedType (e : EventType) : FeedEventType :=
  match e with CONNECT => FeedConnect | DISCONNECT => FeedDisconnect end.

Record Device := {
  serial_number : string;
  vendor_id : Z;
  product_id : Z;
  name : option string;
  manufacturer : option string;
  total_capacity : option Z
}.

Record ActivityLog := {
  id : Z;
  device_id : string;
  event_type : EventType;
  timestamp : string
}.

Record FeedEvent := {
  feed_id : Z;
  deviceName : string;
  eventType : FeedEventType;
  feed_timestamp : string
}.

(** [device?.name || device?.manufacturer || "Unknown Device"] *)
Definition deviceLabel (device : option Device) : string :=
  default "Unknown Device"%string
    (Js.or_else (Js.or_else (device ≫= name) (device ≫= manufacturer))
                (Some "Unknown Device"%string)).

Definition toFeedEvent (devices : list Device) (a : ActivityLog) : FeedEvent :=
  let device :=
    Js.find (λ d, String.eqb (serial_number d) (device_id a)) devices in
  {| feed_id := id a; deviceName := deviceLabel device;
     eventType := feedType (event_type a); feed_timestamp := timestamp a |}.

(** [let feedEvents = $derived(activities.slice(0, 10).map(...))] *)
Definition feedEvents (devices : list Device) (activities : list ActivityLog)
    : list FeedEvent :=
  map (toFeedEvent devices) (Js.slice 0 10 activities).

End Dashboard.

Module ActivityFeed.

(** The default of the [maxItems] property. *)
Definition defaultMaxItems : Z := 50.

(** [const displayedEvents = $derived(events.slice(0, maxItems))] *)
Definition displayedEvents {E} (events : list E) (maxItems : Z) : list E :=
  Js.slice 0 maxItems events.

End ActivityFeed.

(** ** [formatBytes] of the Device Vault page ([routes/devices/+page.svelte],
       lines 25-31) and of the device detail page (lines 109-115); the two
       functions have the same text *)

Module Vault.

(** The three [return] statements of [formatBytes]. *)
Inductive Return := ReturnUnknown | ReturnZero | ReturnScaled.

Definition sizes : list string := ["B"; "KB"; "MB"; "GB"; "TB"]%string.

(** [!bytes] for [bytes?: number] holding a byte count: [undefined] and 0
    are the falsy values. *)
Definition falsy (bytes : option Z) : bool :=
  match bytes with
  | None => true
  | Some b => b =? 0
  end.

(** [bytes === 0] *)
Definition isZero (bytes : option Z) : bool :=
  match bytes with
  | Some b => b =? 0
  | None => false
  end.

Section FormatBytes.
(** The last two lines compute in IEEE-754 arithmetic, which is not
    evaluated here: [unitIndex bytes] stands for
    [Math.floor(Math.log(bytes) / Math.log(1024))] when that is an index
    ([None] for NaN and for a negative value), and [rounded bytes] for the
    rendering of [Math.round(bytes / Math.pow(1024, i) * 100) / 100]. *)
Context (unitIndex : option Z → option nat).
Context (rounded : option Z → string).

(** [sizes[i]] as string concatenation renders it. *)
Definition unitName (bytes : option Z) : string :=
  default "undefined"%string (unitIndex bytes ≫= (sizes !!.)).

(** [formatBytes], with the [return] statement that produced the result. *)
Definition formatBytes_traced (bytes : option Z) : Return * string :=
  if falsy bytes then (ReturnUnknown, "Unknown"%string)
  else if isZero bytes then (ReturnZero, "0 B"%string)
  else (ReturnScaled, (rounded bytes +:+ " " +:+ unitName bytes)%string).

Definition formatBytes (bytes : option Z) : string :=
  (formatBytes_traced bytes).2.
End FormatBytes.

End Vault.

(** ** The event log of the main page (lines 712-718 and 1184-1190 of
       [routes/devices/[serial]/+page.svelte]: two revisions of the page with
       the same [addEvent]) *)

Module EventLog.

(** The template literal [`[${timestamp}] ${message}`]. *)
Definition entry (timestamp message : string) : string :=
  ("[" +:+ timestamp +:+ "] " +:+ message)%string.

(** [addEvent(message)]; [timestamp] is the reading of
    [new Date().toLocaleTimeString()] at the call. *)
Definition addEvent (eventLog : list string) (timestamp message : string)
    : list string :=
  let eventLog := entry timestamp message :: eventLog in
  if (20 <? length eventLog)%nat then Js.slice 0 20 eventLog else eventLog.

(** The log after a sequence of calls, starting from [$state<string[]>([])]. *)
Definition replay (calls : list (string * string)) : list string :=
  fold_left (λ log call, addEvent log call.1 call.2) calls [].

End EventLog.

(** ** The audit core: identity reconciliation, presence state machine and
       activity ledger

    The Rust sources of the core ([usb_monitor.rs], [db.rs]) are not in the
    front-end tree. The definitions of this module follow sections 3, 4.3,
    4.4 and 4.6 of the design document. *)

Module Core.

(** Modelled from the spec: the Volume Enumerator's description of a mounted
    removable volume (4.1); the enumerator itself is missing. *)
Record Volume := {
  mount_point : string;
  total_capacity : Z;
  free_capacity : Z
}.

(** Modelled from the spec: a descriptor of the Hardware Descriptor Reader
    (4.2); the reader itself is missing. *)
Record Descriptor := {
  vendor_id : Z;
  product_id : Z;
  serial_number : option string;
  reported_capacity : option Z
}.

(** Modelled from the spec: what one detection cycle observes, the missing
    detection loop's input. A blocked descriptor reader returns no
    descriptor (or not the one of the volume). [poll_time] is the reading of
    the clock at the tick. *)
Record Poll := {
  poll_time : Z;
  volumes : list Volume;
  descriptors : list Descriptor
}.

(** Modelled from the spec: the Device row of section 3, with the attributes
    that the operations of the missing store determine. *)
Record Device := {
  identity_key : string;
  device_vendor : option Z;
  device_product : option Z;
  device_capacity : option Z;
  first_seen : Z;
  last_updated : Z
}.

Inductive EventKind := CONNECT | DISCONNECT.

(** Modelled from the spec: the ActivityRecord row of section 3 of the
    missing store. *)
Record ActivityRecord := {
  activity_id : Z;
  activity_device : string;
  activity_kind : EventKind;
  activity_timestamp : Z
}.

(** Modelled from the spec: the states of the missing Presence State Machine
    (4.4); [Unknown] is a device without an entry in the table. *)
Inductive Presence := Disconnected | Connected.

(** Modelled from the spec: the missing Persistent Store (4.6) with the
    state machine's table and the scanner tasks in flight, keyed by device
    identity. *)
Record Store := {
  devices : list Device;
  ledger : list ActivityRecord;
  presence : gmap string Presence;
  active_scans : gmap string Z
}.

Definition initial_store : Store :=
  {| devices := []; ledger := []; presence := ∅; active_scans := ∅ |}.

(** Modelled from the spec: one record of the missing Identity Reconciler's
    output (4.3). *)
Record Reconciled := {
  identity : string;
  source_volume : Volume;
  matched : option Descriptor
}.

Definition decimal (n : Z) : string := NilZero.string_of_int (Z.to_int n).

Section Reconciler.
(** The capacity tolerance and the stable hash of step 3, which the
    design leaves open. *)
Context (tolerance : Z) (stable_hash : string → string).

(** Modelled from the spec: step 1 of the missing reconciler, the
    capacity match within a tolerance. *)
Definition within_tolerance (v : Volume) (d : Descriptor) : bool :=
  match reported_capacity d with
  | Some c => Z.abs (c - total_capacity v) <=? tolerance
  | None => false
  end.

Definition has_serial (d : Descriptor) : bool :=
  match serial_number d with Some _ => true | None => false end.

(** Modelled from the spec: step 1 of the missing reconciler, a
    descriptor with a serial being preferred. *)
Definition find_descriptor (v : Volume) (ds : list Descriptor)
    : option Descriptor :=
  match List.find (λ d, within_tolerance v d && has_serial d) ds with
  | Some d => Some d
  | None => List.find (within_tolerance v) ds
  end.

(** Modelled from the spec: step 3 of the missing reconciler, the stable
    hash of ["<mount-point>:<capacity>"]. *)
Definition fallback_identity (mount : string) (capacity : Z) : string :=
  stable_hash (mount +:+ ":" +:+ decimal capacity)%string.

(** Modelled from the spec: step 2 of the missing reconciler, the
    composite used when the matched descriptor has no serial. *)
Definition composite_identity (d : Descriptor) (capacity : Z) : string :=
  (decimal (vendor_id d) +:+ ":" +:+ decimal (product_id d) +:+ ":"
     +:+ decimal capacity)%string.

(** Modelled from the spec: steps 2 and 3 of the missing reconciler. *)
Definition canonical_identity (v : Volume) (ds : list Descriptor) : string :=
  match find_descriptor v ds with
  | Some d =>
      match serial_number d with
      | Some s => s
      | None => composite_identity d (total_capacity v)
      end
  | None => fallback_identity (mount_point v) (total_capacity v)
  end.

(** Modelled from the spec: the output of the missing reconciler, one
    record per visible volume. *)
Definition reconcile (p : Poll) : list Reconciled :=
  map (λ v, {| identity := canonical_identity v (descriptors p);
               source_volume := v;
               matched := find_descriptor v (descriptors p) |})
      (volumes p).

Definition new_device (now : Z) (r : Reconciled) : Device :=
  {| identity_key := identity r;
     device_vendor := vendor_id <$> matched r;
     device_product := product_id <$> matched r;
     device_capacity := Some (total_capacity (source_volume r));
     first_seen := now;
     last_updated := now |}.

Definition refresh_device (now : Z) (r : Reconciled) (d : Device) : Device :=
  {| identity_key := identity_key d;
     device_vendor := vendor_id <$> matched r;
     device_product := product_id <$> matched r;
     device_capacity := Some (total_capacity (source_volume r));
     first_seen := first_seen d;
     last_updated := now |}.

(** Modelled from the spec: upsert-device of the missing store; a row is
    created for an unseen identity key and updated otherwise. *)
Fixpoint upsert_device (now : Z) (r : Reconciled) (ds : list Device)
    : list Device :=
  match ds with
  | [] => [new_device now r]
  | d :: ds' =>
      if String.eqb (identity_key d) (identity r)
      then refresh_device now r d :: ds'
      else d :: upsert_device now r ds'
  end.

(** Modelled from the spec: insert-activity of the missing store, with
    the auto-incrementing id. *)
Definition insert_activity (device : string) (kind : EventKind) (now : Z)
    (l : list ActivityRecord) : list ActivityRecord :=
  l ++ [{| activity_id := Z.of_nat (length l) + 1;
           activity_device := device;
           activity_kind := kind;
           activity_timestamp := now |}].

(** Modelled from the spec: the transition of the missing state machine
    for an identity that the reconciler reports. *)
Definition observe_present (now : Z) (st : Store) (r : Reconciled) : Store :=
  match presence st !! identity r with
  | Some Connected => st
  | _ =>
      {| devices := upsert_device now r (devices st);
         ledger := insert_activity (identity r) CONNECT now (ledger st);
         presence := <[identity r := Connected]> (presence st);
         active_scans :=
           <[identity r := Z.of_nat (length (ledger st)) + 1]> (active_scans st) |}
  end.

(** Modelled from the spec: the transition of the missing state machine
    for an identity that the reconciler no longer reports. *)
Definition observe_absent (now : Z) (st : Store) (key : string) : Store :=
  match presence st !! key with
  | Some Connected =>
      {| devices := devices st;
         ledger := insert_activity key DISCONNECT now (ledger st);
         presence := <[key := Disconnected]> (presence st);
         active_scans := delete key (active_scans st) |}
  | _ => st
  end.

(** Modelled from the spec: one cycle of the missing detection loop. *)
Definition poll_step (st : Store) (p : Poll) : Store :=
  let rs := reconcile p in
  let gone :=
    List.filter (λ key, negb (bool_decide (key ∈ map identity rs)))
                (elements (dom (presence st))) in
  fold_left (observe_present (poll_time p)) rs
    (fold_left (observe_absent (poll_time p)) gone st).

Definition run (polls : list Poll) : Store :=
  fold_left poll_step polls initial_store.

(** Two observations are of the same volume when they agree on the
    mount point and on the total capacity, which is all that the
    enumerator reports of a volume besides its free capacity. *)
Definition same_volume (v v' : Volume) : bool :=
  String.eqb (mount_point v') (mount_point v)
  && (total_capacity v' =? total_capacity v).

(** The identities that the reconciler gave to a volume at the polls of
    a run, one for each poll at which the volume was present. *)
Definition identities_of (v : Volume) (polls : list Poll) : list string :=
  flat_map
    (λ p, map (λ v', canonical_identity v' (descriptors p))
              (List.filter (same_volume v) (volumes p)))
    polls.

(** The rows that a volume has in the registry after a run: the rows
    whose key is one of its identities. *)
Definition rows_of (v : Volume) (polls : list Poll) : list Device :=
  List.filter (λ d, bool_decide (identity_key d ∈ identities_of v polls))
              (devices (run polls)).
End Reconciler.

(** The records of one device, oldest first. *)
Definition device_history (key : string) (l : list ActivityRecord)
    : list ActivityRecord :=
  List.filter (λ r, String.eqb (activity_device r) key) l.

(** The rows of the registry that carry a given identity key. *)
Definition device_rows (key : string) (ds : list Device) : list Device :=
  List.filter (λ d, String.eqb (identity_key d) key) ds.

(** *** Invariants of the store *)

(** The identity keys of the registry are pairwise distinct, and every
    device that the state machine knows has a row. *)
Record registry_ok (st : Store) : Prop := {
  keys_distinct : NoDup (identity_key <$> devices st);
  known_registered :
    ∀ key, is_Some (presence st !! key) → key ∈ identity_key <$> devices st
}.

Definition status_of (r : option ActivityRecord) : option Presence :=
  match r with
  | None => None
  | Some r =>
      Some (match activity_kind r with
            | CONNECT => Connected
            | DISCONNECT => Disconnected
            end)
  end.

(** The kind of event that may follow the last record of a device. *)
Definition expected_next (r : option ActivityRecord) : EventKind :=
  match r with
  | Some r =>
      match activity_kind r with
      | CONNECT => DISCONNECT
      | DISCONNECT => CONNECT
      end
  | None => CONNECT
  end.

Inductive alternating : list ActivityRecord → Prop :=
| alternating_nil : alternating []
| alternating_snoc h r :
    alternating h → activity_kind r = expected_next (last h) →
    alternating (h ++ [r]).

(** Every device's records alternate, and the table of the state machine
    holds for every device the state that its last record leaves it in. *)
Record machine_ok (st : Store) : Prop := {
  ledger_alternating : ∀ key, alternating (device_history key (ledger st));
  presence_last :
    ∀ key, presence st !! key
           = status_of (last (device_history key (ledger st)))
}.

(** The ledger is in the order of the clock, and no record is later than
    the reading [t]. *)
Record ledger_timed (t : Z) (st : Store) : Prop := {
  ledger_sorted :
    StronglySorted (λ a b, activity_timestamp a <= activity_timestamp b)
                   (ledger st);
  ledger_past : Forall (λ r, activity_timestamp r <= t) (ledger st)
}.

End Core.

(** ** Sample data *)

Module Scenarios.
Import FileTree.

(** Scenario C of the design document: the two rows of a scan of
    [/root/docs] and [/root/docs/a.txt]. *)
Definition scenarioC : list Snapshot :=
  [ {| snapshot_path := "docs"; snapshot_is_folder := true; snapshot_size := 0 |};
    {| snapshot_path := "docs/a.txt"; snapshot_is_folder := false;
       snapshot_size := 1024 |} ].

(** A folder row that carries the size of its directory entry, and a file
    below the folder. *)
Definition docs_4096 : Snapshot :=
  {| snapshot_path := "docs"; snapshot_is_folder := true; snapshot_size := 4096 |}.

Definition docs_a_txt : Snapshot :=
  {| snapshot_path := "docs/a.txt"; snapshot_is_folder := false;
     snapshot_size := 1024 |}.

(** A registry and a history, newest row first, for the dashboard. *)
Definition sample_devices : list Dashboard.Device :=
  [ {| Dashboard.serial_number := "SN123"; Dashboard.vendor_id := 4660;
       Dashboard.product_id := 22136; Dashboard.name := Some "DataTraveler"%string;
       Dashboard.manufacturer := Some "Kingston"%string;
       Dashboard.total_capacity := Some 16000000000 |};
    {| Dashboard.serial_number := "DISK_E_16GB"; Dashboard.vendor_id := 0;
       Dashboard.product_id := 0; Dashboard.name := Some ""%string;
       Dashboard.manufacturer := Some "Generic"%string;
       Dashboard.total_capacity := None |} ].

Definition sample_history : list Dashboard.ActivityLog :=
  [ {| Dashboard.id := 3; Dashboard.device_id := "SN999";
       Dashboard.event_type := Dashboard.CONNECT;
       Dashboard.timestamp := "2024-05-03 09:00:00" |};
    {| Dashboard.id := 2; Dashboard.device_id := "DISK_E_16GB";
       Dashboard.event_type := Dashboard.DISCONNECT;
       Dashboard.timestamp := "2024-05-02 18:30:00" |};
    {| Dashboard.id := 1; Dashboard.device_id := "SN123";
       Dashboard.event_type := Dashboard.CONNECT;
       Dashboard.timestamp := "2024-05-01 08:15:00" |} ].

(** The order of timestamps in the format of the store. *)
Definition newer (a b : string) : Prop := Js.compare_units b a <= 0.

(** Scenario A of the design document: the volume at [E:] of
    16,000,000,000 bytes with the descriptor reader blocked, seen, gone
    and seen again. *)
Definition volume_E : Core.Volume :=
  {| Core.mount_point := "E:"; Core.total_capacity := 16000000000;
     Core.free_capacity := 8000000000 |}.

Definition poll_blocked (now : Z) : Core.Poll :=
  {| Core.poll_time := now; Core.volumes := [volume_E]; Core.descriptors := [] |}.

Definition poll_nothing (now : Z) : Core.Poll :=
  {| Core.poll_time := now; Core.volumes := []; Core.descriptors := [] |}.

Definition scenarioA : list Core.Poll :=
  [poll_blocked 10; poll_blocked 15; poll_nothing 20; poll_blocked 30].

(** Scenario B: the same volume with its descriptor readable. *)
Definition descriptor_SN123 : Core.Descriptor :=
  {| Core.vendor_id := 4660; Core.product_id := 22136;
     Core.serial_number := Some "SN123"%string;
     Core.reported_capacity := Some 15999000000 |}.

Definition poll_readable (now : Z) : Core.Poll :=
  {| Core.poll_time := now; Core.volumes := [volume_E];
     Core.descriptors := [descriptor_SN123] |}.

(** Scenario A followed by Scenario B. *)
Definition scenarioAB : list Core.Poll := scenarioA ++ [poll_readable 40].

(** A volume seen at a poll and gone at the next, where the clock was set
    back between the two polls. *)
Definition clock_set_back : list Core.Poll := [poll_blocked 30; poll_nothing 20].

(** A hash for the scenarios: the prefix [DISK_]. *)
Definition disk_hash (s : string) : string := ("DISK_" +:+ s)%string.
End Scenarios.

From Stdlib Require HexadecimalString.

(** ** More JavaScript built-ins: text *)

Module JsText.

(** The first [n] code units of a string, and the string without them. *)
Fixpoint take_units (n : nat) (s : string) : string :=
  match n, s with
  | S n', String c s' => String c (take_units n' s')
  | _, _ => EmptyString
  end.

Fixpoint drop_units (n : nat) (s : string) : string :=
  match n, s with
  | S n', String _ s' => drop_units n' s'
  | _, _ => s
  end.

(** An index argument of [substring]: below 0 it is 0, above the length it
    is the length. *)
Definition clamp_index (len : nat) (i : Z) : nat :=
  Z.to_nat (Z.min (Z.max i 0) (Z.of_nat len)).

(** [s.substring(start, end)]: the two indices are clamped and, when the
    first is the larger, exchanged. *)
Definition substring (start stop : Z) (s : string) : string :=
  let a := clamp_index (String.length s) start in
  let b := clamp_index (String.length s) stop in
  take_units (Nat.max a b - Nat.min a b) (drop_units (Nat.min a b) s).

(** [s.substring(start)] *)
Definition substring_from (start : Z) (s : string) : string :=
  substring start (Z.of_nat (String.length s)) s.

(** [s.startsWith(t)] *)
Fixpoint startsWith (t s : string) : bool :=
  match t, s with
  | EmptyString, _ => true
  | String a t', String b s' => Ascii.eqb a b && startsWith t' s'
  | String _ _, EmptyString => false
  end.

(** [s.includes(t)] *)
Fixpoint includes (t s : string) : bool :=
  startsWith t s
  || match s with
     | EmptyString => false
     | String _ s' => includes t s'
     end.

Definition upper_unit (c : ascii) : ascii :=
  let n := nat_of_ascii c in
  if ((97 <=? n) && (n <=? 122))%nat then ascii_of_nat (n - 32) else c.

(** [s.toUpperCase()] for a string of code units below 128, such as the
    text of [toString(16)]: the letters a-z are moved down by 32. *)
Fixpoint toUpperCase (s : string) : string :=
  match s with
  | EmptyString => EmptyString
  | String c s' => String (upper_unit c) (toUpperCase s')
  end.

Fixpoint repeat_unit (n : nat) (c : ascii) : string :=
  match n with
  | O => EmptyString
  | S n' => String c (repeat_unit n' c)
  end.

(** [s.padStart(targetLength, c)] for a filler of one code unit. *)
Definition padStart (targetLength : nat) (c : ascii) (s : string) : string :=
  (repeat_unit (targetLength - String.length s) c +:+ s)%string.

(** [n.toString()] for an integer. *)
Definition toString (n : Z) : string :=
  DecimalString.NilZero.string_of_int (Z.to_int n).

(** [n.toString(16)] for an integer: lower-case digits, and a minus sign
    for a negative number. *)
Definition toString16 (n : Z) : string :=
  HexadecimalString.NilZero.string_of_int (Z.to_hex_int n).

(** The white space of [trim] among the 8-bit code units: tab, line feed,
    vertical tab, form feed, carriage return, space and no-break space. *)
Definition whitespace (c : ascii) : bool :=
  let n := nat_of_ascii c in
  ((9 <=? n) && (n <=? 13) || (n =? 32) || (n =? 160))%nat.

Fixpoint trimStart (s : string) : string :=
  match s with
  | EmptyString => EmptyString
  | String c s' => if whitespace c then trimStart s' else s
  end.

Fixpoint trimEnd (s : string) : string :=
  match s with
  | EmptyString => EmptyString
  | String c s' =>
      match trimEnd s' with
      | EmptyString => if whitespace c then EmptyString else String c EmptyString
      | t => String c t
      end
  end.

(** Whether every code unit of a string satisfies [p]. *)
Fixpoint every_unit (p : ascii → bool) (s : string) : bool :=
  match s with
  | EmptyString => true
  | String c s' => p c && every_unit p s'
  end.

(** [s.trim()] *)
Definition trim (s : string) : string := trimEnd (trimStart s).

(** The value of the hexadecimal digits 0-9 and A-F, with which a text
    of [toString(16).toUpperCase()] is read back. *)
Definition digit_value (c : ascii) : option Z :=
  let n := nat_of_ascii c in
  if ((48 <=? n) && (n <=? 57))%nat then Some (Z.of_nat n - 48)
  else if ((65 <=? n) && (n <=? 70))%nat then Some (Z.of_nat n - 55)
  else None.

Fixpoint read_hex_from (acc : Z) (s : string) : option Z :=
  match s with
  | EmptyString => Some acc
  | String c s' =>
      match digit_value c with
      | Some d => read_hex_from (16 * acc + d) s'
      | None => None
      end
  end.

Definition read_hex (s : string) : option Z := read_hex_from 0 s.

(** [a || c] for an optional string [a] and a string [c]: [a] unless it
    is [undefined] or empty. With [Js.or_else] it gives the chain
    [a || b || c], which falls through every operand that is falsy. *)
Definition or_default (a : option string) (c : string) : string :=
  match a with
  | Some s => if Js.truthy s then s else c
  | None => c
  end.

End JsText.

(** ** Numbers: the integers among the doubles *)

Module JsNumber.

(** The double nearest to an integer, for an integer that is not a double
    itself: beyond 2^53 a double has 53 significant bits, and the integer
    is rounded to the nearest of them, to the even one of two that are
    equally near. The difference of two doubles that hold integers is the
    [nearest_double] of the difference of the integers. *)
Definition nearest_double (z : Z) : Z :=
  let a := Z.abs z in
  if a <? 2 ^ 53 then z
  else
    let e := Z.log2 a - 52 in
    let q := a / 2 ^ e in
    let r := a mod 2 ^ e in
    let half := 2 ^ (e - 1) in
    let m := if r <? half then q
             else if half <? r then q + 1
             else if Z.even q then q else q + 1 in
    Z.sgn z * (m * 2 ^ e).

(** The time values of the dates that exist: [Date] clips every other
    value to NaN. *)
Definition time_value (t : Z) : Prop :=
  -8640000000000000 <= t <= 8640000000000000.

End JsNumber.

(** ** The timeline of the device detail page
       ([routes/devices/[serial]/+page.svelte], lines 33-39, 84-107 and
       189-215). The [getTime()] of a [Date] is [Some] count of
       milliseconds, a [time_value], or [None] for the NaN of an invalid
       date. *)

Module TimelinePage.
Import DevicePage.

(** [interface DeviceScan] *)
Record DeviceScan := {
  activity_id : Z;
  scan_timestamp : string;
  snapshot_count : Z;
  scan_file_count : Z;
  scan_folder_count : Z
}.

(** [interface DeviceScansResponse] *)
Record DeviceScansResponse := {
  scans_success : bool;
  scans_device_id : string;
  response_scans : list DeviceScan
}.

(** [calculateDuration(start, end)] on the [getTime()] of the two dates.
    With a NaN every number of the function is NaN, [NaN > 0] is false
    and the text is "NaNm". Otherwise [diffMs] is the double nearest to
    the difference; [%] is the remainder that has the sign of the
    dividend, which is exact on doubles; and [Math.floor(a / b)] is the
    exact quotient rounded down: for two time values [diffMs] is below
    2^54 and even when beyond 2^53, so that a quotient by 3600000 or by
    60000 that is not an integer is farther from the integers than the
    rounding of the division can move it. *)
Definition calculateDuration (start stop : option Z) : string :=
  match start, stop with
  | Some start, Some stop =>
      let diffMs := JsNumber.nearest_double (stop - start) in
      let diffHours := diffMs / 3600000 in
      let diffMins := Z.rem diffMs 3600000 / 60000 in
      if 0 <? diffHours
      then (JsText.toString diffHours +:+ "h " +:+ JsText.toString diffMins +:+ "m")%string
      else (JsText.toString diffMins +:+ "m")%string
  | _, _ => "NaNm"%string
  end.

Section Dates.
(** [new Date(timestamp).getTime()]; [None] is the NaN of a timestamp
    that [Date] cannot read. *)
Context (getTime : string → option Z).

(** The callback of [scans.map] in [timelineEvents]. *)
Definition toTimelineEvent (scans : list DeviceScan) (index : nat)
    (scan : DeviceScan) : TimelineEvent :=
  {| id := activity_id scan;
     timestamp := scan_timestamp scan;
     file_count := Some (scan_file_count scan);
     folder_count := Some (scan_folder_count scan);
     duration :=
       if Z.of_nat index <? Z.of_nat (length scans) - 1
       then (λ next, calculateDuration (getTime (scan_timestamp scan))
                                       (getTime (scan_timestamp next)))
              <$> scans !! S index
       else None |}.

(** [let timelineEvents = $derived(scans.map(...))] *)
Definition timelineEvents (scans : list DeviceScan) : list TimelineEvent :=
  imap (toTimelineEvent scans) scans.
End Dates.

(** The state of the page that [loadDeviceData] reads and writes. *)
Record State := {
  files : DevicePage.State;
  scans : list DeviceScan;
  isLoadingDevice : bool;
  totalSessions : Z;
  totalFilesScanned : Z;
  totalFoldersScanned : Z
}.

(** [scans.reduce((sum, scan) => sum + f(scan), 0)] *)
Definition total (f : DeviceScan → Z) (l : list DeviceScan) : Z :=
  fold_left (λ sum scan, sum + f scan) l 0.

Definition loadDeviceData_invocation (st : State) : Invocation :=
  {| command := "get_device_all_scans";
     arguments := [("deviceId"%string, JsString (serial (files st)))] |}.

Section Backend.
Context (collator : Js.Collator).
(** The backend's answers; [None] is a rejected promise. *)
Context (invokeScans : Invocation → option DeviceScansResponse).
Context (invoke : Invocation → option DeviceFilesResponse).

(** The state once the promise of [loadDeviceData] has settled. *)
Definition loadDeviceData (st : State) : State :=
  match invokeScans (loadDeviceData_invocation st) with
  | Some scansResult =>
      if scans_success scansResult then
        let scans := response_scans scansResult in
        let files :=
          match scans with
          | first :: _ =>
              loadFilesForActivity collator invoke
                {| serial := serial (files st);
                   selectedActivityId := activity_id first;
                   fileTree := fileTree (files st);
                   isLoadingFiles := isLoadingFiles (files st) |}
                (activity_id first)
          | [] => files st
          end in
        {| files := files; scans := scans; isLoadingDevice := false;
           totalSessions := Z.of_nat (length scans);
           totalFilesScanned := total scan_file_count scans;
           totalFoldersScanned := total scan_folder_count scans |}
      else
        {| files := files st; scans := scans st; isLoadingDevice := false;
           totalSessions := totalSessions st;
           totalFilesScanned := totalFilesScanned st;
           totalFoldersScanned := totalFoldersScanned st |}
  | None =>
      {| files := files st; scans := scans st; isLoadingDevice := false;
         totalSessions := totalSessions st;
         totalFilesScanned := totalFilesScanned st;
         totalFoldersScanned := totalFoldersScanned st |}
  end.
End Backend.

(** [isSelected] of the Timeline component
    ([lib/components/custom/Timeline.svelte]): [selectedId === event.id]. *)
Definition isSelected (selectedId : Z) (event : TimelineEvent) : bool :=
  selectedId =? id event.

End TimelinePage.

(** ** The search of the Device Vault page
       ([routes/devices/+page.svelte], lines 10-18 and 59-74) *)

Module VaultPage.

Record Device := {
  serial_number : string;
  vendor_id : Z;
  product_id : Z;
  name : option string;
  manufacturer : option string;
  total_capacity : option Z;
  updated_at : option string
}.

(** [field?.toLowerCase().includes(query)], falsy for an undefined field. *)
Definition field_includes (query : string) (field : option string) : bool :=
  match field with
  | Some text => JsText.includes query (Js.toLowerCase text)
  | None => false
  end.

(** The callback of [devices.filter] in [filterDevices]. *)
Definition matches (query : string) (d : Device) : bool :=
  field_includes query (name d)
  || field_includes query (manufacturer d)
  || JsText.includes query (Js.toLowerCase (serial_number d))
  || JsText.includes query (JsText.toString (vendor_id d))
  || JsText.includes query (JsText.toString (product_id d)).

(** [filterDevices()]: the value it gives to [filteredDevices]. *)
Definition filterDevices (searchQuery : string) (devices : list Device)
    : list Device :=
  if negb (Js.truthy (JsText.trim searchQuery)) then devices
  else List.filter (matches (Js.toLowerCase searchQuery)) devices.

End VaultPage.

(** ** The DeviceTable component
       ([lib/components/custom/DeviceTable.svelte], lines 6-60) and the rows
       that the Device Vault page hands to it
       ([routes/devices/+page.svelte], lines 179-185) *)

Module DeviceTable.

(** The object that the component receives for a row. Every property may
    be missing: the component is also given objects of another shape. *)
Record Row := {
  serial_number : string;
  vendor_id : option Z;
  product_id : option Z;
  name : option string;
  manufacturer : option string;
  total_capacity : option Z;
  last_seen : option string;
  capacity : option string
}.

Definition sizes : list string := ["Bytes"; "KB"; "MB"; "GB"; "TB"]%string.

Section FormatBytes.
(** As for [Vault.formatBytes], the floating-point computations of the
    last two lines are not evaluated. *)
Context (unitIndex : option Z → option nat).
Context (rounded : option Z → string).

Definition unitName (bytes : option Z) : string :=
  default "undefined"%string (unitIndex bytes ≫= (sizes !!.)).

Definition formatBytes (bytes : option Z) : string :=
  match bytes with
  | None => "Unknown"%string
  | Some b =>
      if b =? 0 then "0 Bytes"%string
      else (rounded bytes +:+ " " +:+ unitName bytes)%string
  end.
End FormatBytes.

Definition formatSerial (serial : string) : string :=
  if (String.length serial <=? 16)%nat then serial
  else (JsText.substring 0 8 serial +:+ "..."
        +:+ JsText.substring_from (Z.of_nat (String.length serial) - 4) serial)%string.

(** [n.toString(16).padStart(4, '0').toUpperCase()] *)
Definition hex4 (n : Z) : string :=
  JsText.toUpperCase (JsText.padStart 4 "0" (JsText.toString16 n)).

(** Whether [hex4] of [v] has four digits that read back as [v]. *)
Definition hex4_reads_back (v : Z) : bool :=
  (String.length (hex4 v) =? 4)%nat
  && match JsText.read_hex (hex4 v) with Some w => w =? v | None => false end.

(** [hex4_reads_back] of the [count] numbers from [v] on. *)
Fixpoint hex4_reads_back_from (count : nat) (v : Z) : bool :=
  match count with
  | O => true
  | S count' => hex4_reads_back v && hex4_reads_back_from count' (v + 1)
  end.

(** [device.name || device.manufacturer || `Device ${...}`] *)
Definition getDisplayName (device : Row) : string :=
  JsText.or_default
    (Js.or_else (name device) (manufacturer device))
    ("Device " +:+ JsText.substring 0 8 (serial_number device))%string.

(** [getManufacturer]; [None] is the TypeError of [toString] on a missing
    [vendor_id]. *)
Definition getManufacturer (device : Row) : option string :=
  match Js.or_else (manufacturer device) None with
  | Some m => Some m
  | None => (λ v, "VID: " +:+ hex4 v)%string <$> vendor_id device
  end.

Section VaultRows.
Context (unitIndex : option Z → option nat) (rounded : option Z → string).
(** [formatDate] of the page, which formats in the user's locale. *)
Context (formatDate : option string → string).

(** The object literal of [filteredDevices.map] in the page. *)
Definition vaultRow (d : VaultPage.Device) : Row :=
  {| serial_number := VaultPage.serial_number d;
     vendor_id := None;
     product_id := None;
     manufacturer :=
       Some (default "Unknown"%string
               (Js.or_else (VaultPage.manufacturer d) None));
     name :=
       Some (default "Unknown Device"%string
               (Js.or_else (VaultPage.name d) None));
     total_capacity := None;
     capacity :=
       Some (Vault.formatBytes unitIndex rounded (VaultPage.total_capacity d));
     last_seen := Some (formatDate (VaultPage.updated_at d)) |}.
End VaultRows.

End DeviceTable.

(** ** The navigation of the Sidebar component
       ([lib/components/custom/Sidebar.svelte], lines 20-35) *)

Module Sidebar.

Record NavItem := {
  label : string;
  href : string;
  exact : option bool
}.

Definition navItems : list NavItem :=
  [ {| label := "Dashboard"; href := "/"; exact := Some true |};
    {| label := "Device Vault"; href := "/devices"; exact := None |};
    {| label := "System"; href := "/system"; exact := None |} ].

Definition isActive (currentRoute : string) (href : string)
    (exact : option bool) : bool :=
  if default false exact then String.eqb currentRoute href
  else JsText.startsWith href currentRoute.

(** The items that the template marks as active. *)
Definition activeItems (currentRoute : string) : list NavItem :=
  List.filter (λ item, isActive currentRoute (href item) (exact item)) navItems.

End Sidebar.

(** ** Relative times: [formatTimestamp] of the ActivityFeed component
       (lines 1534-1547 of [routes/devices/[serial]/+page.svelte] as the
       tree holds it), [getRelativeTime] of the Timeline component
       ([lib/components/custom/FileTree.svelte] as the tree holds it, lines
       224-236) and [formatLastSeen] of the DeviceTable component (lines
       41-52). [date] and [now] are the [getTime()] of the two dates. *)

Module RelativeTime.

Section Locale.
(** [date.toLocaleDateString('en-US', ...)] *)
Context (localeDate : Z → string).

Definition formatTimestamp (date now : Z) : string :=
  let diffMs := now - date in
  let diffSecs := diffMs / 1000 in
  let diffMins := diffMs / 60000 in
  let diffHours := diffMs / 3600000 in
  if diffSecs <? 10 then "Just now"%string
  else if diffSecs <? 60 then (JsText.toString diffSecs +:+ "s ago")%string
  else if diffMins <? 60 then (JsText.toString diffMins +:+ "m ago")%string
  else if diffHours <? 24 then (JsText.toString diffHours +:+ "h ago")%string
  else localeDate date.

Definition getRelativeTime (date now : Z) : string :=
  let diffMs := now - date in
  let diffMins := diffMs / 60000 in
  let diffHours := diffMs / 3600000 in
  let diffDays := diffMs / 86400000 in
  if diffMins <? 1 then "Just now"%string
  else if diffMins <? 60 then (JsText.toString diffMins +:+ "m ago")%string
  else if diffHours <? 24 then (JsText.toString diffHours +:+ "h ago")%string
  else if diffDays <? 7 then (JsText.toString diffDays +:+ "d ago")%string
  else localeDate date.

(** [formatLastSeen(dateStr)], where [getTime] reads the date. *)
Definition formatLastSeen (getTime : string → Z) (dateStr : option string)
    (now : Z) : string :=
  match Js.or_else dateStr None with
  | None => "Never"%string
  | Some text =>
      let diffDays := (now - getTime text) / 86400000 in
      if diffDays =? 0 then "Today"%string
      else if diffDays =? 1 then "Yesterday"%string
      else if diffDays <? 7 then (JsText.toString diffDays +:+ " days ago")%string
      else localeDate (getTime text)
  end.
End Locale.

End RelativeTime.

(** ** The dashboard page: [loadData] and the listener of
       [file-copy-detected] (lines 453-544 of
       [routes/devices/[serial]/+page.svelte] as the tree holds it) *)

Module DashboardPage.
Import Dashboard.

(** [interface UsbDevice] *)
Record UsbDevice := {
  usb_id : string;
  usb_vendor_id : Z;
  usb_product_id : Z;
  product_name : option string;
  manufacturer_name : option string;
  usb_serial_number : option string
}.

Record State (Copy : Type) := {
  devices : list Device;
  activities : list ActivityLog;
  connectedDevices : list UsbDevice;
  realTimeCopies : list Copy;
  lastEvent : option string;
  isLoading : bool;
  isFetching : bool
}.
Arguments devices {Copy}.
Arguments activities {Copy}.
Arguments connectedDevices {Copy}.
Arguments realTimeCopies {Copy}.
Arguments lastEvent {Copy}.
Arguments isLoading {Copy}.
Arguments isFetching {Copy}.

(** The answer of [get_registered_devices] and of [get_device_history]. *)
Record Listing (A : Type) := {
  success : bool;
  rows : list A
}.
Arguments success {A}.
Arguments rows {A}.

(** A rejected promise is replaced by the value of its [catch]. *)
Definition or_failed {A} (result : option (Listing A)) : Listing A :=
  default {| success := false; rows := [] |} result.

(** The state once a call of [loadData] has run to its end, from the
    three answers ([None]: the promise was rejected). A call made while
    another one is fetching returns at once. *)
Definition loadData {Copy} (devicesResult : option (Listing Device))
    (historyResult : option (Listing ActivityLog))
    (connectedResult : option (list UsbDevice)) (st : State Copy)
    : State Copy :=
  if isFetching st then st else
  let devicesResult := or_failed devicesResult in
  let historyResult := or_failed historyResult in
  let connectedResult := default [] connectedResult in
  let devices :=
    if success devicesResult then rows devicesResult else devices st in
  let activities :=
    if success historyResult then rows historyResult else activities st in
  let lastEvent :=
    match activities with
    | lastActivity :: _ =>
        Some (deviceLabel
                (Js.find (λ d, String.eqb (serial_number d)
                                          (device_id lastActivity)) devices))
    | [] => lastEvent st
    end in
  {| devices := devices; activities := activities;
     connectedDevices := connectedResult;
     realTimeCopies := realTimeCopies st;
     lastEvent := lastEvent; isLoading := false; isFetching := false |}.

(** The listener of [file-copy-detected], before it calls [loadData]:
    [realTimeCopies = [event.payload, ...realTimeCopies].slice(0, 10)]. *)
Definition onCopyDetected {Copy} (copies : list Copy) (payload : Copy)
    : list Copy :=
  Js.slice 0 10 (payload :: copies).

End DashboardPage.

(** ** The first pages of the application (lines 676-683 and 760-763 of
       [routes/devices/[serial]/+page.svelte] as the tree holds it, and
       again lines 1207-1210) *)

Module LegacyPage.

(** [interface UsbDevice] of these pages, whose [id] is a number. *)
Record UsbDevice := {
  id : Z;
  vendor_id : Z;
  product_id : Z;
  product_name : option string;
  manufacturer_name : option string
}.

(** [formatDevice(device)] *)
Definition formatDevice (device : UsbDevice) : string :=
  let name :=
    JsText.or_default
      (Js.or_else (product_name device) (manufacturer_name device))
      ("Device " +:+ JsText.toString (id device))%string in
  (name +:+ " (VID: " +:+ DeviceTable.hex4 (vendor_id device)
   +:+ ", PID: " +:+ DeviceTable.hex4 (product_id device) +:+ ")")%string.

End LegacyPage.

(** ** The paths of the file tree *)

Module TreePaths.
Import FileTree.

(** The value of [currentPath] in [buildFileTree] after the walk over
    [parts]: each step appends a slash and the part. *)
Fixpoint joined (currentPath : string) (parts : list string) : string :=
  match parts with
  | [] => currentPath
  | part :: rest => joined (currentPath +:+ "/" +:+ part) rest
  end.

(** A name that can be a part of a path: it is not empty and holds no
    slash. *)
Definition part_ok (p : string) : Prop :=
  p ≠ EmptyString ∧ Js.includes "/" p = false.

(** [reaches ps s]: the path of the row [s] goes through [ps]. *)
Definition reaches (ps : list string) (s : Snapshot) : Prop :=
  ps `prefix_of` pathParts s.

(** The row of an empty file at the top of the volume. *)
Definition file_row (path : string) : Snapshot :=
  {| snapshot_path := path; snapshot_is_folder := false; snapshot_size := 0 |}.

End TreePaths.

(** ** The rows that the file explorer renders
       ([lib/components/custom/FileTree.svelte], lines 39-53 and 147-166) *)

Module Explorer.
Import FileTree.

(** The rows of one FileTree component and of the components below it,
    when every component is in its first state
    ([isExpanded = node.expanded ?? false]): the node, and the rows of its
    children when it is an expanded folder with children. *)
Fixpoint rendered (node : FileNode) : list FileNode :=
  match node with
  | mkFileNode _ _ f _ _ cs x =>
      node :: (if f && x && (0 <? length cs)%nat
               then flat_map rendered cs else [])
  end.

(** The rows of the explorer for a tree: the page renders a component for
    each child of the root. *)
Definition explorerRows (tree : FileNode) : list FileNode :=
  flat_map rendered (children tree).

(** [toggleExpand] *)
Definition toggleExpand (node : FileNode) (isExpanded : bool) : bool :=
  if is_folder node then negb isExpanded else isExpanded.

End Explorer.

(** ** More sample data *)

Module Samples.

(** Three scans of one device, newest first, and the reading of their
    timestamps. *)
Definition scans : list TimelinePage.DeviceScan :=
  [ {| TimelinePage.activity_id := 7;
       TimelinePage.scan_timestamp := "2024-05-03T09:00:00Z";
       TimelinePage.snapshot_count := 12;
       TimelinePage.scan_file_count := 10;
       TimelinePage.scan_folder_count := 2 |};
    {| TimelinePage.activity_id := 5;
       TimelinePage.scan_timestamp := "2024-05-03T06:30:00Z";
       TimelinePage.snapshot_count := 12;
       TimelinePage.scan_file_count := 10;
       TimelinePage.scan_folder_count := 2 |};
    {| TimelinePage.activity_id := 2;
       TimelinePage.scan_timestamp := "2024-05-01T08:15:00Z";
       TimelinePage.snapshot_count := 3;
       TimelinePage.scan_file_count := 3;
       TimelinePage.scan_folder_count := 0 |} ].

Definition getTime (timestamp : string) : option Z :=
  if String.eqb timestamp "2024-05-03T09:00:00Z" then Some 1714726800000
  else if String.eqb timestamp "2024-05-03T06:30:00Z" then Some 1714717800000
  else if String.eqb timestamp "2024-05-01T08:15:00Z" then Some 1714551300000
  else None.

(** A registry for the search of the Device Vault page. *)
Definition kingston : VaultPage.Device :=
  {| VaultPage.serial_number := "SN-AbC123"; VaultPage.vendor_id := 2385;
     VaultPage.product_id := 5734; VaultPage.name := Some "DataTraveler"%string;
     VaultPage.manufacturer := Some "Kingston"%string;
     VaultPage.total_capacity := Some 16000000000;
     VaultPage.updated_at := Some "2024-05-03T09:00:00Z"%string |}.

Definition nameless : VaultPage.Device :=
  {| VaultPage.serial_number := "DISK_E_16GB"; VaultPage.vendor_id := 0;
     VaultPage.product_id := 0; VaultPage.name := None;
     VaultPage.manufacturer := None;
     VaultPage.total_capacity := Some 16000000000;
     VaultPage.updated_at := None |}.

Definition registry : list VaultPage.Device := [kingston; nameless].

End Samples.
(** * Properties *)

Module JsFacts.
Import Js.

Lemma relative_index_nonneg (len i : Z) :
  0 <= len → 0 <= i → relative_index len i = Z.min i len.
Proof. intros _ Hi. unfold relative_index. destruct (Z.ltb_spec i 0); [lia | done]. Qed.

Lemma slice_prefix {A} (n : Z) (l : list A) :
  0 <= n → slice 0 n l = take (Z.to_nat n) l.
Proof.
  intros Hn. unfold slice.
  rewrite !relative_index_nonneg by lia.
  rewrite (Z.min_l 0) by lia. rewrite Z.sub_0_r.
  change (Z.to_nat 0) with 0%nat. rewrite drop_0.
  destruct (Z.le_ge_cases n (Z.of_nat (length l))) as [Hle|Hge].
  - by rewrite Z.min_l by lia.
  - rewrite Z.min_r by lia. rewrite Nat2Z.id.
    rewrite !take_ge; [done|lia..].
Qed.

Lemma sort_insert_perm {A} (cmp : A → A → Z) x l :
  sort_insert cmp x l ≡ₚ x :: l.
Proof.
  induction l as [|y l IH]; simpl; [done|].
  destruct (cmp x y <=? 0); [done|].
  rewrite IH. apply Permutation_swap.
Qed.

Lemma sort_perm {A} (cmp : A → A → Z) l : sort cmp l ≡ₚ l.
Proof.
  induction l as [|x l IH]; simpl; [done|].
  by rewrite sort_insert_perm, IH.
Qed.

Lemma includes_app c a b : includes c (a +:+ String c b) = true.
Proof.
  induction a as [|x a IH]; simpl.
  - by rewrite Ascii.eqb_refl.
  - rewrite IH. apply orb_true_r.
Qed.

(** *** [sort] with a consistent comparator *)

Section Sort.
Context {A} (cmp : A → A → Z).
Context (cmp_flip : ∀ x y, 0 < cmp x y → cmp y x <= 0).
Context (cmp_trans : ∀ x y z, cmp x y <= 0 → cmp y z <= 0 → cmp x z <= 0).

Lemma sort_insert_sorted x l :
  StronglySorted (λ a b, cmp a b <= 0) l →
  StronglySorted (λ a b, cmp a b <= 0) (sort_insert cmp x l).
Proof.
  induction 1 as [|y l Hl IH Hy]; simpl.
  - repeat constructor.
  - destruct (Z.leb_spec (cmp x y) 0) as [Hxy|Hxy].
    + constructor; [by constructor|].
      constructor; [done|].
      eapply Forall_impl; [exact Hy|]. intros z Hz. by eapply cmp_trans.
    + constructor; [done|].
      rewrite sort_insert_perm. constructor; [by apply cmp_flip|done].
Qed.

Lemma sort_sorted l : StronglySorted (λ a b, cmp a b <= 0) (sort cmp l).
Proof.
  induction l as [|x l IH]; simpl; [constructor|].
  by apply sort_insert_sorted.
Qed.
End Sort.

(** A sorted array is left as it is. *)
Lemma sort_insert_fixed {A} (cmp : A → A → Z) x l :
  Forall (λ y, cmp x y <= 0) l → sort_insert cmp x l = x :: l.
Proof.
  destruct 1 as [|y l Hy _]; simpl; [done|].
  by destruct (Z.leb_spec (cmp x y) 0); [|lia].
Qed.

Lemma sort_fixed {A} (cmp : A → A → Z) l :
  StronglySorted (λ a b, cmp a b <= 0) l → sort cmp l = l.
Proof.
  induction 1 as [|x l Hl IH Hx]; simpl; [done|].
  rewrite IH. by apply sort_insert_fixed.
Qed.

(** Sorting commutes with a map that the comparator does not see. *)
Lemma sort_insert_fmap {A} (cmp : A → A → Z) (f : A → A) x l :
  (∀ a b, cmp (f a) (f b) = cmp a b) →
  sort_insert cmp (f x) (f <$> l) = f <$> sort_insert cmp x l.
Proof.
  intros Hf. induction l as [|y l IH]; csimpl; [done|].
  rewrite Hf. destruct (cmp x y <=? 0); csimpl; [done|]. by rewrite IH.
Qed.

Lemma sort_fmap {A} (cmp : A → A → Z) (f : A → A) l :
  (∀ a b, cmp (f a) (f b) = cmp a b) →
  sort cmp (f <$> l) = f <$> sort cmp l.
Proof.
  intros Hf. induction l as [|x l IH]; csimpl; [done|].
  by rewrite IH, sort_insert_fmap.
Qed.

(** *** [split] *)

Lemma split_without sep s : includes sep s = false → split sep s = [s].
Proof.
  induction s as [|c s IH]; simpl; [done|].
  destruct (Ascii.eqb c sep); simpl; [done|].
  intros Hs. by rewrite IH.
Qed.

Lemma split_length sep s : (1 ≤ length (split sep s))%nat.
Proof.
  induction s as [|c s IH]; simpl; [lia|].
  destruct (Ascii.eqb c sep); simpl; [lia|].
  destruct (split sep s); simpl in *; lia.
Qed.

(** With a separator in the string there are at least two pieces, and the
    last piece is what follows the last separator. *)
Lemma split_last sep s :
  includes sep s = true →
  (1 < length (split sep s))%nat
  ∧ ∃ stem suffix,
      s = (stem +:+ String sep suffix)%string
      ∧ includes sep suffix = false
      ∧ List.last (split sep s) EmptyString = suffix.
Proof.
  induction s as [|c s IH]; simpl; [done|].
  destruct (Ascii.eqb_spec c sep) as [->|Hc]; simpl.
  - intros _. pose proof (split_length sep s) as Hlen.
    split; [lia|].
    destruct (includes sep s) eqn:Hs.
    + destruct IH as (_ & stem & suffix & -> & Hsuffix & Hlast); [done|].
      exists (String sep stem), suffix. split_and!; [done..|].
      destruct (split sep (stem +:+ String sep suffix)); [simpl in Hlen; lia|done].
    + exists EmptyString, s. split_and!; [done..|].
      by rewrite split_without.
  - intros Hs. destruct IH as (Hlen & stem & suffix & -> & Hsuffix & Hlast); [done|].
    destruct (split sep (stem +:+ String sep suffix)) as [|p [|q ps]];
      [simpl in Hlen; lia..|].
    split; [simpl; lia|].
    exists (String c stem), suffix. by split_and!.
Qed.
(** *** [toLowerCase] *)

Lemma is_upper_bound c : is_upper c = true → (nat_of_ascii c + 32 < 256)%nat.
Proof.
  unfold is_upper. intros H.
  apply orb_true_iff in H as [H|H].
  - apply andb_true_iff in H as [_ H%Nat.leb_le]. lia.
  - apply andb_true_iff in H as [H _].
    apply andb_true_iff in H as [_ H%Nat.leb_le]. lia.
Qed.

Lemma lower_unit_letter c :
  is_upper c = true →
  nat_of_ascii (lower_unit c) = (nat_of_ascii c + 32)%nat
  ∧ is_upper (lower_unit c) = false.
Proof.
  intros Hc. pose proof (is_upper_bound c Hc) as Hbound.
  unfold lower_unit. rewrite Hc.
  assert (nat_of_ascii (ascii_of_nat (nat_of_ascii c + 32))
          = (nat_of_ascii c + 32)%nat) as Hnat
    by (by apply nat_ascii_embedding).
  split; [done|].
  unfold is_upper in *. rewrite Hnat.
  apply orb_true_iff in Hc as [Hc|Hc].
  - apply andb_true_iff in Hc as [H1%Nat.leb_le H2%Nat.leb_le].
    apply orb_false_iff. split; apply andb_false_iff.
    + right. apply Nat.leb_gt. lia.
    + left. apply andb_false_iff. left. apply Nat.leb_gt. lia.
  - apply andb_true_iff in Hc as [Hc _].
    apply andb_true_iff in Hc as [H1%Nat.leb_le H2%Nat.leb_le].
    apply orb_false_iff. split; apply andb_false_iff.
    + right. apply Nat.leb_gt. lia.
    + left. apply andb_false_iff. right. apply Nat.leb_gt. lia.
Qed.

Lemma toLowerCase_lower_case_of s : lower_case_of s (toLowerCase s).
Proof.
  induction s as [|c s IH]; simpl; [constructor|].
  destruct (is_upper c) eqn:Hc.
  - apply lower_case_letter; [done|by apply lower_unit_letter|done].
  - unfold lower_unit. rewrite Hc. by apply lower_case_other.
Qed.

Lemma toLowerCase_no_upper s : no_upper (toLowerCase s) = true.
Proof.
  induction s as [|c s IH]; simpl; [done|]. rewrite IH, andb_true_r.
  destruct (is_upper c) eqn:Hc.
  - by rewrite (proj2 (lower_unit_letter c Hc)).
  - unfold lower_unit. by rewrite Hc, Hc.
Qed.

(** The lower-case form of a string is determined, and it is the string
    itself when the string has no upper-case letter. *)
Lemma lower_case_of_toLowerCase s e : lower_case_of s e → e = toLowerCase s.
Proof.
  induction 1 as [|c s e Hc _ IH|c d s e Hc Hd _ IH]; simpl; [done| |].
  - unfold lower_unit. by rewrite Hc, IH.
  - rewrite IH. f_equal.
    rewrite <- (ascii_nat_embedding d), Hd. unfold lower_unit. by rewrite Hc.
Qed.

End JsFacts.

(** ** Vault: [formatBytes] *)

Module VaultFacts.
Import Vault.

Lemma scaled_not_unknown (a b : string) : (a +:+ " " +:+ b)%string ≠ "Unknown"%string.
Proof.
  intros H.
  assert (Js.includes " " (a +:+ " " +:+ b)%string = true) as Hocc
    by apply JsFacts.includes_app.
  rewrite H in Hocc. discriminate.
Qed.

(** C9. [formatBytes] answers "Unknown" exactly for an undefined capacity
    and for a capacity of 0; the [return "0 B"] statement is never the one
    that produces the result, and a known capacity of 0 bytes is shown as
    "Unknown", not as "0 B". *)
Theorem formatBytes_unknown_iff (unitIndex : option Z → option nat)
    (rounded : option Z → string) (bytes : option Z) :
  (formatBytes unitIndex rounded bytes = "Unknown"%string
     ↔ bytes = None ∨ bytes = Some 0)
  ∧ (formatBytes_traced unitIndex rounded bytes).1 ≠ ReturnZero
  ∧ formatBytes unitIndex rounded (Some 0) = "Unknown"%string
  ∧ formatBytes unitIndex rounded (Some 0) ≠ "0 B"%string.
Proof.
  unfold formatBytes, formatBytes_traced.
  split_and!; [| |done|done].
  - destruct bytes as [b|]; simpl; [|by split; [left|]].
    destruct (Z.eqb_spec b 0) as [->|Hb]; simpl; [by split; [right|]|].
    split.
    + intros Heq. by apply scaled_not_unknown in Heq.
    + intros [?|[=]]; done.
  - destruct bytes as [b|]; simpl; [|done].
    by destruct (Z.eqb_spec b 0).
Qed.
End VaultFacts.

(** ** The event log *)

Module EventLogFacts.
Import EventLog.

Lemma addEvent_take eventLog timestamp message :
  addEvent eventLog timestamp message = take 20 (entry timestamp message :: eventLog).
Proof.
  unfold addEvent.
  destruct (Nat.ltb_spec 20 (length (entry timestamp message :: eventLog))).
  - by rewrite JsFacts.slice_prefix.
  - by rewrite take_ge.
Qed.

Lemma addEvent_length eventLog timestamp message :
  (length (addEvent eventLog timestamp message) ≤ 20)%nat.
Proof. rewrite addEvent_take, length_take. lia. Qed.

Lemma replay_snoc calls call :
  replay (calls ++ [call]) = addEvent (replay calls) call.1 call.2.
Proof. unfold replay. by rewrite fold_left_app. Qed.

(** C10. A call of [addEvent] on a log of at most 20 entries puts one
    timestamped entry in front of the log and cuts the result to 20
    entries: the new entry is first, the old entries follow in their
    order, and the length stays at most 20. From the empty log no sequence
    of calls makes the log longer than 20. *)
Theorem addEvent_bounded (eventLog : list string) (timestamp message : string)
    (Hlen : (length eventLog ≤ 20)%nat) :
  addEvent eventLog timestamp message
    = entry timestamp message :: take 19 eventLog
  ∧ (length (addEvent eventLog timestamp message)
       = Nat.min 20 (S (length eventLog)))%nat
  ∧ (length (addEvent eventLog timestamp message) ≤ 20)%nat
  ∧ ∀ calls, (length (replay calls) ≤ 20)%nat.
Proof.
  split_and!.
  - by rewrite addEvent_take.
  - rewrite addEvent_take, length_take. simpl. lia.
  - apply addEvent_length.
  - intros calls. induction calls as [|call calls _] using rev_ind; [simpl; lia|].
    rewrite replay_snoc. apply addEvent_length.
Qed.

Lemma addEvent_bounded_witness :
  (length ["[10:00:00] b"; "[09:00:00] a"]%string ≤ 20)%nat
  ∧ addEvent ["[10:00:00] b"; "[09:00:00] a"]%string "10:05:00" "c"
      = ["[10:05:00] c"; "[10:00:00] b"; "[09:00:00] a"]%string.
Proof.
  assert (length ["[10:00:00] b"; "[09:00:00] a"]%string ≤ 20)%nat as Hlen
    by (simpl; lia).
  split; [exact Hlen|].
  exact (proj1 (addEvent_bounded _ "10:05:00" "c" Hlen)).
Defined.
End EventLogFacts.

(** ** The dashboard feed *)

Module FeedFacts.
Import Dashboard.

Lemma deviceLabel_cases (device : option Device) :
  deviceLabel device =
    match device with
    | None => "Unknown Device"%string
    | Some d =>
        match name d with
        | Some n => if Js.truthy n then n else
            match manufacturer d with
            | Some m => if Js.truthy m then m else "Unknown Device"%string
            | None => "Unknown Device"%string
            end
        | None =>
            match manufacturer d with
            | Some m => if Js.truthy m then m else "Unknown Device"%string
            | None => "Unknown Device"%string
            end
        end
    end.
Proof.
  unfold deviceLabel, Js.or_else. destruct device as [d|]; simpl; [|done].
  destruct (name d) as [n|]; simpl.
  - destruct (Js.truthy n) eqn:Hn; simpl; rewrite ?Hn; [done|].
    destruct (manufacturer d) as [m|]; simpl; [|done].
    by destruct (Js.truthy m).
  - destruct (manufacturer d) as [m|]; simpl; [|done].
    by destruct (Js.truthy m).
Qed.

Lemma truthy_nonempty (s : string) : Js.truthy s = true ↔ s ≠ ""%string.
Proof. by destruct s. Qed.

Definition unnamed (o : option string) : Prop := o = None ∨ o = Some ""%string.

Lemma unnamed_or_else (a b : option string) :
  unnamed a → Js.or_else a b = b.
Proof. by intros [->| ->]. Qed.

(** C7. The feed of the dashboard consists of the first min(10, length)
    rows of the history, in the order of the history, so that a history
    that is newest first gives a feed that is newest first. An event is
    labelled with the name of the device whose serial number is the row's
    device id, else (name undefined or empty) with its manufacturer, else
    (no such device, or neither text) with "Unknown Device". The
    ActivityFeed component displays a prefix of its events of at most
    [maxItems] of them. *)
Theorem feedEvents_first_ten (newer : relation string)
    (devices : list Device) (activities : list ActivityLog) (maxItems : Z)
    (Hnewest : StronglySorted (λ a b, newer (timestamp a) (timestamp b)) activities)
    (HmaxItems : 0 <= maxItems) :
  feedEvents devices activities = toFeedEvent devices <$> take 10 activities
  ∧ length (feedEvents devices activities) = Nat.min 10 (length activities)
  ∧ StronglySorted (λ e1 e2, newer (feed_timestamp e1) (feed_timestamp e2))
      (feedEvents devices activities)
  ∧ (∀ a, let device :=
            Js.find (λ d, String.eqb (serial_number d) (device_id a)) devices in
          let label := deviceName (toFeedEvent devices a) in
          feed_id (toFeedEvent devices a) = id a
          ∧ feed_timestamp (toFeedEvent devices a) = timestamp a
          ∧ eventType (toFeedEvent devices a) = feedType (event_type a)
          ∧ (∀ d n, device = Some d → name d = Some n → n ≠ ""%string →
               label = n)
          ∧ (∀ d m, device = Some d → unnamed (name d) →
               manufacturer d = Some m → m ≠ ""%string → label = m)
          ∧ (∀ d, device = Some d → unnamed (name d) →
               unnamed (manufacturer d) → label = "Unknown Device"%string)
          ∧ (device = None → label = "Unknown Device"%string))
  ∧ ActivityFeed.displayedEvents (feedEvents devices activities) maxItems
      = take (Z.to_nat maxItems) (feedEvents devices activities)
  ∧ (Z.of_nat (length (ActivityFeed.displayedEvents
                         (feedEvents devices activities) maxItems))
       <= maxItems).
Proof.
  assert (feedEvents devices activities = toFeedEvent devices <$> take 10 activities)
    as Hfeed by (unfold feedEvents; by rewrite JsFacts.slice_prefix).
  split_and!.
  - done.
  - rewrite Hfeed, length_fmap, length_take. done.
  - rewrite Hfeed.
    rewrite <-(take_drop 10 activities) in Hnewest.
    apply StronglySorted_app_1_l in Hnewest.
    by eapply StronglySorted_fmap; [|exact Hnewest].
  - intros a device label. subst label. unfold toFeedEvent. simpl.
    fold device. rewrite deviceLabel_cases.
    split_and!; try done.
    + intros d n -> -> Hn. apply truthy_nonempty in Hn. by rewrite Hn.
    + intros d m -> Hname -> Hm. apply truthy_nonempty in Hm.
      destruct Hname as [->| ->]; simpl; by rewrite Hm.
    + intros d -> [->| ->] [->| ->]; done.
    + by intros ->.
  - unfold ActivityFeed.displayedEvents. by rewrite JsFacts.slice_prefix.
  - unfold ActivityFeed.displayedEvents. rewrite JsFacts.slice_prefix by done.
    rewrite length_take. lia.
Qed.

(** The dashboard hands its feed to the component with [maxItems] 15: all
    of the feed is displayed, as it is with the default of 50. *)
Lemma dashboard_feed_displayed (devices : list Device)
    (activities : list ActivityLog) (maxItems : Z) :
  10 <= maxItems →
  ActivityFeed.displayedEvents (feedEvents devices activities) maxItems
    = feedEvents devices activities.
Proof.
  intros HmaxItems. unfold ActivityFeed.displayedEvents.
  rewrite JsFacts.slice_prefix by lia. apply take_ge.
  unfold feedEvents. rewrite JsFacts.slice_prefix by lia.
  rewrite length_fmap, length_take. lia.
Qed.

Lemma feedEvents_first_ten_witness :
  StronglySorted
    (λ a b, Scenarios.newer (timestamp a) (timestamp b)) Scenarios.sample_history
  ∧ 0 <= 15
  ∧ (deviceName <$> feedEvents Scenarios.sample_devices Scenarios.sample_history)
      = ["Unknown Device"; "Generic"; "DataTraveler"]%string
  ∧ (Z.of_nat (length (ActivityFeed.displayedEvents
                         (feedEvents Scenarios.sample_devices
                                     Scenarios.sample_history) 15)) <= 15).
Proof.
  assert (StronglySorted
            (λ a b, Scenarios.newer (timestamp a) (timestamp b))
            Scenarios.sample_history) as Hnewest.
  { repeat constructor; unfold Scenarios.newer; by vm_compute. }
  assert (0 <= 15) as HmaxItems by lia.
  split_and!; [exact Hnewest|exact HmaxItems|reflexivity|].
  pose proof (feedEvents_first_ten Scenarios.newer Scenarios.sample_devices
                Scenarios.sample_history 15 Hnewest HmaxItems) as Hfeed.
  exact (proj2 (proj2 (proj2 (proj2 (proj2 Hfeed))))).
Defined.

(** A negative [maxItems] counts from the end of the array: the bound on
    the number of displayed events is one for a count of items. *)
Example displayedEvents_negative :
  ActivityFeed.displayedEvents [1; 2; 3] (-1) = [1; 2].
Proof. reflexivity. Qed.
End FeedFacts.


Module ScenarioFacts.
Import FileTree DevicePage.

(** C2. On the two rows of Scenario C, [buildFileTree] returns the root
    with the single child [docs], a folder of size 0, whose single child is
    the file [a.txt] of size 1024 with extension [txt]. *)
Theorem buildFileTree_scenarioC (collator : Js.Collator) :
  buildFileTree collator Scenarios.scenarioC =
    {| name := "Root"; path := "/"; is_folder := true; size := 0;
       extension := None; expanded := true;
       children :=
         [ {| name := "docs"; path := "/docs"; is_folder := true; size := 0;
              extension := None; expanded := false;
              children :=
                [ {| name := "a.txt"; path := "/docs/a.txt";
                     is_folder := false; size := 1024;
                     extension := Some "txt"%string; expanded := false;
                     children := [] |} ] |} ] |}.
Proof. reflexivity. Qed.

(** C4 (as the code behaves). The request that [loadFilesForActivity]
    sends names the device and nothing else: it is the same for every
    activity id, and so is the tree that [handleTimelineSelect] leaves in
    the page, whichever session of the timeline is selected. *)
Theorem loadFilesForActivity_ignores_activityId (collator : Js.Collator)
    (invoke : Invocation → option DeviceFilesResponse)
    (st : State) (e1 e2 : TimelineEvent) :
  loadFilesForActivity_invocation st (id e1)
    = {| command := "get_device_files";
         arguments := [("deviceId"%string, JsString (serial st))] |}
  ∧ loadFilesForActivity_invocation st (id e1)
      = loadFilesForActivity_invocation st (id e2)
  ∧ fileTree (handleTimelineSelect collator invoke st e1)
      = fileTree (handleTimelineSelect collator invoke st e2).
Proof. done. Qed.
End ScenarioFacts.

(** ** The file tree *)

Module FileTreeFacts.
Import Js FileTree JsFacts.

(** *** Induction over a tree and its lists of children *)

Lemma FileNode_ind (P : FileNode → Prop) :
  (∀ n p f s e cs x, Forall P cs → P (mkFileNode n p f s e cs x)) →
  ∀ node, P node.
Proof.
  intros Hnode. fix IH 1. intros [n p f s e cs x]. apply Hnode.
  induction cs as [|c cs IHcs]; constructor; [apply IH|exact IHcs].
Qed.

Lemma label_with_children node cs : label (with_children node cs) = label node.
Proof. done. Qed.

Lemma with_children_id node : with_children node (children node) = node.
Proof. by destruct node. Qed.

Lemma label_name n m : label n = label m → name n = name m.
Proof. intros H. by apply (f_equal name) in H. Qed.

Lemma node_eq n m : label n = label m → children n = children m → n = m.
Proof.
  destruct n, m. unfold label, with_children. simpl. intros [=] ->. by subst.
Qed.

Lemma nodes_unfold t : nodes t = t :: flat_map nodes (children t).
Proof. by destruct t. Qed.

Lemma every_unfold P t : every P t ↔ P t ∧ Forall (every P) (children t).
Proof.
  unfold every. rewrite nodes_unfold, Forall_cons.
  apply and_iff_compat_l.
  induction (children t) as [|c cs IH]; simpl.
  - split; constructor.
  - rewrite Forall_app, Forall_cons, IH. done.
Qed.

Lemma every_child P t c : every P t → c ∈ children t → every P c.
Proof.
  rewrite every_unfold. intros [_ H] Hc.
  by apply (proj1 (Forall_forall _ _) H).
Qed.

Lemma every_node P t : every P t → P t.
Proof. rewrite every_unfold. tauto. Qed.

Lemma every_impl (P Q : FileNode → Prop) t :
  (∀ n, P n → Q n) → every P t → every Q t.
Proof. intros H HP. by eapply Forall_impl. Qed.

Lemma height_unfold t :
  height t = S (foldr (λ c h, Nat.max (height c) h) 0%nat (children t)).
Proof. by destruct t. Qed.

Lemma height_le_max c cs :
  c ∈ cs → (height c ≤ foldr (λ c h, Nat.max (height c) h) 0%nat cs)%nat.
Proof.
  induction cs as [|c' cs IH]; simpl.
  - by intros ?%elem_of_nil.
  - intros [->|Hc]%elem_of_cons; [lia|]. specialize (IH Hc). lia.
Qed.

Lemma height_child t c : c ∈ children t → (height c < height t)%nat.
Proof.
  intros Hc%height_le_max. rewrite (height_unfold t). lia.
Qed.

(** *** [sortFileNodes] *)

Section Sorting.
Context (collator : Collator).
Local Notation "'cmp'" := (compareNodes collator).
Local Notation "'sortFileNodes'" := (FileTree.sortFileNodes collator).
Local Notation "'sortFileNodes_upto'" := (FileTree.sortFileNodes_upto collator).

Lemma sortFileNodes_upto_enough fuel1 fuel2 t :
  (height t ≤ fuel1)%nat → (height t ≤ fuel2)%nat →
  sortFileNodes_upto fuel1 t = sortFileNodes_upto fuel2 t.
Proof.
  revert fuel2 t. induction fuel1 as [|fuel1 IH]; intros fuel2 t H1 H2.
  { rewrite height_unfold in H1. lia. }
  destruct fuel2 as [|fuel2]; [rewrite height_unfold in H2; lia|].
  simpl. f_equal. apply map_ext_in. intros c Hc%list_elem_of_In.
  rewrite sort_perm in Hc. apply height_child in Hc.
  destruct (0 <? length (children c))%nat; [|done].
  apply IH; lia.
Qed.

Lemma sortFileNodes_leaf t : children t = [] → sortFileNodes t = t.
Proof.
  intros Hleaf. unfold sortFileNodes. rewrite height_unfold, Hleaf. simpl.
  rewrite Hleaf. simpl. rewrite <-Hleaf. apply with_children_id.
Qed.

(** The equation of [sortFileNodes]: the children are sorted and every
    one of them is sorted in turn. *)
Lemma sortFileNodes_unfold t :
  sortFileNodes t
    = with_children t (sortFileNodes <$> sort cmp (children t)).
Proof.
  unfold sortFileNodes at 1. rewrite height_unfold. simpl.
  f_equal. apply map_ext_in. intros c Hc%list_elem_of_In.
  rewrite sort_perm in Hc.
  destruct (Nat.ltb_spec 0 (length (children c))) as [Hlen|Hlen].
  - apply sortFileNodes_upto_enough; [|done].
    by apply height_le_max.
  - symmetry. apply sortFileNodes_leaf.
    destruct (children c); [done|simpl in Hlen; lia].
Qed.

Lemma sortFileNodes_label t : label (sortFileNodes t) = label t.
Proof. by rewrite sortFileNodes_unfold. Qed.

Lemma sortFileNodes_name t : name (sortFileNodes t) = name t.
Proof. by rewrite sortFileNodes_unfold. Qed.

Lemma sortFileNodes_is_folder t : is_folder (sortFileNodes t) = is_folder t.
Proof. by rewrite sortFileNodes_unfold. Qed.

Lemma sortFileNodes_children t :
  children (sortFileNodes t) = sortFileNodes <$> sort cmp (children t).
Proof. by rewrite sortFileNodes_unfold. Qed.
End Sorting.

(** *** The comparator of [sortFileNodes] is consistent *)

Section Comparator.
Context (collator : Collator).
Local Notation "'cmp'" := (compareNodes collator).
Local Notation "'sortFileNodes'" := (FileTree.sortFileNodes collator).

Lemma localeCompare_zero a b :
  localeCompare collator a b <= 0 → localeCompare collator b a <= 0 →
  localeCompare collator a b = 0.
Proof.
  intros Hab Hba. pose proof (localeCompare_flip collator a b). lia.
Qed.

Lemma compareNodes_flip x y : 0 < cmp x y → cmp y x <= 0.
Proof.
  unfold compareNodes.
  pose proof (localeCompare_flip collator (name y) (name x)).
  destruct (is_folder x), (is_folder y); simpl; lia.
Qed.

Lemma compareNodes_trans x y z : cmp x y <= 0 → cmp y z <= 0 → cmp x z <= 0.
Proof.
  unfold compareNodes.
  pose proof (localeCompare_trans collator (name x) (name y) (name z)).
  destruct (is_folder x), (is_folder y), (is_folder z); simpl; lia.
Qed.

Lemma compareNodes_same_kind x y :
  is_folder x = is_folder y →
  cmp x y = localeCompare collator (name x) (name y).
Proof. unfold compareNodes. intros ->. by destruct (is_folder y). Qed.

Lemma compareNodes_sorted a b : cmp (sortFileNodes a) (sortFileNodes b) = cmp a b.
Proof.
  unfold compareNodes.
  by rewrite !sortFileNodes_name, !sortFileNodes_is_folder.
Qed.

Lemma sorted_folders_first l :
  StronglySorted (λ a b, cmp a b <= 0) l → folders_first collator l.
Proof.
  induction 1 as [|x l Hl (folders & files & -> & Hfolders & Hfiles & Hs1 & Hs2) Hx].
  { exists [], []. split_and!; constructor. }
  destruct (is_folder x) eqn:Hfx.
  - exists (x :: folders), files. split_and!; try done.
    + by constructor.
    + constructor; [done|].
      apply Forall_app in Hx as [Hx _].
      rewrite Forall_forall in Hx, Hfolders |- *. intros y Hy.
      rewrite <-compareNodes_same_kind; [by apply Hx|].
      rewrite Hfx. symmetry. by apply Hfolders.
  - assert (Forall (λ y, is_folder y = false) (folders ++ files)) as Hall.
    { eapply Forall_impl; [exact Hx|]. intros y. simpl. unfold compareNodes.
      rewrite Hfx. destruct (is_folder y); simpl; [lia|done]. }
    assert (folders = []) as ->.
    { destruct folders as [|c folders]; [done|].
      apply Forall_cons in Hfolders as [Hc _].
      apply Forall_cons in Hall as [Hc' _]. congruence. }
    exists [], (x :: files). split_and!.
    + done.
    + constructor.
    + by constructor.
    + constructor.
    + constructor; [done|]. simpl in Hx.
      rewrite Forall_forall in Hx, Hfiles |- *. intros y Hy.
      rewrite <-compareNodes_same_kind; [by apply Hx|].
      rewrite Hfx. symmetry. by apply Hfiles.
Qed.

(** Every list of children of a sorted tree is sorted. *)
Lemma sortFileNodes_sorted t :
  every (λ n, StronglySorted (λ a b, cmp a b <= 0) (children n)) (sortFileNodes t).
Proof.
  induction t as [n p f s e cs x IH] using FileNode_ind.
  rewrite every_unfold, sortFileNodes_children. simpl. split.
  - eapply StronglySorted_fmap;
      [|apply (sort_sorted cmp compareNodes_flip compareNodes_trans)].
    intros a b. simpl. by rewrite compareNodes_sorted.
  - apply Forall_fmap, Forall_forall. intros c Hc. simpl.
    rewrite sort_perm in Hc.
    by apply (proj1 (Forall_forall _ _) IH).
Qed.

(** C8. In the tree that [buildFileTree] returns, the children of every
    node, at every depth, are the folders in ascending [localeCompare]
    order of their names followed by the files in ascending
    [localeCompare] order of their names. *)
Theorem buildFileTree_children_sorted (snapshots : list Snapshot) :
  Forall (λ node, folders_first collator (children node))
         (nodes (buildFileTree collator snapshots)).
Proof.
  unfold buildFileTree.
  eapply Forall_impl; [apply sortFileNodes_sorted|].
  intros node. apply sorted_folders_first.
Qed.
End Comparator.

(** *** Properties of the labels of the nodes *)

Lemma Forall_update_first (P : FileNode → Prop) part f cs :
  (∀ c, P c → P (f c)) → Forall P cs → Forall P (update_first part f cs).
Proof.
  intros Hf. induction 1 as [|c cs Hc Hcs IH]; simpl; [constructor|].
  destruct (named part c); constructor; auto.
Qed.

Lemma insertParts_label snapshot parts currentPath t :
  label (insertParts snapshot parts currentPath t) = label t.
Proof. destruct parts; simpl; [done|]. by destruct (find _ _). Qed.

Lemma insertParts_name snapshot parts currentPath t :
  name (insertParts snapshot parts currentPath t) = name t.
Proof. apply label_name, insertParts_label. Qed.

Lemma insertParts_every Q snapshot parts currentPath t :
  ignores_children Q →
  (∀ part path isLast, Q (newNode snapshot part path isLast)) →
  every Q t → every Q (insertParts snapshot parts currentPath t).
Proof.
  intros HQ Hnew. revert currentPath t.
  induction parts as [|part rest IH]; intros currentPath t Ht; simpl; [done|].
  pose proof Ht as [Hroot Hcs]%every_unfold.
  destruct (find _ _); apply every_unfold; simpl; (split; [by apply HQ|]).
  - apply Forall_update_first; [|done]. intros c. apply IH.
  - apply Forall_app. split; [done|]. constructor; [|constructor].
    apply IH, every_unfold. split; [apply Hnew|constructor].
Qed.

Lemma insertAll_every Q snapshots :
  ignores_children Q → Q rootNode →
  (∀ snapshot part path isLast, Q (newNode snapshot part path isLast)) →
  every Q (insertAll snapshots).
Proof.
  intros HQ Hroot Hnew. unfold insertAll.
  assert (every Q rootNode) as Hstart.
  { apply every_unfold. split; [done|constructor]. }
  revert Hstart. generalize rootNode.
  induction snapshots as [|snapshot snapshots IH]; intros t Ht; simpl; [done|].
  apply IH. unfold insertSnapshot. by apply insertParts_every.
Qed.

Lemma sortFileNodes_every collator Q t :
  ignores_children Q → every Q t → every Q (sortFileNodes collator t).
Proof.
  intros HQ. induction t as [n p f s e cs x IH] using FileNode_ind.
  intros [Hroot Hcs]%every_unfold.
  rewrite sortFileNodes_unfold. apply every_unfold. simpl.
  split; [by apply (HQ _ _ Hroot)|].
  apply Forall_fmap, Forall_forall. intros c Hc. simpl.
  rewrite sort_perm in Hc. simpl in Hcs.
  rewrite Forall_forall in IH, Hcs. by apply IH, Hcs.
Qed.

(** *** The extension *)

Lemma getFileExtension_Some filename e :
  getFileExtension filename = Some e →
  includes "." filename = true
  ∧ startsWith "." filename = false
  ∧ ∃ stem suffix,
      filename = (stem +:+ "." +:+ suffix)%string
      ∧ includes "." suffix = false
      ∧ e = toLowerCase suffix.
Proof.
  unfold getFileExtension.
  destruct (includes "." filename) eqn:Hdot.
  - destruct (split_last "." filename Hdot)
      as (Hlen & stem & suffix & Hname & Hsuffix & Hlast).
    destruct (Nat.ltb_spec 1 (length (split "." filename))); [|lia]. simpl.
    destruct (startsWith "." filename); simpl; [done|].
    intros [= <-]. split_and!; [done..|].
    exists stem, suffix. by rewrite Hlast.
  - by rewrite split_without.
Qed.

Lemma getFileExtension_None filename :
  includes "." filename = false ∨ startsWith "." filename = true →
  getFileExtension filename = None.
Proof.
  unfold getFileExtension. intros [Hdot| ->].
  - by rewrite split_without.
  - simpl. by rewrite andb_false_r.
Qed.

Lemma extension_of_name_derived node :
  extension_of_name node → extension_derived node.
Proof.
  unfold extension_of_name, extension_derived. intros ->. split.
  - intros e. destruct (is_folder node); [done|].
    intros (_ & _ & stem & suffix & Hname & Hsuffix & ->)%getFileExtension_Some.
    split; [done|]. exists stem, suffix.
    split_and!; [done..|apply toLowerCase_lower_case_of
                       |apply toLowerCase_no_upper].
  - destruct (is_folder node); [done|].
    intros [?|[?|?]]; [| |done]; apply getFileExtension_None; auto.
Qed.

(** The extension of an upper-case name with a letter outside A-Z:
    [getFileExtension("PHOTO.JPÉ")] is ["jpé"], where É is the code unit
    201 and é the code unit 233. *)
Example getFileExtension_latin1 :
  getFileExtension ("PHOTO.JP" +:+ String "201" "")
    = Some ("jp" +:+ String "233" "")%string.
Proof. reflexivity. Qed.

(** C6. In the tree that [buildFileTree] returns, a node with a defined
    extension is a file, and its extension is the text after the last dot
    of its name in lower case: letter for letter the lower-case letter of
    an upper-case letter and the code unit itself of any other, so that
    the extension holds no upper-case letter. A node whose name has no
    dot or begins with a dot, and every folder, has no extension. *)
Theorem buildFileTree_extension (collator : Collator) (snapshots : list Snapshot) :
  Forall extension_derived (nodes (buildFileTree collator snapshots)).
Proof.
  unfold buildFileTree.
  eapply Forall_impl; [|apply extension_of_name_derived].
  assert (ignores_children extension_of_name) as Hignore by (by intros n cs).
  apply sortFileNodes_every; [done|].
  apply insertAll_every; [done..|].
  intros snapshot part path isLast. unfold extension_of_name. simpl.
  by destruct isLast, (snapshot_is_folder snapshot).
Qed.

(** *** Looking a child up by its name *)

Lemma named_spec p c : reflect (name c = p) (named p c).
Proof. apply String.eqb_spec. Qed.

Lemma find_named_Some p l c : find (named p) l = Some c → c ∈ l ∧ name c = p.
Proof.
  induction l as [|c' l IH]; simpl; [done|].
  destruct (named_spec p c') as [Hc|Hc].
  - intros [= <-]. split; [left|done].
  - intros [? ?]%IH. split; [by right|done].
Qed.

Lemma find_named_None p l : find (named p) l = None ↔ p ∉ name <$> l.
Proof.
  induction l as [|c l IH]; csimpl.
  - split; [intros _; apply not_elem_of_nil|done].
  - rewrite not_elem_of_cons. destruct (named_spec p c) as [Hc|Hc].
    + split; [done|]. intros [? _]. congruence.
    + rewrite IH. split; [intros ?; split; congruence|tauto].
Qed.

Lemma find_named_unique p l c :
  NoDup (name <$> l) → c ∈ l → name c = p → find (named p) l = Some c.
Proof.
  induction l as [|c' l IH]; csimpl; [by intros _ ?%elem_of_nil|].
  intros [Hc' Hl]%NoDup_cons [->|Hc]%elem_of_cons Hp.
  - by destruct (named_spec p c').
  - destruct (named_spec p c') as [Heq|_]; [|by apply IH].
    destruct Hc'. rewrite Heq, <-Hp. by apply list_elem_of_fmap_2.
Qed.

Lemma find_named_fmap p f l :
  keeps_name f → find (named p) (f <$> l) = f <$> find (named p) l.
Proof.
  intros Hf. induction l as [|c l IH]; csimpl; [done|].
  unfold named at 1. rewrite Hf. fold (named p c).
  by destruct (named p c).
Qed.

Lemma find_named_app p l1 l2 :
  find (named p) (l1 ++ l2)
    = match find (named p) l1 with
      | Some c => Some c
      | None => find (named p) l2
      end.
Proof.
  induction l1 as [|c l1 IH]; simpl; [done|]. by destruct (named p c).
Qed.

Lemma find_update_first_eq p f l :
  keeps_name f →
  find (named p) (update_first p f l) = f <$> find (named p) l.
Proof.
  intros Hf. induction l as [|c l IH]; simpl; [done|].
  destruct (named_spec p c) as [Hc|Hc]; simpl.
  - unfold named. rewrite Hf, Hc. by rewrite String.eqb_refl.
  - by destruct (named_spec p c).
Qed.

Lemma find_update_first_ne p q f l :
  p ≠ q → keeps_name f →
  find (named p) (update_first q f l) = find (named p) l.
Proof.
  intros Hpq Hf. induction l as [|c l IH]; simpl; [done|].
  destruct (named_spec q c) as [Hc|Hc]; simpl.
  - unfold named. rewrite Hf. fold (named p c).
    destruct (named_spec p c); [congruence|done].
  - by destruct (named p c).
Qed.

Lemma find_named_perm p l l' :
  l ≡ₚ l' → NoDup (name <$> l) → find (named p) l = find (named p) l'.
Proof.
  intros Hperm Hl.
  assert (NoDup (name <$> l')) as Hl' by (by rewrite <-Hperm).
  destruct (find (named p) l) as [c|] eqn:Hfind.
  - apply find_named_Some in Hfind as [Hc Hp].
    symmetry. apply find_named_unique; [done| |done]. by rewrite <-Hperm.
  - symmetry. apply find_named_None. rewrite <-Hperm.
    by apply find_named_None.
Qed.

Lemma names_update_first part f cs :
  keeps_name f → name <$> update_first part f cs = name <$> cs.
Proof.
  intros Hf. induction cs as [|c cs IH]; csimpl; [done|].
  destruct (named part c); csimpl; [by rewrite Hf|by rewrite IH].
Qed.

(** *** The node at a path *)

Lemma label_at_cons t p ps :
  label_at t (p :: ps)
    = find (named p) (children t) ≫= λ c, label_at c ps.
Proof. unfold label_at. simpl. by destruct (find _ _). Qed.

Lemma label_at_nil t : label_at t [] = Some (label t).
Proof. done. Qed.

Lemma label_at_leaf t ps : children t = [] → ps ≠ [] → label_at t ps = None.
Proof. intros Ht. destruct ps; [done|]. intros _. by rewrite label_at_cons, Ht. Qed.

(** A row creates the nodes of its path that are missing and changes no
    node that exists. *)
Lemma label_at_insertParts snapshot parts currentPath t ps :
  label_at (insertParts snapshot parts currentPath t) ps
    = or_created (label_at t ps) (contribution snapshot parts currentPath ps).
Proof.
  revert currentPath t ps.
  induction parts as [|part rest IH]; intros currentPath t ps.
  { assert (contribution snapshot [] currentPath ps = None) as ->
      by (by destruct ps).
    simpl. by destruct (label_at t ps). }
  destruct ps as [|p ps]; [by rewrite !label_at_nil, insertParts_label|].
  rewrite !label_at_cons.
  assert (keeps_name (insertParts snapshot rest (currentPath +:+ "/" +:+ part)))
    as Hkeeps by (intros c; apply insertParts_name).
  simpl. destruct (String.eqb_spec p part) as [->|Hp].
  - destruct (find (named part) (children t)) as [c|] eqn:Hfind; simpl.
    + rewrite find_update_first_eq, Hfind by done. simpl.
      rewrite IH. by destruct ps.
    + rewrite find_named_app, Hfind. simpl. unfold named at 1.
      rewrite insertParts_name. simpl. rewrite String.eqb_refl. simpl.
      rewrite IH. destruct ps as [|q ps]; [done|].
      by rewrite label_at_leaf.
  - destruct (find (named part) (children t)) as [c|] eqn:Hfind; simpl.
    + rewrite find_update_first_ne by done.
      by destruct (find (named p) (children t) ≫= _).
    + rewrite find_named_app. simpl. unfold named at 2.
      rewrite insertParts_name. simpl.
      destruct (String.eqb_spec part p) as [?|_]; [congruence|].
      destruct (find (named p) (children t)) as [c|]; simpl; [|done].
      by destruct (label_at c ps).
Qed.

Lemma label_at_fold snapshots t ps :
  label_at (fold_left insertSnapshot snapshots t) ps
    = or_created (label_at t ps) (first_contribution snapshots ps).
Proof.
  revert t. induction snapshots as [|s snapshots IH]; intros t; simpl.
  { by destruct (label_at t ps). }
  rewrite IH. unfold insertSnapshot. rewrite label_at_insertParts.
  unfold first_contribution. simpl.
  destruct (label_at t ps); simpl; [done|].
  by destruct (contribution s _ _ ps).
Qed.

Lemma first_some_Some {A B} (f : A → option B) l b :
  first_some f l = Some b → ∃ x, x ∈ l ∧ f x = Some b.
Proof.
  induction l as [|x l IH]; simpl; [done|].
  destruct (f x) as [b'|] eqn:Hx.
  - intros [= <-]. exists x. split; [left|done].
  - intros (y & ? & ?)%IH. exists y. split; [by right|done].
Qed.

Lemma first_some_None {A B} (f : A → option B) l :
  first_some f l = None ↔ ∀ x, x ∈ l → f x = None.
Proof.
  induction l as [|x l IH]; simpl.
  - split; [by intros _ x ?%elem_of_nil|done].
  - destruct (f x) as [b|] eqn:Hx.
    + split; [done|]. intros H. rewrite <-Hx. apply H. left.
    + rewrite IH. split.
      * intros H y [->|?]%elem_of_cons; auto.
      * intros H y ?. apply H. by right.
Qed.

(** When the rows agree on what they create, their order does not matter. *)
Lemma first_some_perm {A B} (f : A → option B) l l' :
  (∀ x y a b, x ∈ l → y ∈ l → f x = Some a → f y = Some b → a = b) →
  l ≡ₚ l' → first_some f l = first_some f l'.
Proof.
  intros Hagree Hperm.
  destruct (first_some f l) as [a|] eqn:Hl.
  - apply first_some_Some in Hl as (x & Hx & Ha).
    destruct (first_some f l') as [b|] eqn:Hl'.
    + apply first_some_Some in Hl' as (y & Hy & Hb).
      rewrite <-Hperm in Hy. f_equal. eauto.
    + rewrite Hperm in Hx.
      rewrite first_some_None in Hl'. rewrite (Hl' x Hx) in Ha. done.
  - symmetry. apply first_some_None. intros x Hx.
    rewrite <-Hperm in Hx. by apply (proj1 (first_some_None f l) Hl).
Qed.

(** *** Rows that agree create the same nodes *)

Lemma newNode_implied x y part path :
  newNode x part path false = newNode y part path false.
Proof. done. Qed.

Lemma newNode_stated x y part path :
  stated x = stated y → newNode x part path true = newNode y part path true.
Proof. unfold stated, newNode. intros [= -> ->]. done. Qed.

Lemma newNode_stated_implied x y part path :
  stated x = implied → newNode x part path true = newNode y part path false.
Proof. unfold stated, implied, newNode. intros [= -> ->]. done. Qed.

Lemma contribution_agree x y px py currentPath ps a b :
  (px `prefix_of` py →
     stated x = if bool_decide (px = py) then stated y else implied) →
  (py `prefix_of` px →
     stated y = if bool_decide (py = px) then stated x else implied) →
  contribution x px currentPath ps = Some a →
  contribution y py currentPath ps = Some b →
  a = b.
Proof.
  revert px py currentPath.
  induction ps as [|p ps IH]; intros px py currentPath Hxy Hyx;
    [by destruct px|].
  destruct px as [|part rest]; [done|].
  destruct py as [|part' rest']; [done|]. simpl.
  destruct (String.eqb_spec p part) as [<-|]; [|done].
  destruct (String.eqb_spec p part') as [<-|]; [|done].
  destruct ps as [|q ps].
  - intros [= <-] [= <-].
    destruct rest as [|r rest], rest' as [|r' rest'].
    + apply newNode_stated. rewrite Hxy by done. by rewrite bool_decide_true.
    + apply newNode_stated_implied. rewrite Hxy by (by eexists).
      by rewrite bool_decide_false.
    + symmetry. apply newNode_stated_implied. rewrite Hyx by (by eexists).
      by rewrite bool_decide_false.
    + apply newNode_implied.
  - apply IH.
    + intros Hpre. rewrite Hxy by (by apply prefix_cons).
      apply (f_equal (λ c : bool, if c then stated y else implied)).
      apply bool_decide_ext. split; [by intros [=]|by intros ->].
    + intros Hpre. rewrite Hyx by (by apply prefix_cons).
      apply (f_equal (λ c : bool, if c then stated x else implied)).
      apply bool_decide_ext. split; [by intros [=]|by intros ->].
Qed.

Lemma agrees_with_spec x y :
  agrees_with x y = true → pathParts x ≠ [] →
  pathParts x `prefix_of` pathParts y →
  stated x = if bool_decide (pathParts x = pathParts y)
             then stated y else implied.
Proof.
  unfold agrees_with. intros H Hx Hpre.
  rewrite bool_decide_true in H by done.
  apply orb_true_iff in H as [H|H].
  - by apply bool_decide_eq_true in H.
  - by apply bool_decide_eq_true in H.
Qed.

Lemma consistent_spec snapshots x y :
  consistent snapshots = true → x ∈ snapshots → y ∈ snapshots →
  agrees_with x y = true.
Proof.
  unfold consistent. rewrite forallb_forall.
  intros H Hx%list_elem_of_In Hy%list_elem_of_In.
  specialize (H x Hx). rewrite forallb_forall in H. by apply H.
Qed.

Lemma consistent_perm l l' : l ≡ₚ l' → consistent l = true → consistent l' = true.
Proof.
  intros Hperm H. unfold consistent.
  apply forallb_forall. intros x Hx%list_elem_of_In.
  apply forallb_forall. intros y Hy%list_elem_of_In.
  rewrite <-Hperm in Hx, Hy. by eapply consistent_spec.
Qed.

Lemma contribution_nil s currentPath ps : contribution s [] currentPath ps = None.
Proof. by destruct ps. Qed.

Lemma first_contribution_perm l l' ps :
  consistent l = true → l ≡ₚ l' →
  first_contribution l ps = first_contribution l' ps.
Proof.
  intros Hl Hperm. apply first_some_perm; [|done].
  intros x y a b Hx Hy Ha Hb.
  assert (pathParts x ≠ []) as Hpx.
  { intros Hnil. by rewrite Hnil, contribution_nil in Ha. }
  assert (pathParts y ≠ []) as Hpy.
  { intros Hnil. by rewrite Hnil, contribution_nil in Hb. }
  eapply contribution_agree; [| |exact Ha|exact Hb].
  - apply agrees_with_spec; [by eapply consistent_spec|done].
  - apply agrees_with_spec; [by eapply consistent_spec|done].
Qed.

(** *** Children with distinct names *)

Lemma insertParts_unique snapshot parts currentPath t :
  unique_names t → unique_names (insertParts snapshot parts currentPath t).
Proof.
  revert currentPath t.
  induction parts as [|part rest IH]; intros currentPath t Ht; simpl; [done|].
  pose proof Ht as [Hnames Hcs]%every_unfold.
  assert (keeps_name (insertParts snapshot rest (currentPath +:+ "/" +:+ part)))
    as Hkeeps by (intros c; apply insertParts_name).
  destruct (find (named part) (children t)) eqn:Hfind;
    apply every_unfold; simpl; split.
  - by rewrite names_update_first.
  - apply Forall_update_first; [|done]. intros c. apply IH.
  - rewrite fmap_app. simpl. rewrite insertParts_name. simpl.
    apply NoDup_app. split_and!; [done| |apply NoDup_singleton].
    intros p Hp ->%list_elem_of_singleton.
    by apply find_named_None in Hfind.
  - apply Forall_app. split; [done|]. constructor; [|constructor].
    apply IH, every_unfold. simpl. split; constructor.
Qed.

Lemma insertAll_unique snapshots : unique_names (insertAll snapshots).
Proof.
  unfold insertAll.
  assert (unique_names rootNode) as Hstart.
  { apply every_unfold. simpl. split; constructor. }
  revert Hstart. generalize rootNode.
  induction snapshots as [|s snapshots IH]; intros t Ht; simpl; [done|].
  apply IH. by apply insertParts_unique.
Qed.

Lemma sortFileNodes_names collator cs :
  name <$> (sortFileNodes collator <$> sort (compareNodes collator) cs)
    ≡ₚ name <$> cs.
Proof.
  rewrite <-list_fmap_compose.
  assert (name ∘ sortFileNodes collator <$> sort (compareNodes collator) cs
          = name <$> sort (compareNodes collator) cs) as ->.
  { apply list_fmap_ext. intros _ c _. apply sortFileNodes_name. }
  by rewrite sort_perm.
Qed.

Lemma sortFileNodes_unique collator t :
  unique_names t → unique_names (sortFileNodes collator t).
Proof.
  induction t as [n p f s e cs x IH] using FileNode_ind.
  intros [Hnames Hcs]%every_unfold.
  apply every_unfold. rewrite sortFileNodes_children. simpl in *. split.
  - by rewrite sortFileNodes_names.
  - apply Forall_fmap, Forall_forall. intros c Hc. simpl.
    rewrite sort_perm in Hc.
    rewrite Forall_forall in IH, Hcs. by apply IH, Hcs.
Qed.

(** Sorting moves no node to another path. *)
Lemma label_at_sortFileNodes collator t ps :
  unique_names t → label_at (sortFileNodes collator t) ps = label_at t ps.
Proof.
  revert ps. induction t as [n p f s e cs x IH] using FileNode_ind.
  intros ps [Hnames Hcs]%every_unfold. simpl in *.
  destruct ps as [|q ps]; [by rewrite !label_at_nil, sortFileNodes_label|].
  rewrite !label_at_cons, sortFileNodes_children. simpl.
  rewrite find_named_fmap by (intros c; apply sortFileNodes_name).
  rewrite <-(find_named_perm q cs) by (by rewrite ?sort_perm).
  destruct (find (named q) cs) as [c|] eqn:Hfind; simpl; [|done].
  apply find_named_Some in Hfind as [Hc _].
  rewrite Forall_forall in IH, Hcs. by apply IH, Hcs.
Qed.

(** *** A sorted tree is determined by the nodes at its paths *)

Lemma descend_child t c ps :
  NoDup (name <$> children t) → c ∈ children t →
  descend t (name c :: ps) = descend c ps.
Proof.
  intros Hnames Hc. simpl.
  by rewrite (find_named_unique (name c) (children t) c).
Qed.

Lemma siblings_strict_child collator t c :
  NoDup (name <$> children t) → c ∈ children t →
  siblings_strict collator t → siblings_strict collator c.
Proof.
  intros Hnames Hc Ht ps n a b Hn. apply (Ht (name c :: ps)).
  by rewrite descend_child.
Qed.

Section Canonical.
Context (collator : Collator).
Local Notation "'cmp'" := (compareNodes collator).

Lemma compareNodes_zero x y :
  cmp x y <= 0 → cmp y x <= 0 → localeCompare collator (name x) (name y) = 0.
Proof.
  unfold compareNodes. intros Hxy Hyx.
  destruct (is_folder x), (is_folder y); simpl in *; try lia;
    by apply localeCompare_zero.
Qed.

Lemma sorted_tree_ext t t' :
  siblings_strict collator t →
  unique_names t → unique_names t' → sorted collator t → sorted collator t' →
  (∀ ps, label_at t ps = label_at t' ps) → t = t'.
Proof.
  revert t'. induction t as [n p f s e cs x IH] using FileNode_ind.
  intros t' Hstrict Hu Hu' Hs Hs' Hat.
  pose proof Hu as [Hnames _]%every_unfold.
  pose proof Hu' as [Hnames' _]%every_unfold.
  pose proof Hs as [Hsorted _]%every_unfold.
  pose proof Hs' as [Hsorted' _]%every_unfold.
  set (t := mkFileNode n p f s e cs x) in *.
  change cs with (children t) in IH.
  assert (∀ c c', c ∈ children t → c' ∈ children t' → name c = name c' → c = c')
    as Hsame.
  { intros c c' Hc Hc' Hname.
    rewrite Forall_forall in IH.
    apply IH;
      [done|by apply (siblings_strict_child collator t)
      |exact (every_child _ _ _ Hu Hc)|exact (every_child _ _ _ Hu' Hc')
      |exact (every_child _ _ _ Hs Hc)|exact (every_child _ _ _ Hs' Hc')|].
    intros ps. specialize (Hat (name c :: ps)).
    rewrite !label_at_cons in Hat.
    rewrite (find_named_unique (name c) (children t) c) in Hat by done.
    by rewrite (find_named_unique (name c) (children t') c') in Hat. }
  assert (children t ≡ₚ children t') as Hperm.
  { apply NoDup_Permutation; [by eapply NoDup_fmap_1..|].
    intros c. split.
    - intros Hc. pose proof (Hat [name c]) as Hp.
      rewrite !label_at_cons in Hp.
      rewrite (find_named_unique (name c) (children t) c) in Hp by done.
      destruct (find (named (name c)) (children t')) as [c'|] eqn:Hfind; [|done].
      apply find_named_Some in Hfind as [Hc' Hname].
      by rewrite (Hsame c c').
    - intros Hc'. pose proof (Hat [name c]) as Hp.
      rewrite !label_at_cons in Hp.
      rewrite (find_named_unique (name c) (children t') c) in Hp by done.
      destruct (find (named (name c)) (children t)) as [c0|] eqn:Hfind; [|done].
      apply find_named_Some in Hfind as [Hc0 Hname].
      by rewrite <-(Hsame c0 c). }
  apply node_eq.
  { pose proof (Hat []) as Hroot. rewrite !label_at_nil in Hroot.
    by apply (inj Some) in Hroot. }
  apply (StronglySorted_unique_strong (λ a b, cmp a b <= 0)); [|done..].
  intros c c' Hc Hc' Hle Hge.
  assert (∃ c0, c0 ∈ children t ∧ name c0 = name c') as (c0 & Hc0 & Hname0).
  { rewrite <- Hperm in Hc'. by exists c'. }
  apply Hsame; [done..|]. rewrite <- Hname0.
  apply (Hstrict [] t c c0 eq_refl Hc Hc0).
  rewrite Hname0. by apply compareNodes_zero.
Qed.
End Canonical.

(** C3 (as stated) fails: the folder row [docs] of size 4096 and the file
    row [docs/a.txt] give a [docs] node of size 4096 in this order and, in
    the other order, a [docs] node of size 0, which the file row creates
    on its way and the folder row then finds in place. *)
Lemma buildFileTree_order_counterexample :
  [Scenarios.docs_4096; Scenarios.docs_a_txt]
    ≡ₚ [Scenarios.docs_a_txt; Scenarios.docs_4096]
  ∧ (size <$> children (buildFileTree unitCollator
                          [Scenarios.docs_4096; Scenarios.docs_a_txt])) = [4096]
  ∧ (size <$> children (buildFileTree unitCollator
                          [Scenarios.docs_a_txt; Scenarios.docs_4096])) = [0]
  ∧ buildFileTree unitCollator [Scenarios.docs_4096; Scenarios.docs_a_txt]
      ≠ buildFileTree unitCollator [Scenarios.docs_a_txt; Scenarios.docs_4096].
Proof.
  split_and!; [apply Permutation_swap|reflexivity|reflexivity|].
  intros Heq. apply (f_equal (λ t, size <$> children t)) in Heq.
  vm_compute in Heq. discriminate.
Qed.

End FileTreeFacts.

(** ** The audit core *)

Module CoreFacts.
Import Core.

(** *** Lists *)

Lemma filter_sorted {A} (R : relation A) (f : A → bool) l :
  StronglySorted R l → StronglySorted R (List.filter f l).
Proof.
  induction 1 as [|x l Hl IH Hx]; simpl; [constructor|].
  destruct (f x); [|done]. constructor; [done|].
  apply Forall_forall. intros y [Hy _]%list_elem_of_In%filter_In.
  rewrite Forall_forall in Hx. by apply Hx, list_elem_of_In.
Qed.

Lemma sorted_lookup {A} (R : relation A) l i j a b :
  StronglySorted R l → (i < j)%nat → l !! i = Some a → l !! j = Some b → R a b.
Proof.
  intros Hl. revert i j. induction Hl as [|x l Hl IH Hx]; intros i j Hij.
  { by rewrite lookup_nil. }
  destruct j as [|j]; [lia|]. destruct i as [|i]; simpl.
  - intros [= <-] Hb. rewrite Forall_forall in Hx.
    by eapply Hx, list_elem_of_lookup_2.
  - apply IH. lia.
Qed.

Lemma filter_unique_row {A} (key : A → string) (k : string) (l : list A) :
  NoDup (key <$> l) → k ∈ key <$> l →
  length (List.filter (λ d, String.eqb (key d) k) l) = 1%nat.
Proof.
  induction l as [|d l IH]; csimpl; [by intros _ ?%elem_of_nil|].
  intros [Hd Hl]%NoDup_cons Hk.
  destruct (String.eqb_spec (key d) k) as [Heq|Hne]; simpl.
  - f_equal. apply length_zero_iff_nil.
    destruct (List.filter _ l) as [|d' l'] eqn:Hfilter; [done|].
    assert (In d' (List.filter (λ d0, String.eqb (key d0) k) l)) as Hin
      by (rewrite Hfilter; by left).
    apply filter_In in Hin as [Hin Hkey%String.eqb_eq].
    destruct Hd. rewrite Heq, <-Hkey.
    by apply list_elem_of_fmap_2, list_elem_of_In.
  - apply IH; [done|]. apply elem_of_cons in Hk as [?|?]; congruence.
Qed.

(** *** The identity of a volume *)

Section Reconciler.
Context (tolerance : Z) (stable_hash : string → string).
Local Notation "'canonical_identity'" :=
  (Core.canonical_identity tolerance stable_hash).
Local Notation "'find_descriptor'" := (Core.find_descriptor tolerance).
Local Notation "'reconcile'" := (Core.reconcile tolerance stable_hash).
Local Notation "'observe_present'" := (Core.observe_present).
Local Notation "'poll_step'" := (Core.poll_step tolerance stable_hash).
Local Notation "'run'" := (Core.run tolerance stable_hash).

Lemma blocked_identity v ds :
  find_descriptor v ds = None →
  canonical_identity v ds
    = fallback_identity stable_hash (mount_point v) (total_capacity v).
Proof. unfold Core.canonical_identity. by intros ->. Qed.

Lemma serial_identity v ds d s :
  find_descriptor v ds = Some d → serial_number d = Some s →
  canonical_identity v ds = s.
Proof. unfold Core.canonical_identity. by intros -> ->. Qed.

Lemma wholly_blocked v : find_descriptor v [] = None.
Proof. done. Qed.

(** *** The registry *)

Lemma upsert_device_keys now r ds :
  identity_key <$> upsert_device now r ds
    = if bool_decide (identity r ∈ identity_key <$> ds)
      then identity_key <$> ds
      else (identity_key <$> ds) ++ [identity r].
Proof.
  induction ds as [|d ds IH]; csimpl.
  - done.
  - destruct (String.eqb_spec (identity_key d) (identity r)) as [Heq|Hne]; csimpl.
    + rewrite bool_decide_true; [done|]. rewrite Heq. left.
    + rewrite IH.
      destruct (decide (identity r ∈ identity_key <$> ds)) as [Hin|Hin].
      * rewrite !bool_decide_true; [done|by right|done].
      * rewrite !bool_decide_false; [done| |done].
        intros [?|?]%elem_of_cons; congruence.
Qed.

Lemma observe_present_registry now st r :
  registry_ok st → registry_ok (observe_present now st r).
Proof.
  intros [Hkeys Hknown]. unfold Core.observe_present.
  assert (registry_ok
    {| devices := upsert_device now r (devices st);
       ledger := insert_activity (identity r) CONNECT now (ledger st);
       presence := <[identity r := Connected]> (presence st);
       active_scans :=
         <[identity r := Z.of_nat (length (ledger st)) + 1]> (active_scans st) |})
    as Hnew.
  { split; simpl; rewrite upsert_device_keys.
    - case_bool_decide as Hin; [done|].
      apply NoDup_app. split_and!; [done| |apply NoDup_singleton].
      by intros key Hkey ->%list_elem_of_singleton.
    - intros key. rewrite lookup_insert. case_decide as Hkey.
      + intros _. subst key. case_bool_decide; [done|].
        apply elem_of_app. right. left.
      + intros Hsome%Hknown. case_bool_decide; [done|].
        apply elem_of_app. by left. }
  destruct (presence st !! identity r) as [[]|]; done.
Qed.

Lemma observe_absent_registry now st key :
  registry_ok st → registry_ok (observe_absent now st key).
Proof.
  intros [Hkeys Hknown]. unfold observe_absent.
  destruct (presence st !! key) as [[]|] eqn:Hkey; [done| |done].
  split; simpl; [done|].
  intros key'. rewrite lookup_insert. case_decide as Heq.
  - intros _. subst key'. apply Hknown. by rewrite Hkey.
  - apply Hknown.
Qed.

Lemma fold_preserves {S X} (P : S → Prop) (f : S → X → S) l st :
  (∀ st x, P st → P (f st x)) → P st → P (fold_left f l st).
Proof.
  intros Hf. revert st. induction l as [|x l IH]; simpl; auto.
Qed.

Lemma poll_step_registry st p : registry_ok st → registry_ok (poll_step st p).
Proof.
  intros Hst. unfold Core.poll_step.
  apply fold_preserves; [intros; by apply observe_present_registry|].
  apply fold_preserves; [intros; by apply observe_absent_registry|done].
Qed.

Lemma run_registry polls : registry_ok (run polls).
Proof.
  unfold Core.run. apply fold_preserves; [intros; by apply poll_step_registry|].
  split; simpl; [constructor|].
  intros key. rewrite lookup_empty. by intros [? ?].
Qed.

(** A device that the state machine knows stays known. *)
Lemma observe_present_known now st r key :
  is_Some (presence st !! key) →
  is_Some (presence (observe_present now st r) !! key).
Proof.
  unfold Core.observe_present.
  destruct (presence st !! identity r) as [[]|]; simpl; try done;
    rewrite lookup_insert; by case_decide.
Qed.

Lemma observe_absent_known now st key' key :
  is_Some (presence st !! key) →
  is_Some (presence (observe_absent now st key') !! key).
Proof.
  unfold observe_absent.
  destruct (presence st !! key') as [[]|]; simpl; try done.
  rewrite lookup_insert; by case_decide.
Qed.

Lemma poll_step_known st p key :
  is_Some (presence st !! key) → is_Some (presence (poll_step st p) !! key).
Proof.
  intros Hkey. unfold Core.poll_step.
  apply (fold_preserves (λ st, is_Some (presence st !! key)));
    [intros; by apply observe_present_known|].
  apply (fold_preserves (λ st, is_Some (presence st !! key)));
    [intros; by apply observe_absent_known|done].
Qed.

(** Every identity that the reconciler reports is connected after the
    cycle. *)
Lemma observe_present_connected now st r :
  presence (observe_present now st r) !! identity r = Some Connected.
Proof.
  unfold Core.observe_present.
  destruct (presence st !! identity r) as [[]|] eqn:Hr; simpl;
    by rewrite ?lookup_insert_eq.
Qed.

Lemma observe_present_stays now st r key :
  presence st !! key = Some Connected →
  presence (observe_present now st r) !! key = Some Connected.
Proof.
  unfold Core.observe_present.
  destruct (presence st !! identity r) as [[]|]; simpl; try done;
    rewrite lookup_insert; by case_decide.
Qed.

Lemma fold_present_connected now rs st r :
  r ∈ rs →
  presence (fold_left (observe_present now) rs st) !! identity r
    = Some Connected.
Proof.
  revert st. induction rs as [|r' rs IH]; intros st; [by intros ?%elem_of_nil|].
  intros [->|Hr]%elem_of_cons; simpl; [|by apply IH].
  apply (fold_preserves (λ st, presence st !! identity r' = Some Connected));
    [intros; by apply observe_present_stays|].
  apply observe_present_connected.
Qed.

Lemma poll_step_connected st p v :
  v ∈ volumes p →
  presence (poll_step st p) !! canonical_identity v (descriptors p)
    = Some Connected.
Proof.
  intros Hv. unfold Core.poll_step.
  apply (fold_present_connected _ _ _
    {| identity := canonical_identity v (descriptors p);
       source_volume := v;
       matched := find_descriptor v (descriptors p) |}).
  unfold Core.reconcile.
  apply list_elem_of_In, in_map_iff. exists v.
  split; [done|by apply list_elem_of_In].
Qed.

Lemma observed_registered polls p v :
  p ∈ polls → v ∈ volumes p →
  canonical_identity v (descriptors p)
    ∈ identity_key <$> devices (run polls).
Proof.
  intros Hp Hv.
  apply list_elem_of_split in Hp as (before & after & ->).
  destruct (run_registry (before ++ p :: after)) as [Hkeys Hknown].
  apply Hknown. unfold Core.run. rewrite fold_left_app. simpl.
  apply (fold_preserves
           (λ st, is_Some (presence st !! canonical_identity v (descriptors p))));
    [intros; by apply poll_step_known|].
  by rewrite poll_step_connected.
Qed.

Lemma same_volume_spec v v' :
  Core.same_volume v v' = true
  ↔ mount_point v' = mount_point v ∧ total_capacity v' = total_capacity v.
Proof.
  unfold Core.same_volume.
  by rewrite andb_true_iff, String.eqb_eq, Z.eqb_eq.
Qed.

Lemma identities_of_spec v polls key :
  key ∈ Core.identities_of tolerance stable_hash v polls
  ↔ ∃ p v', p ∈ polls ∧ v' ∈ volumes p ∧ Core.same_volume v v' = true
            ∧ key = canonical_identity v' (descriptors p).
Proof.
  unfold Core.identities_of. rewrite list_elem_of_In, in_flat_map. split.
  - intros (p & Hp & (v' & <- & Hv')%in_map_iff).
    apply filter_In in Hv' as [Hv' Hsame].
    exists p, v'. by rewrite !list_elem_of_In.
  - intros (p & v' & Hp & Hv' & Hsame & ->). exists p.
    split; [by apply list_elem_of_In|].
    apply in_map_iff. exists v'. split; [done|].
    apply filter_In. split; [by apply list_elem_of_In|done].
Qed.

Lemma filter_is_sublist {A} (f : A → bool) (l : list A) :
  List.filter f l `sublist_of` l.
Proof.
  induction l as [|x l IH]; simpl; [done|].
  destruct (f x); by constructor.
Qed.

(** The volume has one row for each of its identities. *)
Lemma rows_of_identities v polls :
  identity_key <$> Core.rows_of tolerance stable_hash v polls
    ≡ₚ remove_dups (Core.identities_of tolerance stable_hash v polls).
Proof.
  destruct (run_registry polls) as [Hkeys _].
  apply NoDup_Permutation.
  - eapply sublist_NoDup; [exact Hkeys|].
    apply fmap_sublist, filter_is_sublist.
  - apply NoDup_remove_dups.
  - intros key. rewrite elem_of_remove_dups. unfold Core.rows_of. split.
    + intros (d & -> & Hd)%list_elem_of_fmap.
      apply list_elem_of_In, filter_In in Hd as [_ Hd].
      by apply bool_decide_eq_true in Hd.
    + intros Hkey. pose proof Hkey as Hobserved.
      apply identities_of_spec in Hobserved as (p & v' & Hp & Hv' & _ & ->).
      pose proof (observed_registered polls p v' Hp Hv') as Hrow.
      apply list_elem_of_fmap in Hrow as (d & Hd & Hin).
      apply list_elem_of_fmap. exists d. split; [done|].
      apply list_elem_of_In, filter_In.
      split; [by apply list_elem_of_In|].
      apply bool_decide_eq_true. by rewrite <- Hd.
Qed.

Lemma remove_dups_constant {A} `{EqDecision A} (x : A) (l : list A) :
  l ≠ [] → Forall (λ y, y = x) l → remove_dups l = [x].
Proof.
  intros Hne Hl.
  assert (NoDup (remove_dups l)) as Hnodup by apply NoDup_remove_dups.
  assert (∀ y, y ∈ remove_dups l → y = x) as Hall.
  { intros y Hy. rewrite elem_of_remove_dups in Hy.
    rewrite Forall_forall in Hl. by apply Hl. }
  destruct (remove_dups l) as [|y [|z l']] eqn:Hdups.
  - destruct l as [|y l]; [done|].
    assert (y ∈ remove_dups (y :: l)) as Hy
      by (apply elem_of_remove_dups; left).
    rewrite Hdups in Hy. by apply elem_of_nil in Hy.
  - f_equal. apply Hall. left.
  - apply NoDup_cons in Hnodup as [Hy _]. destruct Hy.
    rewrite (Hall y), (Hall z); [left|right; left|left].
Qed.

End Reconciler.

(** *** The activity ledger *)

Lemma alternating_head h r :
  alternating h → head h = Some r → activity_kind r = CONNECT.
Proof.
  induction 1 as [|h r' Hh IH Hr']; [done|].
  destruct h as [|r0 h]; simpl in *; [|by auto].
  by intros [= <-].
Qed.

Lemma alternating_consecutive h i r1 r2 :
  alternating h → h !! i = Some r1 → h !! S i = Some r2 →
  activity_kind r1 ≠ activity_kind r2.
Proof.
  induction 1 as [|h r' Hh IH Hr']; [by rewrite lookup_nil|].
  intros H1 H2.
  apply lookup_snoc_Some in H2 as [[Hlt H2]|[Hlen ->]].
  - rewrite lookup_app_l in H1 by lia. by apply IH.
  - rewrite lookup_app_l in H1 by lia.
    rewrite last_lookup, <-Hlen in Hr'. simpl in Hr'. rewrite H1 in Hr'.
    rewrite Hr'. simpl. by destruct (activity_kind r1).
Qed.

Lemma device_history_insert key device kind now l :
  device_history key (insert_activity device kind now l)
    = device_history key l
      ++ (if String.eqb device key
          then [{| activity_id := Z.of_nat (length l) + 1;
                   activity_device := device;
                   activity_kind := kind;
                   activity_timestamp := now |}]
          else []).
Proof. unfold device_history, insert_activity. by rewrite List.filter_app. Qed.

(** *** The state machine keeps the records alternating *)

Lemma observe_present_machine now st r :
  machine_ok st → machine_ok (observe_present now st r).
Proof.
  intros Hst. pose proof Hst as [Halt Hlast].
  unfold observe_present.
  assert (presence st !! identity r ≠ Some Connected →
    machine_ok
      {| devices := upsert_device now r (devices st);
         ledger := insert_activity (identity r) CONNECT now (ledger st);
         presence := <[identity r := Connected]> (presence st);
         active_scans :=
           <[identity r := Z.of_nat (length (ledger st)) + 1]> (active_scans st) |})
    as Hnew.
  { intros Hr. split; simpl.
    - intros key. rewrite device_history_insert.
      destruct (String.eqb_spec (identity r) key) as [<-|Hne];
        [|by rewrite app_nil_r].
      apply alternating_snoc; [done|]. simpl.
      rewrite Hlast in Hr. destruct (last _) as [r0|]; simpl in *; [|done].
      by destruct (activity_kind r0).
    - intros key. rewrite device_history_insert.
      destruct (String.eqb_spec (identity r) key) as [<-|Hne].
      + by rewrite lookup_insert_eq, last_snoc.
      + rewrite lookup_insert_ne by done. by rewrite app_nil_r. }
  destruct (presence st !! identity r) as [[]|] eqn:Hr.
  - by apply Hnew.
  - done.
  - by apply Hnew.
Qed.

Lemma observe_absent_machine now st key :
  machine_ok st → machine_ok (observe_absent now st key).
Proof.
  intros Hst. pose proof Hst as [Halt Hlast].
  unfold observe_absent.
  destruct (presence st !! key) as [state|] eqn:Hkey;
    [destruct state; [done|]|done].
  split; simpl.
  all: intros key'; rewrite device_history_insert;
       destruct (String.eqb_spec key key') as [<-|Hne];
       rewrite ?app_nil_r, ?lookup_insert_eq, ?lookup_insert_ne by done;
       try done.
  - apply alternating_snoc; [done|]. simpl.
    rewrite Hlast in Hkey. destruct (last _) as [r0|]; simpl in *; [|done].
    by destruct (activity_kind r0).
  - by rewrite last_snoc.
Qed.

(** *** The timestamps follow the clock *)

Lemma ledger_timed_later t t' st : t <= t' → ledger_timed t st → ledger_timed t' st.
Proof.
  intros Ht [Hsorted Hpast]. split; [done|].
  eapply Forall_impl; [exact Hpast|]. simpl. intros. lia.
Qed.

Lemma insert_activity_timed t device kind now l :
  t <= now →
  StronglySorted (λ a b, activity_timestamp a <= activity_timestamp b) l →
  Forall (λ r, activity_timestamp r <= t) l →
  StronglySorted (λ a b, activity_timestamp a <= activity_timestamp b)
    (insert_activity device kind now l)
  ∧ Forall (λ r, activity_timestamp r <= now) (insert_activity device kind now l).
Proof.
  intros Ht Hsorted Hpast. unfold insert_activity. split.
  - apply StronglySorted_app_2; [|done|repeat constructor].
    intros a b Ha ->%list_elem_of_singleton. simpl.
    rewrite Forall_forall in Hpast. specialize (Hpast a Ha). simpl in Hpast. lia.
  - apply Forall_app. split; [|by repeat constructor].
    eapply Forall_impl; [exact Hpast|]. simpl. intros. lia.
Qed.

Lemma observe_present_timed t now st r :
  t <= now → ledger_timed t st → ledger_timed now (observe_present now st r).
Proof.
  intros Ht Hst. pose proof Hst as [Hsorted Hpast].
  unfold observe_present.
  destruct (insert_activity_timed t (identity r) CONNECT now (ledger st))
    as [Hsorted' Hpast']; [done..|].
  destruct (presence st !! identity r) as [[]|] eqn:Hr;
    [by split|by eapply ledger_timed_later|by split].
Qed.

Lemma observe_absent_timed t now st key :
  t <= now → ledger_timed t st → ledger_timed now (observe_absent now st key).
Proof.
  intros Ht Hst. pose proof Hst as [Hsorted Hpast].
  unfold observe_absent.
  destruct (insert_activity_timed t key DISCONNECT now (ledger st))
    as [Hsorted' Hpast']; [done..|].
  destruct (presence st !! key) as [[]|] eqn:Hkey;
    [by eapply ledger_timed_later|by split|by eapply ledger_timed_later].
Qed.

(** *** The ledger only grows *)

Lemma ledger_grows_present now st r :
  ledger st `prefix_of` ledger (observe_present now st r).
Proof.
  unfold observe_present.
  destruct (presence st !! identity r) as [[]|]; simpl; try done;
    by apply prefix_app_r.
Qed.

Lemma ledger_grows_absent now st key :
  ledger st `prefix_of` ledger (observe_absent now st key).
Proof.
  unfold observe_absent.
  destruct (presence st !! key) as [[]|]; simpl; try done.
  by apply prefix_app_r.
Qed.

Lemma fold_grows {X} (f : Store → X → Store) l st :
  (∀ st x, ledger st `prefix_of` ledger (f st x)) →
  ledger st `prefix_of` ledger (fold_left f l st).
Proof.
  intros Hf. revert st. induction l as [|x l IH]; intros st; simpl; [done|].
  etrans; [apply Hf|apply IH].
Qed.

Lemma device_history_prefix key l l' :
  l `prefix_of` l' → device_history key l `prefix_of` device_history key l'.
Proof.
  intros [k ->]. unfold device_history. rewrite List.filter_app.
  by apply prefix_app_r.
Qed.

Section Ledger.
Context (tolerance : Z) (stable_hash : string → string).
Local Notation "'poll_step'" := (Core.poll_step tolerance stable_hash).
Local Notation "'run'" := (Core.run tolerance stable_hash).

Lemma poll_step_machine st p : machine_ok st → machine_ok (poll_step st p).
Proof.
  intros Hst. unfold Core.poll_step.
  apply (fold_preserves machine_ok);
    [intros; by apply observe_present_machine|].
  apply (fold_preserves machine_ok);
    [intros; by apply observe_absent_machine|done].
Qed.

Lemma run_machine polls : machine_ok (run polls).
Proof.
  unfold Core.run.
  apply (fold_preserves machine_ok); [intros; by apply poll_step_machine|].
  split; simpl; intros key; [constructor|by rewrite lookup_empty].
Qed.

Lemma poll_step_timed t st p :
  t <= poll_time p → ledger_timed t st →
  ledger_timed (poll_time p) (poll_step st p).
Proof.
  intros Ht Hst. unfold Core.poll_step.
  apply (fold_preserves (ledger_timed (poll_time p)));
    [intros; by apply (observe_present_timed (poll_time p))|].
  apply (fold_preserves (ledger_timed (poll_time p)));
    [intros; by apply (observe_absent_timed (poll_time p))|].
  by eapply ledger_timed_later.
Qed.

Lemma poll_step_grows st p : ledger st `prefix_of` ledger (poll_step st p).
Proof.
  unfold Core.poll_step.
  etrans; [|apply fold_grows; intros; apply ledger_grows_present].
  apply fold_grows. intros. apply ledger_grows_absent.
Qed.

Lemma fold_poll_timed polls t st :
  ledger_timed t st →
  Forall (λ p, t <= poll_time p) polls →
  StronglySorted Z.le (poll_time <$> polls) →
  ∃ t', ledger_timed t' (fold_left poll_step polls st).
Proof.
  revert t st. induction polls as [|p polls IH]; intros t st Hst Hfrom Hclock.
  { by exists t. }
  apply Forall_cons in Hfrom as [Hp _].
  rewrite fmap_cons in Hclock.
  apply StronglySorted_cons in Hclock as [Hlater Hclock]. simpl.
  apply (IH (poll_time p)); [by eapply poll_step_timed| |done].
  rewrite Forall_fmap in Hlater. exact Hlater.
Qed.

Lemma run_timed polls :
  StronglySorted Z.le (poll_time <$> polls) → ∃ t, ledger_timed t (run polls).
Proof.
  intros Hclock.
  assert (∀ t, ledger_timed t initial_store) as Hstart.
  { intros t. split; simpl; constructor. }
  destruct polls as [|p polls]; [by exists 0|].
  apply (fold_poll_timed _ (poll_time p)); [done| |done].
  pose proof Hclock as Hlater. rewrite fmap_cons in Hlater.
  apply StronglySorted_cons in Hlater as [Hlater _].
  constructor; [done|]. rewrite Forall_fmap in Hlater. exact Hlater.
Qed.

(** Every record carries the reading of the clock at one of the polls. *)
Lemma ledger_stamps polls :
  Forall (λ r, activity_timestamp r ∈ poll_time <$> polls) (ledger (run polls)).
Proof.
  unfold Core.run.
  assert (∀ seen rest st,
            Forall (λ r, activity_timestamp r ∈ seen) (ledger st) →
            Forall (λ r, activity_timestamp r ∈ seen ++ (poll_time <$> rest))
                   (ledger (fold_left poll_step rest st))) as Hfold.
  { intros seen rest. revert seen.
    induction rest as [|p rest IH]; intros seen st Hst; cbn [fold_left].
    - by rewrite fmap_nil, app_nil_r.
    - rewrite fmap_cons, (cons_middle _ seen), app_assoc. apply IH.
      unfold Core.poll_step.
      apply (fold_preserves
               (λ st, Forall (λ r, activity_timestamp r ∈ seen ++ [poll_time p])
                             (ledger st))).
      { intros st' r Hst'. unfold observe_present.
        destruct (presence st' !! identity r) as [[]|]; simpl; try done;
          unfold insert_activity; apply Forall_app;
          (split; [done|]); repeat constructor; simpl;
          apply elem_of_app; right; left. }
      apply (fold_preserves
               (λ st, Forall (λ r, activity_timestamp r ∈ seen ++ [poll_time p])
                             (ledger st))).
      { intros st' key Hst'. unfold observe_absent.
        destruct (presence st' !! key) as [[]|]; simpl; try done.
        unfold insert_activity. apply Forall_app.
        split; [done|]. repeat constructor. simpl.
        apply elem_of_app. right. left. }
      eapply Forall_impl; [exact Hst|]. simpl. intros r Hr.
      apply elem_of_app. by left. }
  apply (Hfold [] polls initial_store). constructor.
Qed.

End Ledger.



(** Scenario A of the design document, run: the blocked volume is
    registered under its fallback identity, and found again under it
    after it was gone. *)
Example scenarioA_run :
  (identity_key <$> devices (Core.run 2000000 Scenarios.disk_hash Scenarios.scenarioA))
    = ["DISK_E::16000000000"]%string
  ∧ (activity_kind <$> ledger (Core.run 2000000 Scenarios.disk_hash Scenarios.scenarioA))
      = [CONNECT; DISCONNECT; CONNECT].
Proof. by vm_compute. Qed.

End CoreFacts.

(** ** Text built-ins *)

Module TextFacts.
Import JsText.

Lemma append_cons c (a b : string) :
  (String c a +:+ b)%string = String c (a +:+ b).
Proof. reflexivity. Qed.

Lemma length_take_units n s :
  String.length (take_units n s) = Nat.min n (String.length s).
Proof.
  revert s. induction n as [|n IH]; intros [|c s]; simpl; try done.
  by rewrite IH.
Qed.

Lemma length_drop_units n s :
  String.length (drop_units n s) = (String.length s - n)%nat.
Proof.
  revert s. induction n as [|n IH]; intros [|c s]; simpl; try done.
Qed.

Lemma take_drop_units n s : (take_units n s +:+ drop_units n s)%string = s.
Proof.
  revert s. induction n as [|n IH]; intros [|c s]; simpl; try done.
  rewrite append_cons. f_equal. apply IH.
Qed.

Lemma length_append (a b : string) :
  String.length (a +:+ b) = (String.length a + String.length b)%nat.
Proof. induction a as [|c a IH]; [done|]. rewrite !append_cons. simpl. f_equal. apply IH. Qed.

Lemma append_assoc (a b c : string) :
  ((a +:+ b) +:+ c = a +:+ (b +:+ c))%string.
Proof. induction a as [|x a IH]; [done|]. rewrite !append_cons. f_equal. apply IH. Qed.

Lemma append_nil_r (a : string) : (a +:+ "")%string = a.
Proof. induction a as [|x a IH]; [done|]. rewrite !append_cons. f_equal. apply IH. Qed.

Lemma append_inv_head (a b c : string) : (a +:+ b = a +:+ c)%string → b = c.
Proof. induction a as [|x a IH]; [done|]. rewrite !append_cons. intros [=]. auto. Qed.

Lemma startsWith_spec t s :
  startsWith t s = true ↔ ∃ r, s = (t +:+ r)%string.
Proof.
  revert s. induction t as [|a t IH]; intros s; simpl.
  - split; [by exists s|done].
  - destruct s as [|b s]; [split; [done|by intros [r [=]]]|].
    rewrite andb_true_iff, IH. split.
    + intros [->%Ascii.eqb_eq [r ->]]. by exists r.
    + intros [r [= -> ->]]. split; [apply Ascii.eqb_refl|by exists r].
Qed.

Lemma includes_spec t s :
  includes t s = true ↔ ∃ a b, s = (a +:+ t +:+ b)%string.
Proof.
  induction s as [|c s IH]; simpl.
  - rewrite orb_false_r, startsWith_spec. split.
    + intros [r ->]. by exists EmptyString, r.
    + intros ([|x a] & b & Hs); [by exists b|done].
  - rewrite orb_true_iff, startsWith_spec, IH. split.
    + intros [[r ->]|(a & b & ->)].
      * by exists EmptyString, r.
      * by exists (String c a), b.
    + intros ([|x a] & b & Hs).
      * left. by exists b.
      * right. injection Hs as -> ->. by exists a, b.
Qed.

Lemma includes_refl s : includes s s = true.
Proof.
  apply includes_spec. exists EmptyString, EmptyString.
  by rewrite append_nil_r.
Qed.

Lemma includes_trans a b s :
  includes a b = true → includes b s = true → includes a s = true.
Proof.
  rewrite !includes_spec. intros (p & q & ->) (u & v & ->).
  exists (u +:+ p)%string, (q +:+ v)%string.
  by rewrite !append_assoc.
Qed.

Lemma clamp_index_inside len n :
  (n ≤ len)%nat → clamp_index len (Z.of_nat n) = n.
Proof. intros Hn. unfold clamp_index. lia. Qed.

Lemma take_units_all n s : (String.length s ≤ n)%nat → take_units n s = s.
Proof.
  revert s. induction n as [|n IH]; intros [|c s]; simpl; try done; [lia|].
  intros Hn. f_equal. apply IH. lia.
Qed.

Lemma substring_prefix n s :
  (n ≤ String.length s)%nat →
  substring 0 (Z.of_nat n) s = take_units n s.
Proof.
  intros Hn. unfold substring.
  rewrite (clamp_index_inside _ n) by done.
  change 0 with (Z.of_nat 0). rewrite (clamp_index_inside _ 0) by lia.
  by rewrite Nat.max_r, Nat.min_l, Nat.sub_0_r by lia.
Qed.

Lemma substring_suffix n s :
  (n ≤ String.length s)%nat →
  substring_from (Z.of_nat n) s = drop_units n s.
Proof.
  intros Hn. unfold substring_from, substring.
  rewrite (clamp_index_inside _ n), (clamp_index_inside _ (String.length s)) by lia.
  rewrite Nat.max_r, Nat.min_l by lia.
  apply take_units_all. rewrite length_drop_units. lia.
Qed.
End TextFacts.

(** ** The timeline of the device detail page *)

Module TimelineFacts.
Import DevicePage TimelinePage.

(** *** The nearest double *)

Lemma nearest_double_exact z :
  Z.abs z < 2 ^ 53 → JsNumber.nearest_double z = z.
Proof.
  intros Hz. unfold JsNumber.nearest_double.
  by destruct (Z.ltb_spec (Z.abs z) (2 ^ 53)); [|lia].
Qed.

Lemma nearest_double_sign z :
  (0 <= z → 0 <= JsNumber.nearest_double z)
  ∧ (z <= 0 → JsNumber.nearest_double z <= 0).
Proof.
  unfold JsNumber.nearest_double.
  destruct (Z.abs z <? 2 ^ 53); [done|].
  set (e := Z.log2 (Z.abs z) - 52).
  set (q := Z.abs z / 2 ^ e).
  set (r := Z.abs z mod 2 ^ e).
  assert (0 <= 2 ^ e) as Hpow by (apply Z.pow_nonneg; lia).
  assert (0 <= q) as Hq by (apply Z_div_nonneg_nonneg; lia).
  assert (0 <= (if r <? 2 ^ (e - 1) then q
                else if 2 ^ (e - 1) <? r then q + 1
                else if Z.even q then q else q + 1) * 2 ^ e) as Hm.
  { apply Z.mul_nonneg_nonneg; [|done].
    destruct (r <? 2 ^ (e - 1)); [done|].
    destruct (2 ^ (e - 1) <? r); [lia|]. destruct (Z.even q); lia. }
  split; intros Hz.
  - destruct (Z.sgn_spec z) as [[? ->]|[[? ->]|[? ->]]]; lia.
  - destruct (Z.sgn_spec z) as [[? ->]|[[? ->]|[? ->]]]; lia.
Qed.

(** *** [calculateDuration] *)

Lemma duration_parts (d : Z) :
  0 <= d →
  0 <= d / 3600000
  ∧ 0 <= Z.rem d 3600000 / 60000 < 60
  ∧ d / 60000 = 60 * (d / 3600000) + Z.rem d 3600000 / 60000.
Proof. intros Hd. Z.to_euclidean_division_equations. lia. Qed.

Lemma duration_parts_back (d : Z) :
  d <= 0 →
  d / 3600000 <= 0 ∧ -60 <= Z.rem d 3600000 / 60000 <= 0.
Proof. intros Hd. Z.to_euclidean_division_equations. lia. Qed.

Lemma rem_whole_hours (d k : Z) :
  d <= 0 → 0 <= k → Z.rem (d - 3600000 * k) 3600000 = Z.rem d 3600000.
Proof. intros Hd Hk. Z.to_euclidean_division_equations. lia. Qed.

(** X1. For two dates of which the end is not before the start,
    [calculateDuration] splits the whole minutes of the gap, as the
    subtraction of the two doubles gives it, into hours and minutes below
    60, and leaves the hours out when there are none. The gap is the
    exact difference of the two time values when that is below 2^53
    milliseconds. *)
Theorem calculateDuration_forward (start stop : Z)
    (Hstart : JsNumber.time_value start) (Hstop : JsNumber.time_value stop)
    (Horder : start <= stop) :
  ∃ hours minutes,
    0 <= hours ∧ 0 <= minutes < 60
    ∧ JsNumber.nearest_double (stop - start) / 60000 = 60 * hours + minutes
    ∧ (stop - start < 2 ^ 53 →
       (stop - start) / 60000 = 60 * hours + minutes)
    ∧ calculateDuration (Some start) (Some stop)
        = if 0 <? hours
          then (JsText.toString hours +:+ "h " +:+ JsText.toString minutes +:+ "m")%string
          else (JsText.toString minutes +:+ "m")%string.
Proof.
  set (gap := JsNumber.nearest_double (stop - start)).
  exists (gap / 3600000), (Z.rem gap 3600000 / 60000).
  assert (0 <= gap) as Hgap by (apply nearest_double_sign; lia).
  destruct (duration_parts gap Hgap) as (Hh & Hm & Htotal).
  split_and!; [lia..|done| |done].
  intros Hsmall. rewrite <- Htotal. unfold gap.
  rewrite nearest_double_exact; [done|lia].
Qed.

Lemma calculateDuration_forward_witness :
  JsNumber.time_value (-8640000000000000)
  ∧ JsNumber.time_value 8639999999999999
  ∧ -8640000000000000 <= 8639999999999999
  ∧ calculateDuration (Some (-8640000000000000)) (Some 8639999999999999)
      = "4800000000h 0m"%string
  ∧ ∃ hours minutes,
      0 <= hours ∧ 0 <= minutes < 60
      ∧ JsNumber.nearest_double (8639999999999999 - -8640000000000000) / 60000
          = 60 * hours + minutes
      ∧ (8639999999999999 - -8640000000000000 < 2 ^ 53 →
         (8639999999999999 - -8640000000000000) / 60000 = 60 * hours + minutes)
      ∧ calculateDuration (Some (-8640000000000000)) (Some 8639999999999999)
          = if 0 <? hours
            then (JsText.toString hours +:+ "h " +:+ JsText.toString minutes +:+ "m")%string
            else (JsText.toString minutes +:+ "m")%string.
Proof.
  assert (JsNumber.time_value (-8640000000000000)) as Hstart
    by (unfold JsNumber.time_value; lia).
  assert (JsNumber.time_value 8639999999999999) as Hstop
    by (unfold JsNumber.time_value; lia).
  assert (-8640000000000000 <= 8639999999999999) as Horder by lia.
  split; [exact Hstart|]. split; [exact Hstop|]. split; [exact Horder|].
  split; [by vm_compute|].
  exact (calculateDuration_forward _ _ Hstart Hstop Horder).
Defined.

Lemma calculateDuration_back (start stop : Z) :
  stop <= start →
  calculateDuration (Some start) (Some stop)
    = (JsText.toString
         (Z.rem (JsNumber.nearest_double (stop - start)) 3600000 / 60000)
       +:+ "m")%string.
Proof.
  intros Hs. unfold calculateDuration.
  assert (JsNumber.nearest_double (stop - start) <= 0) as Hgap
    by (apply nearest_double_sign; lia).
  destruct (duration_parts_back _ Hgap) as [Hh _].
  by destruct (Z.ltb_spec 0 (JsNumber.nearest_double (stop - start) / 3600000));
    [lia|].
Qed.

Lemma calculateDuration_back_minutes (start stop : Z) :
  stop <= start →
  ∃ minutes,
    -60 <= minutes <= 0
    ∧ calculateDuration (Some start) (Some stop)
      = (JsText.toString minutes +:+ "m")%string.
Proof.
  intros Hs.
  exists (Z.rem (JsNumber.nearest_double (stop - start)) 3600000 / 60000).
  assert (JsNumber.nearest_double (stop - start) <= 0) as Hgap
    by (apply nearest_double_sign; lia).
  destruct (duration_parts_back _ Hgap) as [_ Hm].
  split; [done|]. by apply calculateDuration_back.
Qed.

(** X2. For two dates of which the end is not after the start,
    [calculateDuration] never shows hours: the text is a count of minutes
    between -60 and 0. Whole hours added to a gap do not change the text
    as long as the gap stays below 2^53 milliseconds, where the
    subtraction of the two doubles is exact. *)
Theorem calculateDuration_backward (start stop : Z)
    (Hstart : JsNumber.time_value start) (Hstop : JsNumber.time_value stop)
    (Horder : stop <= start) :
  (∃ minutes,
     -60 <= minutes <= 0
     ∧ calculateDuration (Some start) (Some stop)
       = (JsText.toString minutes +:+ "m")%string)
  ∧ ∀ k, 0 <= k → start + 3600000 * k - stop < 2 ^ 53 →
      calculateDuration (Some (start + 3600000 * k)) (Some stop)
        = calculateDuration (Some start) (Some stop).
Proof.
  split; [by apply calculateDuration_back_minutes|].
  intros k Hk Hsmall. rewrite !calculateDuration_back by lia.
  rewrite !nearest_double_exact by lia.
  replace (stop - (start + 3600000 * k)) with (stop - start - 3600000 * k) by lia.
  rewrite rem_whole_hours by lia. done.
Qed.

Lemma calculateDuration_backward_witness :
  JsNumber.time_value 9000000 ∧ JsNumber.time_value 0 ∧ 0 <= 9000000
  ∧ calculateDuration (Some 9000000) (Some 0) = "-30m"%string
  ∧ calculateDuration (Some (9000000 + 3600000 * 5)) (Some 0)
      = calculateDuration (Some 9000000) (Some 0).
Proof.
  assert (JsNumber.time_value 9000000) as Hstart
    by (unfold JsNumber.time_value; lia).
  assert (JsNumber.time_value 0) as Hstop by (unfold JsNumber.time_value; lia).
  assert (0 <= 9000000) as Horder by lia.
  split; [exact Hstart|]. split; [exact Hstop|]. split; [exact Horder|].
  split; [reflexivity|].
  apply (proj2 (calculateDuration_backward 9000000 0 Hstart Hstop Horder) 5);
    [lia|by vm_compute].
Defined.

(** Beyond 2^53 milliseconds the subtraction rounds: a gap of
    4,799,999,999 hours and one millisecond and the same gap with
    4,799,999,999 hours less do not give the same text. *)
Example calculateDuration_rounds :
  calculateDuration (Some 8640000000000000) (Some (-8639999996400001))
    = "0m"%string
  ∧ calculateDuration (Some (8640000000000000 - 3600000 * 4799999999))
                      (Some (-8639999996400001))
    = "-1m"%string.
Proof. by vm_compute. Qed.

Section Dates.
Context (getTime : string → option Z).

Lemma timelineEvents_lookup scans i scan :
  scans !! i = Some scan →
  timelineEvents getTime scans !! i = Some (toTimelineEvent getTime scans i scan).
Proof.
  intros Hi. unfold timelineEvents. by rewrite list_lookup_imap, Hi.
Qed.

(** X3. The timeline has one event for each scan, in the order of the
    scans and with the id and timestamp of its scan; the last event has
    no duration, and every other event has the duration from its own
    date to the date of the scan that follows it in the list, which is
    "NaNm" when [Date] cannot read one of the two timestamps. *)
Theorem timelineEvents_shape (scans : list DeviceScan) :
  length (timelineEvents getTime scans) = length scans
  ∧ (id <$> timelineEvents getTime scans) = (activity_id <$> scans)
  ∧ (timestamp <$> timelineEvents getTime scans) = (scan_timestamp <$> scans)
  ∧ (∀ i e, timelineEvents getTime scans !! i = Some e →
       S i = length scans → duration e = None)
  ∧ (∀ i e scan next,
       timelineEvents getTime scans !! i = Some e →
       scans !! i = Some scan → scans !! S i = Some next →
       duration e
         = Some (calculateDuration (getTime (scan_timestamp scan))
                                   (getTime (scan_timestamp next)))
       ∧ (getTime (scan_timestamp scan) = None
          ∨ getTime (scan_timestamp next) = None →
          duration e = Some "NaNm"%string)).
Proof.
  unfold timelineEvents. split_and!.
  - apply length_imap.
  - rewrite fmap_imap. simpl. apply imap_const.
  - rewrite fmap_imap. simpl. apply imap_const.
  - intros i e He Hlast. rewrite list_lookup_imap in He.
    destruct (scans !! i) as [scan|]; [|done]. injection He as <-. simpl.
    by destruct (Z.ltb_spec (Z.of_nat i) (Z.of_nat (length scans) - 1)); [lia|].
  - intros i e scan next He Hscan Hnext. rewrite list_lookup_imap, Hscan in He.
    injection He as <-. simpl. rewrite Hnext. simpl.
    apply lookup_lt_Some in Hnext.
    destruct (Z.ltb_spec (Z.of_nat i) (Z.of_nat (length scans) - 1)); [|lia].
    split; [done|]. intros [->| ->]; [done|].
    by destruct (getTime (scan_timestamp scan)).
Qed.

(** X4. When the scans are listed newest first, as [loadDeviceData]
    takes them to be, no event of the timeline shows a positive
    duration: every duration is a count of minutes between -60 and 0,
    without hours. *)
Theorem timelineEvents_newest_first (scans : list DeviceScan)
    (Hnewest : StronglySorted
                 (λ a b, ∃ ta tb,
                    getTime (scan_timestamp a) = Some ta
                    ∧ getTime (scan_timestamp b) = Some tb ∧ tb <= ta)
                 scans) :
  Forall (λ e, ∀ text, duration e = Some text →
            ∃ minutes, -60 <= minutes <= 0
                       ∧ text = (JsText.toString minutes +:+ "m")%string)
         (timelineEvents getTime scans).
Proof.
  apply Forall_lookup. intros i e He text Htext.
  unfold timelineEvents in He. rewrite list_lookup_imap in He.
  destruct (scans !! i) as [scan|] eqn:Hscan; [|done].
  injection He as <-. simpl in Htext.
  destruct (Z.of_nat i <? Z.of_nat (length scans) - 1); [|done].
  destruct (scans !! S i) as [next|] eqn:Hnext; [|done].
  injection Htext as <-.
  destruct (CoreFacts.sorted_lookup _ scans i (S i) scan next Hnewest)
    as (ta & tb & -> & -> & Horder); [lia|done..|].
  by apply calculateDuration_back_minutes.
Qed.
End Dates.

Lemma timelineEvents_newest_first_witness :
  StronglySorted
    (λ a b, ∃ ta tb,
       Samples.getTime (scan_timestamp a) = Some ta
       ∧ Samples.getTime (scan_timestamp b) = Some tb ∧ tb <= ta)
    Samples.scans
  ∧ (duration <$> timelineEvents Samples.getTime Samples.scans)
      = [Some "-30m"; Some "-15m"; None]%string
  ∧ Forall (λ e, ∀ text, duration e = Some text →
              ∃ minutes, -60 <= minutes <= 0
                         ∧ text = (JsText.toString minutes +:+ "m")%string)
           (timelineEvents Samples.getTime Samples.scans).
Proof.
  assert (StronglySorted
            (λ a b, ∃ ta tb,
               Samples.getTime (scan_timestamp a) = Some ta
               ∧ Samples.getTime (scan_timestamp b) = Some tb ∧ tb <= ta)
            Samples.scans) as Hnewest.
  { repeat constructor; eexists _, _; (split; [reflexivity|]);
      (split; [reflexivity|]); by vm_compute. }
  split_and!; [exact Hnewest|reflexivity|].
  exact (timelineEvents_newest_first Samples.getTime Samples.scans Hnewest).
Defined.

Section Backend.
Context (collator : Js.Collator).
Context (invokeScans : Invocation → option DeviceScansResponse).
Context (invoke : Invocation → option DeviceFilesResponse).
Local Notation "'loadDeviceData'" :=
  (TimelinePage.loadDeviceData collator invokeScans invoke).

(** X5. When the request for the scans is rejected or answered without
    success, [loadDeviceData] clears the loading flag and changes
    nothing else. When it is answered with scans, the page holds them,
    the first of them is the selected session, the Timeline marks as
    selected exactly the events with that id, the first event among
    them, and the request for the files has been settled. *)
Theorem loadDeviceData_outcomes (st : State) :
  ((invokeScans (loadDeviceData_invocation st) = None
    ∨ (∃ r, invokeScans (loadDeviceData_invocation st) = Some r
            ∧ scans_success r = false)) →
   loadDeviceData st
     = {| files := files st; scans := scans st; isLoadingDevice := false;
          totalSessions := totalSessions st;
          totalFilesScanned := totalFilesScanned st;
          totalFoldersScanned := totalFoldersScanned st |})
  ∧ (∀ r first rest getTime,
       invokeScans (loadDeviceData_invocation st) = Some r →
       scans_success r = true →
       response_scans r = first :: rest →
       let st' := loadDeviceData st in
       scans st' = first :: rest
       ∧ totalSessions st' = Z.of_nat (length (timelineEvents getTime (scans st')))
       ∧ selectedActivityId (files st') = activity_id first
       ∧ (∀ e, e ∈ timelineEvents getTime (scans st') →
            isSelected (selectedActivityId (files st')) e = true
            ↔ id e = activity_id first)
       ∧ (isSelected (selectedActivityId (files st'))
            <$> head (timelineEvents getTime (scans st'))) = Some true
       ∧ isLoadingDevice st' = false
       ∧ isLoadingFiles (files st') = false).
Proof.
  split.
  - unfold TimelinePage.loadDeviceData. intros [->|(r & -> & ->)]; done.
  - intros r first rest getTime Hr Hsuccess Hscans st'. subst st'.
    unfold TimelinePage.loadDeviceData. rewrite Hr, Hsuccess, Hscans. simpl.
    split_and!; try done.
    + unfold timelineEvents. by rewrite length_imap.
    + intros e _. unfold isSelected. rewrite Z.eqb_eq. split; done.
    + unfold isSelected. simpl. by rewrite Z.eqb_refl.
Qed.
End Backend.
End TimelineFacts.

(** ** The search of the Device Vault page *)

Module VaultPageFacts.
Import JsText TextFacts VaultPage.

Lemma every_unit_append p (a b : string) :
  every_unit p (a +:+ b) = every_unit p a && every_unit p b.
Proof.
  induction a as [|c a IH]; [done|].
  rewrite append_cons. simpl. by rewrite IH, andb_assoc.
Qed.

Lemma every_unit_includes p t s :
  includes t s = true → every_unit p s = true → every_unit p t = true.
Proof.
  rewrite includes_spec. intros (a & b & ->).
  rewrite !every_unit_append, !andb_true_iff. tauto.
Qed.

Lemma trimStart_empty s :
  trimStart s = EmptyString ↔ every_unit whitespace s = true.
Proof.
  induction s as [|c s IH]; simpl; [done|].
  destruct (whitespace c); simpl; [done|]. split; done.
Qed.

Lemma trimEnd_empty s :
  trimEnd s = EmptyString ↔ every_unit whitespace s = true.
Proof.
  induction s as [|c s IH]; simpl; [done|].
  destruct (trimEnd s) as [|x t] eqn:Ht.
  - destruct (whitespace c); simpl; [|split; done].
    rewrite <- IH. done.
  - split; [done|]. rewrite andb_true_iff. intros [_ Hs].
    by apply IH in Hs.
Qed.

Lemma trimStart_head s :
  trimStart s = EmptyString
  ∨ ∃ c t, trimStart s = String c t ∧ whitespace c = false.
Proof.
  induction s as [|c s IH]; simpl; [by left|].
  destruct (whitespace c) eqn:Hc; [done|]. right. by exists c, s.
Qed.

(** [!s.trim()] holds exactly of the strings of white space. *)
Lemma trim_blank s :
  Js.truthy (trim s) = false ↔ every_unit whitespace s = true.
Proof.
  assert (∀ t, Js.truthy t = false ↔ t = EmptyString) as Htruthy.
  { intros [|??]; simpl; split; done. }
  rewrite Htruthy. unfold trim. rewrite trimEnd_empty.
  destruct (trimStart_head s) as [Hs|(c & t & Hs & Hc)].
  - rewrite Hs. simpl. rewrite <- trimStart_empty. done.
  - rewrite Hs. simpl. rewrite Hc. simpl. rewrite <- trimStart_empty, Hs.
    split; done.
Qed.

Lemma whitespace_lower_unit c : whitespace (Js.lower_unit c) = whitespace c.
Proof. by destruct c as [[|] [|] [|] [|] [|] [|] [|] [|]]. Qed.

(** Lower case does not make white space, nor unmake it. *)
Lemma blank_toLowerCase s :
  every_unit whitespace (Js.toLowerCase s) = every_unit whitespace s.
Proof.
  induction s as [|c s IH]; simpl; [done|].
  by rewrite whitespace_lower_unit, IH.
Qed.

Lemma field_includes_narrow q1 q2 field :
  includes q1 q2 = true →
  field_includes q2 field = true → field_includes q1 field = true.
Proof. intros Hq. destruct field; simpl; [|done]. by apply includes_trans. Qed.

Lemma matches_narrow q1 q2 d :
  includes q1 q2 = true → matches q2 d = true → matches q1 d = true.
Proof.
  intros Hq. unfold matches. rewrite !orb_true_iff.
  intros [[[[H|H]|H]|H]|H].
  - left; left; left; left. by apply (field_includes_narrow q1 q2).
  - left; left; left; right. by apply (field_includes_narrow q1 q2).
  - left; left; right. by apply (includes_trans q1 q2).
  - left; right. by apply (includes_trans q1 q2).
  - right. by apply (includes_trans q1 q2).
Qed.

Lemma filter_sublist {A} (p q : A → bool) (l : list A) :
  (∀ x, p x = true → q x = true) →
  List.filter p l `sublist_of` List.filter q l.
Proof.
  intros Hpq. induction l as [|x l IH]; simpl; [done|].
  destruct (p x) eqn:Hp.
  - rewrite (Hpq x Hp). by constructor.
  - destruct (q x); [by constructor|done].
Qed.

Lemma filter_sublist_all {A} (p : A → bool) (l : list A) :
  List.filter p l `sublist_of` l.
Proof.
  induction l as [|x l IH]; simpl; [done|].
  destruct (p x); by constructor.
Qed.

(** X6. Typing more narrows the search: when the query [q1] in lower
    case occurs in the query [q2] in lower case, the devices listed for
    [q2] are among the devices listed for [q1], in the same order; and
    the devices listed for any query are among the registered devices,
    in their order. *)
Theorem filterDevices_narrows (q1 q2 : string) (devices : list Device) :
  includes (Js.toLowerCase q1) (Js.toLowerCase q2) = true →
  filterDevices q2 devices `sublist_of` filterDevices q1 devices
  ∧ filterDevices q1 devices `sublist_of` devices.
Proof.
  intros Hq. split.
  - unfold filterDevices.
    destruct (Js.truthy (trim q2)) eqn:H2; simpl.
    + destruct (Js.truthy (trim q1)) eqn:H1; simpl.
      * apply filter_sublist. intros d. by apply matches_narrow.
      * apply filter_sublist_all.
    + apply trim_blank in H2. rewrite <- blank_toLowerCase in H2.
      apply (every_unit_includes _ _ _ Hq) in H2.
      rewrite blank_toLowerCase in H2. apply trim_blank in H2.
      by rewrite H2.
  - unfold filterDevices.
    destruct (negb (Js.truthy (trim q1))); [done|apply filter_sublist_all].
Qed.

Lemma filterDevices_narrows_witness :
  includes (Js.toLowerCase "ABC") (Js.toLowerCase "sn-abc") = true
  ∧ filterDevices "sn-abc" Samples.registry = [Samples.kingston]
  ∧ filterDevices "sn-abc" Samples.registry
      `sublist_of` filterDevices "ABC" Samples.registry
  ∧ filterDevices "ABC" Samples.registry `sublist_of` Samples.registry.
Proof.
  assert (includes (Js.toLowerCase "ABC") (Js.toLowerCase "sn-abc") = true)
    as Hq by reflexivity.
  split; [exact Hq|]. split; [reflexivity|].
  exact (filterDevices_narrows "ABC" "sn-abc" Samples.registry Hq).
Defined.

(** X7. The search does not look at the case of the letters of the
    serial number: a registered device is listed for every query whose
    lower case is the lower case of its serial number, and a query of
    white space alone lists every registered device. *)
Theorem filterDevices_finds_serial (query : string) (devices : list Device)
    (d : Device) :
  d ∈ devices →
  Js.toLowerCase query = Js.toLowerCase (serial_number d)
  ∨ every_unit whitespace query = true →
  d ∈ filterDevices query devices.
Proof.
  intros Hd Hquery. unfold filterDevices.
  destruct (Js.truthy (trim query)) eqn:Htrim; simpl; [|done].
  destruct Hquery as [Hquery|Hblank].
  - apply list_elem_of_In, filter_In. split; [by apply list_elem_of_In|].
    unfold matches. rewrite Hquery, includes_refl.
    by rewrite !orb_true_r.
  - apply trim_blank in Hblank. congruence.
Qed.

Lemma filterDevices_finds_serial_witness :
  Samples.kingston ∈ Samples.registry
  ∧ (Js.toLowerCase "sn-ABC123" = Js.toLowerCase (serial_number Samples.kingston)
     ∨ every_unit whitespace "sn-ABC123" = true)
  ∧ Samples.kingston ∈ filterDevices "sn-ABC123" Samples.registry.
Proof.
  assert (Samples.kingston ∈ Samples.registry) as Hd by apply list_elem_of_here.
  assert (Js.toLowerCase "sn-ABC123" = Js.toLowerCase (serial_number Samples.kingston)
          ∨ every_unit whitespace "sn-ABC123" = true) as Hq
    by (left; reflexivity).
  split_and!; [exact Hd|exact Hq|].
  exact (filterDevices_finds_serial "sn-ABC123" Samples.registry
           Samples.kingston Hd Hq).
Defined.

End VaultPageFacts.

(** ** The DeviceTable component *)

Module DeviceTableFacts.
Import JsText TextFacts DeviceTable.

Lemma formatSerial_long serial :
  (16 < String.length serial)%nat →
  formatSerial serial
    = (take_units 8 serial +:+ "..."
       +:+ drop_units (String.length serial - 4) serial)%string.
Proof.
  intros Hlen. unfold formatSerial.
  destruct (Nat.leb_spec (String.length serial) 16) as [?|_]; [lia|].
  change 8 with (Z.of_nat 8). rewrite substring_prefix by lia.
  replace (Z.of_nat (String.length serial) - 4)
    with (Z.of_nat (String.length serial - 4)) by lia.
  by rewrite substring_suffix by lia.
Qed.

(** X8. [formatSerial] returns a serial number of at most 16 code units
    as it is; a longer one becomes its first 8 code units, three dots and
    its last 4 code units, 15 code units in all. The result is never
    longer than 16 code units. *)
Theorem formatSerial_shape (serial : string) :
  (String.length (formatSerial serial) ≤ 16)%nat
  ∧ ((String.length serial ≤ 16)%nat → formatSerial serial = serial)
  ∧ ((16 < String.length serial)%nat →
     formatSerial serial
       = (take_units 8 serial +:+ "..."
          +:+ drop_units (String.length serial - 4) serial)%string
     ∧ String.length (formatSerial serial) = 15%nat).
Proof.
  assert ((16 < String.length serial)%nat →
          String.length (formatSerial serial) = 15%nat) as Hlong.
  { intros Hlen. rewrite formatSerial_long by done.
    rewrite !length_append, length_take_units, length_drop_units.
    change (String.length "...") with 3%nat. lia. }
  split_and!.
  - destruct (Nat.leb_spec (String.length serial) 16) as [Hle|Hlt].
    + unfold formatSerial.
      by destruct (Nat.leb_spec (String.length serial) 16); [|lia].
    + rewrite Hlong by done. lia.
  - intros Hle. unfold formatSerial.
    by destruct (Nat.leb_spec (String.length serial) 16); [|lia].
  - intros Hlen. split; [by apply formatSerial_long|by apply Hlong].
Qed.

Lemma hex4_reads_back_from_spec count v k :
  hex4_reads_back_from count v = true →
  v <= k < v + Z.of_nat count → hex4_reads_back k = true.
Proof.
  revert v. induction count as [|count IH]; intros v; simpl; [lia|].
  rewrite andb_true_iff. intros [Hv Hrest] Hk.
  destruct (decide (k = v)) as [->|Hne]; [done|].
  apply (IH (v + 1)); [done|lia].
Qed.

Lemma hex4_reads_back_all :
  hex4_reads_back_from (Z.to_nat 65536) 0 = true.
Proof. vm_compute. reflexivity. Qed.

Lemma hex4_16bit v :
  0 <= v < 65536 →
  String.length (hex4 v) = 4%nat ∧ read_hex (hex4 v) = Some v.
Proof.
  intros Hv.
  pose proof (hex4_reads_back_from_spec _ _ v hex4_reads_back_all) as Hback.
  rewrite Z2Nat.id in Hback by lia. specialize (Hback ltac:(lia)).
  unfold hex4_reads_back in Hback.
  rewrite andb_true_iff, Nat.eqb_eq in Hback.
  destruct Hback as [Hlen Hread]. split; [done|].
  destruct (read_hex (hex4 v)) as [w|]; [|done].
  by apply Z.eqb_eq in Hread as ->.
Qed.

(** X9. For a row without a manufacturer (undefined or empty) and with a
    vendor id [v] of 16 bits, [getManufacturer] answers "VID: " followed
    by exactly four upper-case hexadecimal digits whose value is [v];
    a row with a manufacturer shows that manufacturer. *)
Theorem getManufacturer_vid (device : Row) (v : Z) :
  Js.or_else (manufacturer device) None = None →
  vendor_id device = Some v →
  0 <= v < 65536 →
  ∃ digits, getManufacturer device = Some ("VID: " +:+ digits)%string
            ∧ String.length digits = 4%nat
            ∧ read_hex digits = Some v.
Proof.
  intros Hm Hv Hrange. exists (hex4 v).
  unfold getManufacturer. rewrite Hm, Hv. simpl.
  split; [done|]. by apply hex4_16bit.
Qed.

Lemma getManufacturer_vid_witness :
  let device :=
    {| serial_number := "SN-AbC123"; vendor_id := Some 2385;
       product_id := Some 5734; name := None; manufacturer := Some ""%string;
       total_capacity := None; last_seen := None; capacity := None |} in
  Js.or_else (manufacturer device) None = None
  ∧ vendor_id device = Some 2385
  ∧ 0 <= 2385 < 65536
  ∧ getManufacturer device = Some "VID: 0951"%string
  ∧ ∃ digits, getManufacturer device = Some ("VID: " +:+ digits)%string
              ∧ String.length digits = 4%nat
              ∧ read_hex digits = Some 2385.
Proof.
  intros device.
  assert (Js.or_else (manufacturer device) None = None) as Hm by reflexivity.
  assert (vendor_id device = Some 2385) as Hv by reflexivity.
  assert (0 <= 2385 < 65536) as Hrange by lia.
  split; [exact Hm|]. split; [exact Hv|]. split; [exact Hrange|].
  split; [reflexivity|].
  exact (getManufacturer_vid device 2385 Hm Hv Hrange).
Defined.

Section VaultRows.
Context (unitIndex : option Z → option nat) (rounded : option Z → string).
Context (formatDate : option string → string).
Local Notation "'vaultRow'" :=
  (DeviceTable.vaultRow unitIndex rounded formatDate).

(** X10. For the rows that the Device Vault page hands to the table:
    [getManufacturer] never fails and shows the manufacturer, or
    "Unknown" when the device has none, never a vendor id;
    [getDisplayName] shows the name, or "Unknown Device" when the
    device has none; and the capacity cell, which formats
    [total_capacity] and not the [capacity] that the page computed, is
    "Unknown" for every device, whatever its capacity. *)
Theorem vaultRow_cells (d : VaultPage.Device) :
  getManufacturer (vaultRow d)
    = Some (default "Unknown"%string
              (Js.or_else (VaultPage.manufacturer d) None))
  ∧ getDisplayName (vaultRow d)
    = default "Unknown Device"%string (Js.or_else (VaultPage.name d) None)
  ∧ formatBytes unitIndex rounded (total_capacity (vaultRow d))
    = "Unknown"%string.
Proof.
  split_and!; [| |done].
  - unfold getManufacturer. simpl.
    destruct (VaultPage.manufacturer d) as [[|c m]|]; done.
  - unfold getDisplayName. simpl.
    destruct (VaultPage.name d) as [[|c m]|]; done.
Qed.
End VaultRows.

(** X11. [formatBytes] of the table answers "Unknown" exactly for an
    undefined capacity; a capacity of 0 is shown as "0 Bytes" (the
    [formatBytes] of the Device Vault page shows it as "Unknown"). *)
Theorem formatBytes_unknown_only_undefined (unitIndex : option Z → option nat)
    (rounded : option Z → string) (bytes : option Z) :
  (formatBytes unitIndex rounded bytes = "Unknown"%string ↔ bytes = None)
  ∧ formatBytes unitIndex rounded (Some 0) = "0 Bytes"%string
  ∧ Vault.formatBytes unitIndex rounded (Some 0) = "Unknown"%string.
Proof.
  split_and!; [|done|done].
  destruct bytes as [b|]; simpl; [|done].
  destruct (Z.eqb_spec b 0) as [->|Hb]; [done|].
  split; [|done]. intros Heq. by apply VaultFacts.scaled_not_unknown in Heq.
Qed.

End DeviceTableFacts.

(** ** The navigation of the Sidebar *)

Module SidebarFacts.
Import JsText TextFacts Sidebar.

Lemma startsWith_append t r : startsWith t (t +:+ r) = true.
Proof. apply startsWith_spec. by exists r. Qed.

Lemma activeItems_unfold route :
  activeItems route
    = (if String.eqb route "/"
       then [ {| label := "Dashboard"; href := "/"; exact := Some true |} ]
       else [])
      ++ (if startsWith "/devices" route
          then [ {| label := "Device Vault"; href := "/devices"; exact := None |} ]
          else [])
      ++ (if startsWith "/system" route
          then [ {| label := "System"; href := "/system"; exact := None |} ]
          else []).
Proof.
  unfold activeItems, navItems, isActive.
  cbn [List.filter href exact from_option id].
  destruct (String.eqb route "/"), (startsWith "/devices" route),
    (startsWith "/system" route); reflexivity.
Qed.

(** X12. For every route the Sidebar marks at most one of its items as
    active. The Dashboard item is active for the route "/" alone, and
    the Device Vault item, alone, for every route that begins with
    "/devices", the page of a device among them. *)
Theorem activeItems_at_most_one (route : string) :
  (length (activeItems route) ≤ 1)%nat
  ∧ ("Dashboard"%string ∈ label <$> activeItems route ↔ route = "/"%string)
  ∧ (∀ rest, label <$> activeItems ("/devices" +:+ rest)
             = ["Device Vault"%string]).
Proof.
  split_and!.
  - rewrite activeItems_unfold.
    destruct (String.eqb_spec route "/") as [->|Hroot]; [done|].
    destruct (startsWith "/devices" route) eqn:Hdevices;
      destruct (startsWith "/system" route) eqn:Hsystem; simpl; try lia.
    apply startsWith_spec in Hdevices as [r ->].
    apply startsWith_spec in Hsystem as [r' [=]].
  - rewrite activeItems_unfold.
    destruct (String.eqb_spec route "/") as [->|Hroot].
    + split; [done|]. intros _. simpl. apply list_elem_of_here.
    + split; [|done].
      destruct (startsWith "/devices" route), (startsWith "/system" route);
        cbn [app fmap list_fmap label]; intros Hin;
        repeat apply elem_of_cons in Hin as [[=]|Hin];
        by apply elem_of_nil in Hin.
  - intros rest. rewrite activeItems_unfold.
    rewrite startsWith_append. done.
Qed.

End SidebarFacts.

(** ** The first pages: [formatDevice] *)

Module LegacyPageFacts.
Import JsText LegacyPage.

Lemma or_chain (a b : option string) (c : string) :
  (∀ n, a = Some n → n ≠ ""%string → or_default (Js.or_else a b) c = n)
  ∧ (∀ m, FeedFacts.unnamed a → b = Some m → m ≠ ""%string →
       or_default (Js.or_else a b) c = m)
  ∧ (FeedFacts.unnamed a → FeedFacts.unnamed b →
     or_default (Js.or_else a b) c = c).
Proof.
  split_and!.
  - intros n -> Hn. by destruct n.
  - intros m [->| ->] -> Hm; by destruct m.
  - by intros [->| ->] [->| ->].
Qed.

(** X23. For a device whose vendor id and product id are numbers of 16
    bits, [formatDevice] answers the label of the device followed by
    " (VID: ", four upper-case hexadecimal digits whose value is the
    vendor id, ", PID: ", four such digits whose value is the product
    id, and ")". The label is the product name when there is one that
    is not empty; or else the manufacturer name when there is one that
    is not empty; or else "Device " and the id. *)
Theorem formatDevice_shape (device : UsbDevice) :
  0 <= vendor_id device < 65536 →
  0 <= product_id device < 65536 →
  ∃ label vid pid,
    formatDevice device
      = (label +:+ " (VID: " +:+ vid +:+ ", PID: " +:+ pid +:+ ")")%string
    ∧ String.length vid = 4%nat ∧ read_hex vid = Some (vendor_id device)
    ∧ String.length pid = 4%nat ∧ read_hex pid = Some (product_id device)
    ∧ (∀ n, product_name device = Some n → n ≠ ""%string → label = n)
    ∧ (∀ m, FeedFacts.unnamed (product_name device) →
         manufacturer_name device = Some m → m ≠ ""%string → label = m)
    ∧ (FeedFacts.unnamed (product_name device) →
       FeedFacts.unnamed (manufacturer_name device) →
       label = ("Device " +:+ toString (id device))%string).
Proof.
  intros Hvid Hpid.
  exists (or_default
            (Js.or_else (product_name device) (manufacturer_name device))
            ("Device " +:+ toString (id device))%string),
         (DeviceTable.hex4 (vendor_id device)),
         (DeviceTable.hex4 (product_id device)).
  destruct (DeviceTableFacts.hex4_16bit _ Hvid) as [? ?].
  destruct (DeviceTableFacts.hex4_16bit _ Hpid) as [? ?].
  destruct (or_chain (product_name device) (manufacturer_name device)
              ("Device " +:+ toString (id device))%string) as (? & ? & ?).
  by split_and!.
Qed.

Lemma formatDevice_shape_witness :
  let device :=
    {| id := 7; vendor_id := 2385; product_id := 5734;
       product_name := None; manufacturer_name := Some ""%string |} in
  0 <= vendor_id device < 65536
  ∧ 0 <= product_id device < 65536
  ∧ formatDevice device = "Device 7 (VID: 0951, PID: 1666)"%string
  ∧ ∃ label vid pid,
      formatDevice device
        = (label +:+ " (VID: " +:+ vid +:+ ", PID: " +:+ pid +:+ ")")%string
      ∧ String.length vid = 4%nat ∧ read_hex vid = Some (vendor_id device)
      ∧ String.length pid = 4%nat ∧ read_hex pid = Some (product_id device)
      ∧ (∀ n, product_name device = Some n → n ≠ ""%string → label = n)
      ∧ (∀ m, FeedFacts.unnamed (product_name device) →
           manufacturer_name device = Some m → m ≠ ""%string → label = m)
      ∧ (FeedFacts.unnamed (product_name device) →
         FeedFacts.unnamed (manufacturer_name device) →
         label = ("Device " +:+ toString (id device))%string).
Proof.
  intros device.
  assert (0 <= vendor_id device < 65536) as Hvid by (simpl; lia).
  assert (0 <= product_id device < 65536) as Hpid by (simpl; lia).
  split; [exact Hvid|]. split; [exact Hpid|]. split; [reflexivity|].
  exact (formatDevice_shape device Hvid Hpid).
Defined.

(** [getDisplayName] of the device table has the same chain: a row
    whose name is undefined and whose manufacturer is empty is shown as
    "Device " and the first 8 code units of its serial number. *)
Example getDisplayName_fallback :
  DeviceTable.getDisplayName
    {| DeviceTable.serial_number := "0123456789ABCDEF";
       DeviceTable.vendor_id := Some 2385; DeviceTable.product_id := Some 5734;
       DeviceTable.name := None; DeviceTable.manufacturer := Some ""%string;
       DeviceTable.total_capacity := None; DeviceTable.last_seen := None;
       DeviceTable.capacity := None |}
    = "Device 01234567"%string.
Proof. reflexivity. Qed.

End LegacyPageFacts.

(** ** Relative times *)

Module RelativeTimeFacts.
Import JsText RelativeTime.

Section Locale.
Context (localeDate : Z → string).
Local Notation "'formatTimestamp'" := (RelativeTime.formatTimestamp localeDate).
Local Notation "'getRelativeTime'" := (RelativeTime.getRelativeTime localeDate).
Local Notation "'formatLastSeen'" := (RelativeTime.formatLastSeen localeDate).

(** X13. [formatTimestamp] of the activity feed, for an event [elapsed]
    milliseconds before now: "Just now" below 10 seconds, and for every
    event in the future; then whole seconds from 10 to 59, whole
    minutes from 1 to 59, whole hours from 1 to 23, each rounded down;
    from 24 hours on, the date. *)
Theorem formatTimestamp_ranges (date now : Z) :
  let elapsed := now - date in
  (elapsed < 10000 → formatTimestamp date now = "Just now"%string)
  ∧ (10000 <= elapsed < 60000 →
     ∃ n, 10 <= n <= 59 ∧ 1000 * n <= elapsed < 1000 * (n + 1)
          ∧ formatTimestamp date now = (toString n +:+ "s ago")%string)
  ∧ (60000 <= elapsed < 3600000 →
     ∃ n, 1 <= n <= 59 ∧ 60000 * n <= elapsed < 60000 * (n + 1)
          ∧ formatTimestamp date now = (toString n +:+ "m ago")%string)
  ∧ (3600000 <= elapsed < 86400000 →
     ∃ n, 1 <= n <= 23 ∧ 3600000 * n <= elapsed < 3600000 * (n + 1)
          ∧ formatTimestamp date now = (toString n +:+ "h ago")%string)
  ∧ (86400000 <= elapsed → formatTimestamp date now = localeDate date).
Proof.
  intros elapsed. unfold RelativeTime.formatTimestamp.
  fold elapsed.
  pose proof (Z.div_mod elapsed 1000 ltac:(lia)) as Hs.
  pose proof (Z.mod_pos_bound elapsed 1000 ltac:(lia)) as Hs'.
  pose proof (Z.div_mod elapsed 60000 ltac:(lia)) as Hm.
  pose proof (Z.mod_pos_bound elapsed 60000 ltac:(lia)) as Hm'.
  pose proof (Z.div_mod elapsed 3600000 ltac:(lia)) as Hh.
  pose proof (Z.mod_pos_bound elapsed 3600000 ltac:(lia)) as Hh'.
  split_and!.
  - intros He.
    by destruct (Z.ltb_spec (elapsed / 1000) 10) as [_|?]; [|lia].
  - intros He. exists (elapsed / 1000).
    split_and!; [lia..|].
    destruct (Z.ltb_spec (elapsed / 1000) 10) as [?|_]; [lia|].
    by destruct (Z.ltb_spec (elapsed / 1000) 60) as [_|?]; [|lia].
  - intros He. exists (elapsed / 60000).
    split_and!; [lia..|].
    destruct (Z.ltb_spec (elapsed / 1000) 10) as [?|_]; [lia|].
    destruct (Z.ltb_spec (elapsed / 1000) 60) as [?|_]; [lia|].
    by destruct (Z.ltb_spec (elapsed / 60000) 60) as [_|?]; [|lia].
  - intros He. exists (elapsed / 3600000).
    split_and!; [lia..|].
    destruct (Z.ltb_spec (elapsed / 1000) 10) as [?|_]; [lia|].
    destruct (Z.ltb_spec (elapsed / 1000) 60) as [?|_]; [lia|].
    destruct (Z.ltb_spec (elapsed / 60000) 60) as [?|_]; [lia|].
    by destruct (Z.ltb_spec (elapsed / 3600000) 24) as [_|?]; [|lia].
  - intros He.
    destruct (Z.ltb_spec (elapsed / 1000) 10) as [?|_]; [lia|].
    destruct (Z.ltb_spec (elapsed / 1000) 60) as [?|_]; [lia|].
    destruct (Z.ltb_spec (elapsed / 60000) 60) as [?|_]; [lia|].
    by destruct (Z.ltb_spec (elapsed / 3600000) 24) as [?|_]; [lia|].
Qed.

(** X14. [getRelativeTime] of the Timeline, for a scan [elapsed]
    milliseconds before now: "Just now" below one minute, and for every
    scan in the future; then whole minutes from 1 to 59, whole hours
    from 1 to 23, whole days from 1 to 6, each rounded down; from 7 days
    on, the date. *)
Theorem getRelativeTime_ranges (date now : Z) :
  let elapsed := now - date in
  (elapsed < 60000 → getRelativeTime date now = "Just now"%string)
  ∧ (60000 <= elapsed < 3600000 →
     ∃ n, 1 <= n <= 59 ∧ 60000 * n <= elapsed < 60000 * (n + 1)
          ∧ getRelativeTime date now = (toString n +:+ "m ago")%string)
  ∧ (3600000 <= elapsed < 86400000 →
     ∃ n, 1 <= n <= 23 ∧ 3600000 * n <= elapsed < 3600000 * (n + 1)
          ∧ getRelativeTime date now = (toString n +:+ "h ago")%string)
  ∧ (86400000 <= elapsed < 604800000 →
     ∃ n, 1 <= n <= 6 ∧ 86400000 * n <= elapsed < 86400000 * (n + 1)
          ∧ getRelativeTime date now = (toString n +:+ "d ago")%string)
  ∧ (604800000 <= elapsed → getRelativeTime date now = localeDate date).
Proof.
  intros elapsed. unfold RelativeTime.getRelativeTime.
  fold elapsed.
  pose proof (Z.div_mod elapsed 60000 ltac:(lia)) as Hm.
  pose proof (Z.mod_pos_bound elapsed 60000 ltac:(lia)) as Hm'.
  pose proof (Z.div_mod elapsed 3600000 ltac:(lia)) as Hh.
  pose proof (Z.mod_pos_bound elapsed 3600000 ltac:(lia)) as Hh'.
  pose proof (Z.div_mod elapsed 86400000 ltac:(lia)) as Hd.
  pose proof (Z.mod_pos_bound elapsed 86400000 ltac:(lia)) as Hd'.
  split_and!.
  - intros He.
    by destruct (Z.ltb_spec (elapsed / 60000) 1) as [_|?]; [|lia].
  - intros He. exists (elapsed / 60000).
    split_and!; [lia..|].
    destruct (Z.ltb_spec (elapsed / 60000) 1) as [?|_]; [lia|].
    by destruct (Z.ltb_spec (elapsed / 60000) 60) as [_|?]; [|lia].
  - intros He. exists (elapsed / 3600000).
    split_and!; [lia..|].
    destruct (Z.ltb_spec (elapsed / 60000) 1) as [?|_]; [lia|].
    destruct (Z.ltb_spec (elapsed / 60000) 60) as [?|_]; [lia|].
    by destruct (Z.ltb_spec (elapsed / 3600000) 24) as [_|?]; [|lia].
  - intros He. exists (elapsed / 86400000).
    split_and!; [lia..|].
    destruct (Z.ltb_spec (elapsed / 60000) 1) as [?|_]; [lia|].
    destruct (Z.ltb_spec (elapsed / 60000) 60) as [?|_]; [lia|].
    destruct (Z.ltb_spec (elapsed / 3600000) 24) as [?|_]; [lia|].
    by destruct (Z.ltb_spec (elapsed / 86400000) 7) as [_|?]; [|lia].
  - intros He.
    destruct (Z.ltb_spec (elapsed / 60000) 1) as [?|_]; [lia|].
    destruct (Z.ltb_spec (elapsed / 60000) 60) as [?|_]; [lia|].
    destruct (Z.ltb_spec (elapsed / 3600000) 24) as [?|_]; [lia|].
    by destruct (Z.ltb_spec (elapsed / 86400000) 7) as [?|_]; [lia|].
Qed.

End Locale.

End RelativeTimeFacts.

(** ** The dashboard page *)

Module DashboardPageFacts.
Import Dashboard DashboardPage.

Lemma feedEvents_head (devices : list Device) (a : ActivityLog)
    (rest : list ActivityLog) :
  head (feedEvents devices (a :: rest)) = Some (toFeedEvent devices a).
Proof.
  unfold feedEvents. rewrite JsFacts.slice_prefix by lia. done.
Qed.

(** X16. A call of [loadData] that is not made during another one ends
    with both flags cleared and the copies untouched. From then on the
    "last event" of the dashboard is the device name of the first event
    of the feed whenever there is any activity, and is left as it was
    when there is none. A list of devices or a history whose request
    failed keeps its former rows, while the list of connected devices
    is emptied when its request fails. *)
Theorem loadData_outcome {Copy} (devicesResult : option (Listing Device))
    (historyResult : option (Listing ActivityLog))
    (connectedResult : option (list UsbDevice)) (st : State Copy) :
  isFetching st = false →
  let st' := loadData devicesResult historyResult connectedResult st in
  isLoading st' = false ∧ isFetching st' = false
  ∧ realTimeCopies st' = realTimeCopies st
  ∧ (activities st' ≠ [] →
     lastEvent st'
       = deviceName <$> head (feedEvents (devices st') (activities st')))
  ∧ (activities st' = [] → lastEvent st' = lastEvent st)
  ∧ (success (or_failed devicesResult) = false → devices st' = devices st)
  ∧ (success (or_failed historyResult) = false →
     activities st' = activities st)
  ∧ (connectedResult = None → connectedDevices st' = []).
Proof.
  intros Hfetching st'. subst st'. unfold loadData. rewrite Hfetching.
  cbn [isLoading isFetching realTimeCopies lastEvent activities devices
       connectedDevices].
  split_and!; try done.
  - destruct (if success (or_failed historyResult)
              then rows (or_failed historyResult) else activities st)
      as [|a rest]; [done|].
    intros _. by rewrite feedEvents_head.
  - by intros ->.
  - by intros ->.
  - by intros ->.
  - by intros ->.
Qed.

Lemma loadData_outcome_witness :
  let st : State string :=
    {| devices := Scenarios.sample_devices; activities := [];
       connectedDevices := []; realTimeCopies := ["report.pdf"%string];
       lastEvent := None; isLoading := true; isFetching := false |} in
  let history := Some {| success := true; rows := Scenarios.sample_history |} in
  isFetching st = false
  ∧ let st' := loadData None history None st in
    isLoading st' = false ∧ isFetching st' = false
    ∧ realTimeCopies st' = realTimeCopies st
    ∧ (activities st' ≠ [] →
       lastEvent st'
         = deviceName <$> head (feedEvents (devices st') (activities st')))
    ∧ (activities st' = [] → lastEvent st' = lastEvent st)
    ∧ (success (or_failed (A := Device) None) = false →
       devices st' = devices st)
    ∧ (success (or_failed history) = false → activities st' = activities st)
    ∧ (@None (list UsbDevice) = None → connectedDevices st' = []).
Proof.
  intros st history.
  assert (isFetching st = false) as Hfetching by reflexivity.
  split; [exact Hfetching|].
  exact (loadData_outcome None history None st Hfetching).
Defined.

Lemma take_app_take {A} (n m : nat) (l k : list A) :
  (n ≤ m)%nat → take n (l ++ take m k) = take n (l ++ k).
Proof.
  revert n. induction l as [|x l IH]; intros n Hn; simpl.
  - by rewrite take_take, Nat.min_l.
  - destruct n as [|n]; simpl; [done|]. f_equal. apply IH. lia.
Qed.

Lemma onCopyDetected_take {Copy} (copies : list Copy) (payload : Copy) :
  onCopyDetected copies payload = take 10 (payload :: copies).
Proof. unfold onCopyDetected. by rewrite JsFacts.slice_prefix by lia. Qed.

Lemma onCopyDetected_fold {Copy} (payloads copies : list Copy) :
  payloads ≠ [] →
  fold_left onCopyDetected payloads copies
    = take 10 (reverse payloads ++ copies).
Proof.
  revert copies. induction payloads as [|p ps IH]; intros copies Hne; [done|].
  simpl. rewrite reverse_cons, <- app_assoc. simpl.
  destruct ps as [|p' ps].
  - simpl. apply onCopyDetected_take.
  - rewrite IH by done. rewrite onCopyDetected_take.
    by apply take_app_take.
Qed.

(** X17. The list of copies shown on the dashboard: after any number of
    [file-copy-detected] events it holds the payloads of the 10 most
    recent of them, or of all when there were fewer, the newest first,
    whatever the list held before when 10 or more events arrived. *)
Theorem onCopyDetected_recent {Copy} (payloads copies : list Copy) :
  fold_left onCopyDetected payloads [] = take 10 (reverse payloads)
  ∧ (length (fold_left onCopyDetected payloads []) ≤ 10)%nat
  ∧ ((10 ≤ length payloads)%nat →
     fold_left onCopyDetected payloads copies = take 10 (reverse payloads)).
Proof.
  assert (fold_left onCopyDetected payloads [] = take 10 (reverse payloads))
    as Hfold.
  { destruct payloads as [|p ps]; [done|].
    by rewrite onCopyDetected_fold, app_nil_r. }
  split_and!; [done| |].
  - rewrite Hfold, length_take. lia.
  - intros Hlen. rewrite onCopyDetected_fold by (intros ->; simpl in Hlen; lia).
    rewrite take_app_le; [done|]. by rewrite length_reverse.
Qed.

End DashboardPageFacts.

(** ** The paths of the file tree *)

Module TreePathFacts.
Import Js FileTree JsFacts FileTreeFacts TreePaths.

Lemma contribution_Some s parts currentPath ps n :
  contribution s parts currentPath ps = Some n →
  ps ≠ [] ∧ ps `prefix_of` parts
  ∧ n = newNode s (List.last ps EmptyString) (joined currentPath ps)
          (bool_decide (ps = parts)).
Proof.
  revert parts currentPath.
  induction ps as [|p ps IH]; intros parts currentPath; [by destruct parts|].
  destruct parts as [|part rest]; [done|]. simpl.
  destruct (String.eqb_spec p part) as [->|Hp]; [|done].
  destruct ps as [|q ps].
  - intros [= <-]. split_and!; [done|by apply prefix_cons, prefix_nil|].
    simpl. f_equal. destruct rest; [by rewrite bool_decide_eq_true_2|].
    by rewrite bool_decide_eq_false_2.
  - intros (_ & Hprefix & ->)%IH. split_and!; [done|by apply prefix_cons|].
    f_equal. apply bool_decide_ext. split; [by intros ->|by intros [= ->]].
Qed.

Lemma contribution_reached s parts currentPath ps :
  ps ≠ [] → ps `prefix_of` parts →
  is_Some (contribution s parts currentPath ps).
Proof.
  revert parts currentPath.
  induction ps as [|p ps IH]; intros parts currentPath; [done|].
  intros _ [k ->]. simpl. rewrite String.eqb_refl.
  destruct ps as [|q ps]; [done|].
  apply IH; [done|]. by exists k.
Qed.

Lemma first_some_split {A B} (f : A → option B) l b :
  first_some f l = Some b →
  ∃ before x after,
    l = before ++ x :: after ∧ f x = Some b
    ∧ Forall (λ y, f y = None) before.
Proof.
  induction l as [|x l IH]; simpl; [done|].
  destruct (f x) as [b'|] eqn:Hx.
  - intros [= <-]. by exists [], x, l.
  - intros (before & y & after & -> & Hy & Hbefore)%IH.
    exists (x :: before), y, after. split_and!; [done..|by constructor].
Qed.

(** The labels of the nodes of the returned tree are the ones that the
    rows create. *)
Lemma label_at_buildFileTree collator snapshots p ps :
  label_at (buildFileTree collator snapshots) (p :: ps)
    = first_contribution snapshots (p :: ps).
Proof.
  unfold buildFileTree.
  rewrite label_at_sortFileNodes by apply insertAll_unique.
  unfold insertAll. rewrite label_at_fold.
  by rewrite label_at_leaf.
Qed.

Lemma descend_reached collator snapshots p ps :
  is_Some (descend (buildFileTree collator snapshots) (p :: ps))
  ↔ ∃ s, s ∈ snapshots ∧ reaches (p :: ps) s.
Proof.
  rewrite <- (fmap_is_Some label).
  fold (label_at (buildFileTree collator snapshots) (p :: ps)).
  rewrite label_at_buildFileTree. unfold first_contribution. split.
  - intros [n (s & Hs & Hn)%first_some_Some]. exists s. split; [done|].
    by apply contribution_Some in Hn as (_ & Hprefix & _).
  - intros (s & Hs & Hreach).
    destruct (first_some _ snapshots) as [n|] eqn:Hfirst; [done|].
    rewrite first_some_None in Hfirst. specialize (Hfirst s Hs).
    destruct (contribution_reached s (pathParts s) "" (p :: ps)) as [n Hn];
      [done..|]. congruence.
Qed.

(** X18. The returned tree has a node at a path of one or more names
    exactly when some row goes through that path: the parts of the row's
    path (its pieces between slashes, without the empty ones) begin with
    these names. *)
Theorem buildFileTree_node_exists (collator : Collator)
    (snapshots : list Snapshot) (p : string) (ps : list string) :
  is_Some (descend (buildFileTree collator snapshots) (p :: ps))
  ↔ ∃ s, s ∈ snapshots ∧ reaches (p :: ps) s.
Proof. apply descend_reached. Qed.

(** X19. The node at a path is the one that the first row through that
    path created, and later rows leave it as it is: its name is the last
    name of the path, its [path] the names joined by slashes with a
    slash in front, it is not expanded, and it has the flag and the
    size of that row when the row's path ends there, and is a folder of
    size 0 without extension when the row's path goes further. *)
Theorem buildFileTree_first_row_wins (collator : Collator)
    (snapshots : list Snapshot) (p : string) (ps : list string) (n : FileNode) :
  descend (buildFileTree collator snapshots) (p :: ps) = Some n →
  ∃ before s after,
    snapshots = before ++ s :: after
    ∧ reaches (p :: ps) s
    ∧ Forall (λ x, ¬ reaches (p :: ps) x) before
    ∧ name n = List.last (p :: ps) EmptyString
    ∧ path n = joined "" (p :: ps)
    ∧ expanded n = false
    ∧ (if bool_decide (pathParts s = p :: ps)
       then is_folder n = snapshot_is_folder s ∧ size n = snapshot_size s
       else is_folder n = true ∧ size n = 0 ∧ extension n = None).
Proof.
  intros Hn.
  assert (label_at (buildFileTree collator snapshots) (p :: ps)
          = Some (label n)) as Hlabel.
  { unfold label_at. by rewrite Hn. }
  rewrite label_at_buildFileTree in Hlabel.
  apply first_some_split in Hlabel
    as (before & s & after & -> & Hs & Hbefore).
  apply contribution_Some in Hs as (_ & Hprefix & Hs).
  exists before, s, after. split_and!; [done|done| | | | |].
  - eapply Forall_impl; [exact Hbefore|]. intros x Hx Hreach. simpl in Hx.
    destruct (contribution_reached x (pathParts x) "" (p :: ps)) as [m Hm];
      [done..|]. congruence.
  - by apply (f_equal name) in Hs.
  - by apply (f_equal path) in Hs.
  - by apply (f_equal expanded) in Hs.
  - rewrite (bool_decide_ext (pathParts s = p :: ps) (p :: ps = pathParts s))
      by done.
    destruct (bool_decide (p :: ps = pathParts s)).
    + split; [by apply (f_equal is_folder) in Hs|by apply (f_equal size) in Hs].
    + split_and!; [by apply (f_equal is_folder) in Hs
                  |by apply (f_equal size) in Hs
                  |by apply (f_equal extension) in Hs].
Qed.

Lemma buildFileTree_first_row_wins_witness :
  let snapshots := [Scenarios.docs_a_txt; Scenarios.docs_4096] in
  let n := default rootNode
             (head (children (buildFileTree unitCollator snapshots))) in
  descend (buildFileTree unitCollator snapshots) ["docs"%string] = Some n
  ∧ size n = 0
  ∧ ∃ before s after,
      snapshots = before ++ s :: after
      ∧ reaches ["docs"%string] s
      ∧ Forall (λ x, ¬ reaches ["docs"%string] x) before
      ∧ name n = List.last ["docs"%string] EmptyString
      ∧ path n = joined "" ["docs"%string]
      ∧ expanded n = false
      ∧ (if bool_decide (pathParts s = ["docs"%string])
         then is_folder n = snapshot_is_folder s ∧ size n = snapshot_size s
         else is_folder n = true ∧ size n = 0 ∧ extension n = None).
Proof.
  intros snapshots n.
  assert (descend (buildFileTree unitCollator snapshots) ["docs"%string]
          = Some n) as Hn by reflexivity.
  split; [exact Hn|]. split; [reflexivity|].
  exact (buildFileTree_first_row_wins unitCollator snapshots "docs" [] n Hn).
Defined.

(** *** The parts of a path *)

Lemma split_app_sep sep (a b : string) :
  split sep (a +:+ String sep b) = split sep a ++ split sep b.
Proof.
  induction a as [|c a IH].
  - simpl. by rewrite Ascii.eqb_refl.
  - rewrite TextFacts.append_cons. simpl. rewrite IH.
    destruct (Ascii.eqb c sep); [done|].
    pose proof (split_length sep a) as Hlen.
    destruct (split sep a); [simpl in Hlen; lia|done].
Qed.

Lemma split_pieces sep s : Forall (λ p, includes sep p = false) (split sep s).
Proof.
  induction s as [|c s IH]; simpl; [by repeat constructor|].
  destruct (Ascii.eqb c sep) eqn:Hc; [by constructor|].
  destruct (split sep s) as [|p ps].
  - repeat constructor. simpl. by rewrite Hc.
  - apply Forall_cons in IH as [Hp Hps]. constructor; [|done].
    simpl. by rewrite Hc, Hp.
Qed.

Lemma pathParts_ok s : Forall part_ok (pathParts s).
Proof.
  unfold pathParts. apply Forall_forall. intros p Hp.
  apply list_elem_of_In, filter_In in Hp as [Hp%list_elem_of_In Hlen].
  split.
  - intros ->. done.
  - pose proof (split_pieces "/" (snapshot_path s)) as Hpieces.
    rewrite Forall_forall in Hpieces. by apply Hpieces.
Qed.

Lemma pathParts_app (a b : Snapshot) (s : Snapshot) :
  snapshot_path s = (snapshot_path a +:+ "/" +:+ snapshot_path b)%string →
  pathParts s = pathParts a ++ pathParts b.
Proof.
  unfold pathParts. intros ->.
  change ("/" +:+ snapshot_path b)%string with (String "/" (snapshot_path b)).
  by rewrite split_app_sep, List.filter_app.
Qed.

(** X20. Slashes at the ends of a path and doubled slashes make no
    difference to the node that a row creates: the parts of a path made
    of two paths with a slash between them are the parts of the one
    followed by the parts of the other, so that an empty piece adds
    nothing; and no part is empty or holds a slash. *)
Theorem pathParts_slashes (a b s : Snapshot) :
  snapshot_path s = (snapshot_path a +:+ "/" +:+ snapshot_path b)%string →
  pathParts s = pathParts a ++ pathParts b
  ∧ (snapshot_path a = EmptyString → pathParts s = pathParts b)
  ∧ (snapshot_path b = EmptyString → pathParts s = pathParts a)
  ∧ Forall part_ok (pathParts s).
Proof.
  intros Hs. rewrite (pathParts_app a b s Hs).
  split_and!; [done| | |].
  - intros Ha. unfold pathParts at 1. by rewrite Ha.
  - intros Hb. unfold pathParts at 2. rewrite Hb. simpl. by rewrite app_nil_r.
  - rewrite <- (pathParts_app a b s Hs). apply pathParts_ok.
Qed.

Lemma pathParts_slashes_witness :
  let row path :=
    {| snapshot_path := path; snapshot_is_folder := false;
       snapshot_size := 1024 |} in
  snapshot_path (row "/docs//a.txt")
    = (snapshot_path (row "/docs/") +:+ "/" +:+ snapshot_path (row "a.txt"))%string
  ∧ pathParts (row "/docs//a.txt") = ["docs"; "a.txt"]%string
  ∧ pathParts (row "/docs//a.txt")
      = pathParts (row "/docs/") ++ pathParts (row "a.txt")
  ∧ (snapshot_path (row "/docs/") = EmptyString →
     pathParts (row "/docs//a.txt") = pathParts (row "a.txt"))
  ∧ (snapshot_path (row "a.txt") = EmptyString →
     pathParts (row "/docs//a.txt") = pathParts (row "/docs/"))
  ∧ Forall part_ok (pathParts (row "/docs//a.txt")).
Proof.
  intros row.
  assert (snapshot_path (row "/docs//a.txt")
          = (snapshot_path (row "/docs/") +:+ "/"
             +:+ snapshot_path (row "a.txt"))%string) as Hpath by reflexivity.
  split; [exact Hpath|]. split; [reflexivity|].
  exact (pathParts_slashes (row "/docs/") (row "a.txt") (row "/docs//a.txt")
           Hpath).
Defined.

(** *** The [path] of a node *)

Lemma split_joined currentPath ps :
  Forall part_ok ps →
  split "/" (joined currentPath ps) = split "/" currentPath ++ ps.
Proof.
  intros Hps. revert currentPath.
  induction Hps as [|p ps [_ Hp] _ IH]; intros currentPath; simpl.
  - by rewrite app_nil_r.
  - rewrite IH.
    change ("/" +:+ p)%string with (String "/" p).
    rewrite split_app_sep, (split_without "/" p Hp).
    by rewrite <- app_assoc.
Qed.

Lemma joined_inj ps qs :
  Forall part_ok ps → Forall part_ok qs →
  joined "" ps = joined "" qs → ps = qs.
Proof.
  intros Hps Hqs Heq. apply (f_equal (split "/")) in Heq.
  rewrite !split_joined in Heq by done. by simplify_list_eq.
Qed.

Lemma joined_not_root p ps :
  Forall part_ok (p :: ps) → joined "" (p :: ps) ≠ "/"%string.
Proof.
  intros Hps Heq. apply (f_equal (split "/")) in Heq.
  rewrite split_joined in Heq by done. simpl in Heq.
  injection Heq as -> _. by apply Forall_cons in Hps as [[? _] _].
Qed.

(** In a tree whose siblings have distinct names, nodes at distinct
    places have distinct keys whenever the key tells the place. *)
Lemma NoDup_keys {K} (key : FileNode → K) t :
  unique_names t →
  (∀ ps qs n m, descend t ps = Some n → descend t qs = Some m →
                key n = key m → ps = qs) →
  (∀ n, n ∈ nodes t → ∃ ps, descend t ps = Some n)
  ∧ NoDup (key <$> nodes t).
Proof.
  induction t as [nm p f s e cs x IH] using FileNode_ind.
  intros Hunique Hkey.
  set (t := mkFileNode nm p f s e cs x) in *.
  pose proof Hunique as [Hnames Hcs]%every_unfold. simpl in Hnames, Hcs.
  assert (∀ c, c ∈ cs →
            (∀ n, n ∈ nodes c → ∃ ps, descend c ps = Some n)
            ∧ NoDup (key <$> nodes c)) as Hsub.
  { intros c Hc. rewrite Forall_forall in IH, Hcs.
    apply IH; [done|by apply Hcs|].
    intros ps qs n m Hn Hm Hnm.
    rewrite <- (descend_child t c) in Hn, Hm by done.
    by injection (Hkey _ _ _ _ Hn Hm Hnm). }
  assert (∀ c n, c ∈ cs → n ∈ nodes c →
            ∃ ps, descend t (name c :: ps) = Some n) as Hbelow.
  { intros c n Hc Hn. destruct (proj1 (Hsub c Hc) n Hn) as [ps Hps].
    exists ps. by rewrite (descend_child t c). }
  split.
  - intros n. rewrite nodes_unfold. intros [->|Hn]%elem_of_cons.
    + by exists [].
    + apply list_elem_of_In, in_flat_map in Hn as (c & Hc%list_elem_of_In & Hn%list_elem_of_In).
      destruct (Hbelow c n Hc Hn) as [ps Hps]. by exists (name c :: ps).
  - rewrite nodes_unfold. csimpl. apply NoDup_cons. split.
    + intros (m & Hm & Hin)%list_elem_of_fmap.
      apply list_elem_of_In, in_flat_map in Hin as (c & Hc%list_elem_of_In & Hin%list_elem_of_In).
      destruct (Hbelow c m Hc Hin) as [ps Hps].
      by specialize (Hkey [] (name c :: ps) t m eq_refl Hps Hm).
    + change (children t) with cs.
      clear IH Hcs Hunique.
      assert (∀ c, c ∈ cs → c ∈ cs) as Hin by done.
      revert Hin Hnames. generalize cs at 1 3 4.
      intros l. induction l as [|c l IHl]; intros Hin Hnames; csimpl;
        [constructor|].
      apply NoDup_cons in Hnames as [Hc Hl].
      rewrite fmap_app. apply NoDup_app. split_and!.
      * apply Hsub, Hin. left.
      * intros k (n & -> & Hn)%list_elem_of_fmap (m & Hnm & Hm)%list_elem_of_fmap.
        apply list_elem_of_In, in_flat_map in Hm
          as (c' & Hc'%list_elem_of_In & Hm%list_elem_of_In).
        destruct (Hbelow c n) as [ps Hps]; [apply Hin; left|done|].
        destruct (Hbelow c' m) as [qs Hqs]; [by apply Hin; right|done|].
        injection (Hkey _ _ _ _ Hps Hqs Hnm) as Hname _.
        apply Hc. rewrite Hname. by apply list_elem_of_fmap_2.
      * apply IHl; [|done]. intros c' Hc'. apply Hin. by right.
Qed.

Lemma buildFileTree_unique collator snapshots :
  unique_names (buildFileTree collator snapshots).
Proof. apply sortFileNodes_unique, insertAll_unique. Qed.

Lemma buildFileTree_path collator snapshots p ps n :
  descend (buildFileTree collator snapshots) (p :: ps) = Some n →
  path n = joined "" (p :: ps) ∧ Forall part_ok (p :: ps).
Proof.
  intros Hn.
  assert (label_at (buildFileTree collator snapshots) (p :: ps)
          = Some (label n)) as Hlabel.
  { unfold label_at. by rewrite Hn. }
  rewrite label_at_buildFileTree in Hlabel.
  apply first_some_Some in Hlabel as (s & _ & Hs).
  apply contribution_Some in Hs as (_ & [k Hprefix] & Hs).
  split; [by apply (f_equal path) in Hs|].
  pose proof (pathParts_ok s) as Hok. rewrite Hprefix in Hok.
  by apply Forall_app in Hok as [? _].
Qed.

Lemma buildFileTree_root collator snapshots :
  label (buildFileTree collator snapshots) = label rootNode.
Proof.
  unfold buildFileTree, insertAll. rewrite sortFileNodes_label.
  generalize rootNode.
  induction snapshots as [|s snapshots IH]; intros t; simpl; [done|].
  rewrite IH. apply insertParts_label.
Qed.

Lemma NoDup_flat_map_nodes {K} (key : FileNode → K) (l : list FileNode) :
  NoDup (key <$> flat_map nodes l) →
  NoDup (key <$> l) ∧ ∀ c, c ∈ l → NoDup (key <$> nodes c).
Proof.
  induction l as [|c l IHl]; csimpl.
  - intros _. split; [constructor|]. by intros c ?%elem_of_nil.
  - rewrite fmap_app. intros (Hc & Hdisjoint & Hl)%NoDup_app.
    destruct (IHl Hl) as [Hkeys Hsub]. split.
    + apply NoDup_cons. split; [|done].
      intros (c' & Hcc' & Hc')%list_elem_of_fmap.
      apply (Hdisjoint (key c)).
      * apply list_elem_of_fmap. exists c. split; [done|].
        rewrite nodes_unfold. left.
      * apply list_elem_of_fmap. exists c'. split; [done|].
        apply list_elem_of_In, in_flat_map. exists c'.
        split; [by apply list_elem_of_In|].
        apply list_elem_of_In. rewrite nodes_unfold. left.
    + intros c' [->|Hc']%elem_of_cons; [done|by apply Hsub].
Qed.

Lemma NoDup_children {K} (key : FileNode → K) t :
  NoDup (key <$> nodes t) →
  Forall (λ n, NoDup (key <$> children n)) (nodes t).
Proof.
  induction t as [nm p f s e cs x IH] using FileNode_ind.
  rewrite nodes_unfold. csimpl. intros [_ Hbelow]%NoDup_cons.
  apply NoDup_flat_map_nodes in Hbelow as [Hkeys Hsub].
  constructor; [done|].
  apply Forall_forall. intros n Hn.
  apply list_elem_of_In, in_flat_map in Hn
    as (c & Hc%list_elem_of_In & Hn%list_elem_of_In).
  rewrite Forall_forall in IH.
  specialize (IH c Hc (Hsub c Hc)).
  rewrite Forall_forall in IH. by apply IH.
Qed.

Lemma paths_NoDup collator snapshots :
  NoDup (path <$> nodes (buildFileTree collator snapshots)).
Proof.
  pose proof (buildFileTree_unique collator snapshots) as Hunique.
  pose proof (f_equal path (buildFileTree_root collator snapshots)) as Hroot.
  simpl in Hroot.
  apply (NoDup_keys path _ Hunique).
  intros [|p ps] [|q qs] n m Hn Hm Hnm; [done| | |].
  - injection Hn as <-. rewrite Hroot in Hnm.
    apply buildFileTree_path in Hm as [Hm Hok].
    rewrite Hm in Hnm. symmetry in Hnm. by apply joined_not_root in Hnm.
  - injection Hm as <-. rewrite Hroot in Hnm.
    apply buildFileTree_path in Hn as [Hn Hok].
    rewrite Hn in Hnm. by apply joined_not_root in Hnm.
  - apply buildFileTree_path in Hn as [Hn Hps].
    apply buildFileTree_path in Hm as [Hm Hqs].
    apply joined_inj; [done..|]. congruence.
Qed.

(** X21. No two nodes of the returned tree have the same [path], the
    root included: the explorer, which marks the nodes whose path is
    the selected one, marks at most one node, and the keys of each of
    its lists of children are distinct. *)
Theorem buildFileTree_paths_distinct (collator : Collator)
    (snapshots : list Snapshot) :
  NoDup (path <$> nodes (buildFileTree collator snapshots))
  ∧ Forall (λ n, NoDup (path <$> children n))
           (nodes (buildFileTree collator snapshots)).
Proof.
  split; [apply paths_NoDup|apply NoDup_children, paths_NoDup].
Qed.

End TreePathFacts.

(** ** Sorting a tree again *)

Module SortFacts.
Import Js FileTree JsFacts FileTreeFacts.

Section Sorting.
Context (collator : Collator).
Local Notation "'cmp'" := (compareNodes collator).
Local Notation "'sortFileNodes'" := (FileTree.sortFileNodes collator).

Lemma sortFileNodes_fixed t : sorted collator t → sortFileNodes t = t.
Proof.
  induction t as [n p f s e cs x IH] using FileNode_ind.
  intros [Hsorted Hcs]%every_unfold. simpl in Hsorted, Hcs.
  rewrite sortFileNodes_unfold. simpl. rewrite (sort_fixed cmp cs Hsorted).
  unfold with_children. simpl. f_equal.
  rewrite <- (list_fmap_id cs) at 2.
  apply Forall_fmap_ext_1. rewrite Forall_forall in IH, Hcs.
  apply Forall_forall. intros c Hc. by apply IH, Hcs.
Qed.

Lemma flat_map_perm {A B} (f : A → list B) (l l' : list A) :
  l ≡ₚ l' → flat_map f l ≡ₚ flat_map f l'.
Proof.
  induction 1 as [|x l l' _ IH|x y l|l l' l'' _ IH1 _ IH2]; simpl.
  - done.
  - by rewrite IH.
  - rewrite !app_assoc. by rewrite (Permutation_app_comm (f y) (f x)).
  - by rewrite IH1.
Qed.

Lemma flat_map_pointwise {A B} (f g : A → list B) (l : list A) :
  (∀ x, x ∈ l → f x ≡ₚ g x) → flat_map f l ≡ₚ flat_map g l.
Proof.
  induction l as [|x l IH]; intros Hfg; simpl; [done|].
  rewrite (Hfg x) by left. rewrite IH; [done|].
  intros z Hz. apply Hfg. by right.
Qed.

Lemma labels_flat_map (f : FileNode → FileNode) (l : list FileNode) :
  label <$> flat_map nodes (f <$> l)
    = flat_map (λ c, label <$> nodes (f c)) l.
Proof.
  induction l as [|c l IH]; csimpl; [done|]. by rewrite fmap_app, IH.
Qed.

Lemma sortFileNodes_nodes t :
  label <$> nodes (sortFileNodes t) ≡ₚ label <$> nodes t.
Proof.
  induction t as [n p f s e cs x IH] using FileNode_ind.
  rewrite (nodes_unfold (sortFileNodes _)), (nodes_unfold (mkFileNode _ _ _ _ _ _ _)).
  rewrite sortFileNodes_children. csimpl.
  rewrite sortFileNodes_label. apply Permutation_skip.
  rewrite labels_flat_map.
  rewrite <- (list_fmap_id cs) at 2. rewrite labels_flat_map.
  rewrite (flat_map_perm _ _ cs (sort_perm cmp cs)).
  apply flat_map_pointwise. intros c Hc.
  rewrite Forall_forall in IH. by apply IH.
Qed.

(** X24. [sortFileNodes] loses and adds no node: the nodes of the
    sorted tree are the nodes of the tree, each with the name, path,
    flag, size and extension it had. Sorting a sorted tree leaves it as
    it is: sorting twice is sorting once, and the tree that
    [buildFileTree] returns is its own sorted tree. *)
Theorem sortFileNodes_idempotent (t : FileNode) :
  label <$> nodes (sortFileNodes t) ≡ₚ label <$> nodes t
  ∧ sortFileNodes (sortFileNodes t) = sortFileNodes t
  ∧ (∀ snapshots, t = buildFileTree collator snapshots → sortFileNodes t = t).
Proof.
  split_and!.
  - apply sortFileNodes_nodes.
  - apply sortFileNodes_fixed, sortFileNodes_sorted.
  - intros snapshots ->. apply sortFileNodes_fixed, sortFileNodes_sorted.
Qed.
End Sorting.
End SortFacts.

(** ** The order of the rows *)

Module PermutationFacts.
Import Js FileTree JsFacts FileTreeFacts TreePaths TreePathFacts.

Lemma descend_app t ps qs :
  descend t (ps ++ qs) = descend t ps ≫= λ n, descend n qs.
Proof.
  revert t. induction ps as [|p ps IH]; intros t; simpl; [done|].
  destruct (find (named p) (children t)) as [c|]; simpl; [apply IH|done].
Qed.

Lemma descend_every P t ps n :
  every P t → descend t ps = Some n → every P n.
Proof.
  revert t. induction ps as [|p ps IH]; intros t Ht; simpl.
  - by intros [= <-].
  - destruct (find (named p) (children t)) as [c|] eqn:Hfind; [|done]. simpl.
    apply IH. apply find_named_Some in Hfind as [Hc _].
    exact (every_child _ _ _ Ht Hc).
Qed.

Lemma descend_to_child t ps n c :
  unique_names t → descend t ps = Some n → c ∈ children n →
  descend t (ps ++ [name c]) = Some c.
Proof.
  intros Hunique Hn Hc. rewrite descend_app, Hn. simpl.
  pose proof (descend_every _ _ _ _ Hunique Hn) as [Hnames _]%every_unfold.
  by rewrite (find_named_unique (name c) (children n) c).
Qed.

Lemma child_reached collator snapshots ps n c :
  descend (buildFileTree collator snapshots) ps = Some n → c ∈ children n →
  ∃ x, x ∈ snapshots ∧ (ps ++ [name c]) `prefix_of` pathParts x.
Proof.
  intros Hn Hc.
  pose proof (descend_to_child _ _ _ _
                (buildFileTree_unique collator snapshots) Hn Hc) as Hchild.
  destruct ps as [|p ps].
  - apply (descend_reached collator snapshots (name c) []). by exists c.
  - apply (descend_reached collator snapshots p (ps ++ [name c])).
    by exists c.
Qed.

Lemma buildFileTree_siblings_strict collator snapshots :
  sibling_names_strict collator snapshots →
  siblings_strict collator (buildFileTree collator snapshots).
Proof.
  intros Hrows ps n a b Hn Ha Hb Hzero.
  destruct (child_reached collator snapshots ps n a Hn Ha) as (x & Hx & Hpx).
  destruct (child_reached collator snapshots ps n b Hn Hb) as (y & Hy & Hpy).
  by apply (Hrows x y ps).
Qed.

(** C3 (as amended). Two lists of rows that are permutations of one
    another give the same tree when every two rows agree ([consistent]:
    rows with the same path state the same flag and size, and a row whose
    path leads to the path of another row is a folder of size 0) and
    [localeCompare] is 0 on two names that rows have at the same place
    only when the names are equal. *)
Theorem buildFileTree_permutation (collator : Collator)
    (snapshots snapshots' : list Snapshot)
    (Hconsistent : consistent snapshots = true)
    (Hstrict : sibling_names_strict collator snapshots)
    (Hperm : snapshots ≡ₚ snapshots') :
  buildFileTree collator snapshots = buildFileTree collator snapshots'.
Proof.
  apply (sorted_tree_ext collator).
  - by apply buildFileTree_siblings_strict.
  - apply buildFileTree_unique.
  - apply buildFileTree_unique.
  - apply sortFileNodes_sorted.
  - apply sortFileNodes_sorted.
  - intros ps. unfold buildFileTree.
    rewrite !label_at_sortFileNodes by apply insertAll_unique.
    unfold insertAll. rewrite !label_at_fold.
    by rewrite (first_contribution_perm snapshots snapshots').
Qed.

Lemma buildFileTree_permutation_witness :
  consistent Scenarios.scenarioC = true
  ∧ sibling_names_strict unitCollator Scenarios.scenarioC
  ∧ Scenarios.scenarioC ≡ₚ reverse Scenarios.scenarioC
  ∧ buildFileTree unitCollator Scenarios.scenarioC
      = buildFileTree unitCollator (reverse Scenarios.scenarioC).
Proof.
  assert (consistent Scenarios.scenarioC = true) as Hconsistent by reflexivity.
  assert (sibling_names_strict unitCollator Scenarios.scenarioC) as Hstrict.
  { intros x y ps a b _ _ _ _. apply compare_units_strict. }
  assert (Scenarios.scenarioC ≡ₚ reverse Scenarios.scenarioC) as Hperm
    by apply Permutation_swap.
  split_and!; [exact Hconsistent|exact Hstrict|exact Hperm|].
  exact (buildFileTree_permutation unitCollator _ _ Hconsistent Hstrict Hperm).
Defined.

(** *** Names that the collation does not tell apart *)

Lemma pathParts_single a : part_ok a → pathParts (file_row a) = [a].
Proof.
  intros [Hne Hslash]. unfold pathParts. simpl.
  rewrite (split_without "/" a Hslash). simpl.
  by destruct a.
Qed.

(** The rows need not be of one path for the order to matter: when
    [localeCompare] is 0 on two different names, the stable sort keeps
    the two nodes in the order of their rows. *)
Lemma buildFileTree_ties_keep_order (collator : Collator) (a b : string) :
  part_ok a → part_ok b → a ≠ b → localeCompare collator a b = 0 →
  (name <$> children (buildFileTree collator [file_row a; file_row b])) = [a; b]
  ∧ (name <$> children (buildFileTree collator [file_row b; file_row a])) = [b; a].
Proof.
  intros Ha Hb Hab Hzero.
  assert (localeCompare collator b a = 0) as Hzero'.
  { pose proof (localeCompare_flip collator a b).
    pose proof (localeCompare_flip collator b a). lia. }
  assert (∀ x y, part_ok x → part_ok y → x ≠ y →
            localeCompare collator x y = 0 →
            (name <$> children (buildFileTree collator [file_row x; file_row y]))
              = [x; y]) as Hpair.
  { intros x y Hx Hy Hxy Hxy0.
    unfold buildFileTree. rewrite sortFileNodes_children.
    rewrite <- list_fmap_compose.
    erewrite list_fmap_ext;
      [|intros i c _; apply (sortFileNodes_name collator c)].
    unfold insertAll. simpl. unfold insertSnapshot.
    rewrite !pathParts_single by done. simpl.
    unfold named. cbn [name newNode].
    destruct (String.eqb_spec x y) as [?|_]; [done|].
    cbn [children with_children sort sort_insert].
    unfold compareNodes. cbn [is_folder newNode file_row snapshot_is_folder
                              name andb negb].
    by rewrite Hxy0. }
  split; [by apply Hpair|apply Hpair; [done..|congruence|done]].
Qed.

End PermutationFacts.

(** ** The rows of the file explorer *)

Module ExplorerFacts.
Import Js FileTree JsFacts FileTreeFacts TreePaths TreePathFacts Explorer.

Lemma rendered_collapsed node : expanded node = false → rendered node = [node].
Proof. destruct node as [n p f s e cs x]. simpl. intros ->. by rewrite andb_false_r. Qed.

Lemma flat_map_rendered_collapsed (l : list FileNode) :
  Forall (λ c, expanded c = false) l → flat_map rendered l = l.
Proof.
  induction 1 as [|c l Hc _ IH]; simpl; [done|].
  by rewrite rendered_collapsed, IH.
Qed.

(** X22. Every node of the returned tree but the root is created
    collapsed, so that the explorer, which starts each folder from its
    [expanded] flag, first shows exactly the entries of the top level,
    in their sorted order, and none of the entries below them. *)
Theorem explorerRows_top_level (collator : Collator)
    (snapshots : list Snapshot) :
  explorerRows (buildFileTree collator snapshots)
    = children (buildFileTree collator snapshots)
  ∧ expanded (buildFileTree collator snapshots) = true
  ∧ Forall (every (λ n, expanded n = false))
           (children (buildFileTree collator snapshots)).
Proof.
  assert (Forall (every (λ n, expanded n = false))
                 (children (buildFileTree collator snapshots))) as Hcollapsed.
  { assert (every (λ n, expanded n = false ∨ path n = "/"%string)
                  (buildFileTree collator snapshots)) as Hevery.
    { apply sortFileNodes_every; [by intros n cs|].
      apply insertAll_every; [by intros n cs|by right|by left]. }
    pose proof (paths_NoDup collator snapshots) as Hdistinct.
    pose proof (f_equal path (buildFileTree_root collator snapshots)) as Hroot.
    simpl in Hroot.
    rewrite nodes_unfold in Hdistinct. csimpl in Hdistinct.
    apply NoDup_cons in Hdistinct as [Hnot _]. rewrite Hroot in Hnot.
    apply every_unfold in Hevery as [_ Hchildren].
    apply Forall_forall. intros c Hc.
    rewrite Forall_forall in Hchildren. specialize (Hchildren c Hc).
    apply Forall_forall. intros n Hn.
    unfold every in Hchildren. rewrite Forall_forall in Hchildren.
    destruct (Hchildren n Hn) as [?|Hpath]; [done|].
    destruct Hnot. rewrite <- Hpath. apply list_elem_of_fmap_2.
    apply list_elem_of_In, in_flat_map. exists c.
    split; by apply list_elem_of_In. }
  split_and!.
  - unfold explorerRows. apply flat_map_rendered_collapsed.
    eapply Forall_impl; [exact Hcollapsed|]. intros c Hc. by apply every_node in Hc.
  - by pose proof (f_equal expanded (buildFileTree_root collator snapshots)).
  - exact Hcollapsed.
Qed.

Lemma children_descend t :
  children t ≠ [] ↔ ∃ p, is_Some (descend t [p]).
Proof.
  split.
  - destruct (children t) as [|c cs] eqn:Hcs; [done|]. intros _.
    exists (name c). simpl. rewrite Hcs. simpl. unfold named at 1.
    by rewrite String.eqb_refl.
  - intros [p [n Hn]] Hnil. simpl in Hn. by rewrite Hnil in Hn.
Qed.

Section Backend.
Context (collator : Collator).
Context (invoke : DevicePage.Invocation → option DevicePage.DeviceFilesResponse).
Local Notation "'loadFilesForActivity'" :=
  (DevicePage.loadFilesForActivity collator invoke).

(** X25. Once [loadFilesForActivity] has settled, the page is not
    loading files and holds a tree only for a successful answer with
    rows. The explorer, which needs a tree with children, shows
    entries exactly when the answer was successful and some row has a
    path with a non-empty piece between slashes; in every other case,
    a rejected request among them, it shows "No files available". *)
Theorem loadFilesForActivity_shows (st : DevicePage.State) (activityId : Z) :
  let st' := loadFilesForActivity st activityId in
  DevicePage.isLoadingFiles st' = false
  ∧ DevicePage.selectedActivityId st' = DevicePage.selectedActivityId st
  ∧ ((∃ t, DevicePage.fileTree st' = Some t ∧ children t ≠ [])
     ↔ ∃ result s,
         invoke (DevicePage.loadFilesForActivity_invocation st activityId)
           = Some result
         ∧ DevicePage.success result = true
         ∧ s ∈ DevicePage.snapshots result ∧ pathParts s ≠ []).
Proof.
  intros st'. subst st'. unfold DevicePage.loadFilesForActivity.
  cbn [DevicePage.isLoadingFiles DevicePage.selectedActivityId
       DevicePage.fileTree].
  split_and!; [done..|].
  destruct (invoke _) as [result|] eqn:Hinvoke;
    [|by split; [intros (? & [=] & _)|intros (? & ? & [=] & _)]].
  destruct (DevicePage.success result) eqn:Hsuccess; simpl.
  2: { split; [by intros (? & [=] & _)|].
       intros (? & ? & [= <-] & ? & _). congruence. }
  split.
  - intros (t & Ht & Hchildren).
    destruct (0 <? length (DevicePage.snapshots result))%nat; [|done].
    injection Ht as <-.
    apply children_descend in Hchildren as [p Hp].
    apply descend_reached in Hp as (s & Hs & Hreach).
    exists result, s. split_and!; [done..|].
    intros Hnil. unfold reaches in Hreach. rewrite Hnil in Hreach.
    by apply prefix_nil_inv in Hreach.
  - intros (? & s & [= <-] & _ & Hs & Hparts).
    destruct (Nat.ltb_spec 0 (length (DevicePage.snapshots result))) as [_|Hlen].
    + eexists. split; [done|]. apply children_descend.
      destruct (pathParts s) as [|p ps] eqn:Hp; [done|].
      exists p. apply descend_reached. exists s. split; [done|].
      unfold reaches. rewrite Hp. apply prefix_cons, prefix_nil.
    + destruct (DevicePage.snapshots result); [by apply elem_of_nil in Hs|].
      simpl in Hlen. lia.
Qed.
End Backend.

End ExplorerFacts.
